(** * goProbe: the block file, the capture state machine, the packet
      classifier and the status endpoint, embedded and verified.

    Sources embedded here:
    - [pkg/goDB/GPFile.go]                 (module [GPFile])
    - the capture state machine, capture.go (module [Capture])
    - [pkg/api/goprobe/server/status.go]   (module [StatusAPI])
    - the classifier's test table, GPPacket_test.go (module [Classifier])
    - the error map of capture.go          (module [ErrorMap])
    - [pkg/results/result.go]              (module [Results])

    Go's [int64] is a [Z] with the two's-complement wrap-around written
    out, [byte] is [Stdlib.Init.Byte.byte], slices are lists, maps are
    [gmap]s. The encoder of the block file, the flow log of a capture
    and the capture manager behind the status endpoint are interfaces to
    code outside these sources, and parameters here.

    The definitions come first; the properties follow, a module for each:
    [ClassifierSpec], [StatusAPISpec], [CaptureSpec], then for the block
    file [CodecFacts] and [HeaderFacts] (the header on disk), [GPFileSpec]
    (BlocksUsed, ReadBlock, WriteTimedBlock, reopening) and
    [RoundTripSpec] (writing blocks and reading them back). Then the
    edges: [GPFileEdges] (errors, failing file operations),
    [ReadSequence] and [RepeatedRead] (reading through one file object)
    for the block file, [CaptureRuns] for the capture, [ErrorMapSpec]
    and [ResultsSpec]. *)

From Stdlib Require Import ZArith Lia Sorted.
From Stdlib Require Import Init.Byte.
From stdpp Require Import base numbers list gmap strings sorting pretty.

Local Open Scope Z_scope.

#[global] Instance byte_inhabited : Inhabited byte := populate x00.

(* ===================================================================== *)
(** * 64-bit signed integers and bytes                                    *)
(* ===================================================================== *)

Module Int64.

(** Two's-complement reduction of a mathematical integer to [int64]. *)
Definition wrap (z : Z) : Z := (z + 2 ^ 63) mod 2 ^ 64 - 2 ^ 63.

Definition in_range (z : Z) : Prop := - 2 ^ 63 <= z < 2 ^ 63.

Definition add (a b : Z) : Z := wrap (a + b).
Definition sub (a b : Z) : Z := wrap (a - b).

(** [a << k] on [int64]: bits shifted out at the top are lost. *)
Definition shl (a k : Z) : Z := wrap (Z.shiftl a k).

(** [a >> k] on [int64]: arithmetic shift. *)
Definition shr (a k : Z) : Z := Z.shiftr a k.

(** [int64(b)] for a byte [b]. *)
Definition of_byte (b : byte) : Z := Z.of_N (Byte.to_N b).

(** [byte(z)]: the low eight bits. *)
Definition to_byte (z : Z) : byte :=
  match Byte.of_N (Z.to_N (z mod 256)) with
  | Some b => b
  | None => x00
  end.

End Int64.

(* ===================================================================== *)
(** * The block file: pkg/goDB/GPFile.go                                  *)
(* ===================================================================== *)

Module GPFile.
Import Int64.

(** [BufSize] allocates space for the header (512 slots of 64 bits). *)
Definition BufSize : nat := 4096.
(** [NumElements] is the number of available header slots. *)
Definition NumElements : nat := Nat.div BufSize 8.

(** The errors [GPFile.go] builds with [errors.New], one constructor per
    message, and the errors handed through from the operating system
    and from the encoder. *)
Inductive error : Type :=
| ErrIO                      (* an error of os.File (OpenFile, Read, Seek, Write) *)
| ErrInvalidHeaderBlocks     (* "Invalid header (blocks)" *)
| ErrInvalidHeaderLookup     (* "Invalid header (lookup table)" *)
| ErrInvalidHeaderLengths    (* "Invalid header (block lengths)" *)
| ErrNoBlockCount            (* "Could not retrieve number of allocated blocks" *)
| ErrBlockEmpty (block : nat)        (* "Block <n> is empty" *)
| ErrIncorrectBytes          (* "Incorrect number of bytes read for decompression" *)
| ErrTimestampNotFound (ts : Z)      (* "Timestamp <ts> not found" *)
| ErrTimestampExists (ts : Z)        (* "Timestamp<ts> already exists in file ..." *)
| ErrFileFull                (* "File is full" *)
| ErrEncoder.                (* the error returned by Encoder.Compress *)

(** Outcome of a fallible call; [Panic] is a Go run-time panic (index
    out of range, [make] with a length out of range). *)
Inductive result (A : Type) : Type :=
| Ok (a : A)
| Err (e : error)
| Panic.
Arguments Ok {A} a.
Arguments Err {A} e.
Arguments Panic {A}.

(** ** The [Encoder] interface

    [GPFile.go] calls [encoder.Compress(data, dst)] and
    [encoder.Decompress(in, out, src)]; the interface declaration and
    its LZ4 implementation live in other packages, so an encoder is a
    parameter of the model. What the two calls can do is fixed by their
    signatures:
    - [Compress] writes some bytes to [dst] and returns [(n, err)];
    - [Decompress] gets the slices [in] and [out] (it sees their
      lengths and may overwrite their elements, not resize them) and
      the reader [src]; it consumes some bytes of [src] and returns
      [(n, err)]. *)
Record CompressResult : Type := {
  comp_written : list byte;   (* bytes appended to dst *)
  comp_n : Z;                 (* the returned int *)
  comp_err : bool             (* err != nil *)
}.

Record DecompressResult : Type := {
  dec_consumed : nat;         (* bytes read from src *)
  dec_out : list byte;        (* contents of out afterwards *)
  dec_n : Z;                  (* the returned int *)
  dec_err : bool              (* err != nil *)
}.

Record Encoder : Type := {
  Compress : list byte -> CompressResult;
  (** [Decompress inLen out src]: [inLen = len(in)], [out] the buffer
      as handed in, [src] the bytes of the reader from its position. *)
  Decompress : nat -> list byte -> list byte -> DecompressResult;
  (** a callee cannot change the length of the caller's slice *)
  Decompress_out_length :
    forall n out src, length (dec_out (Decompress n out src)) = length out
}.

(** GPFile implements the binary data file used to store goProbe's
    flows. [curFile] is the read handle, [None] for [nil], otherwise
    its position in the file. *)
Record GPFile : Type := {
  blocks : list Z;
  timestamps : list Z;
  lengths : list Z;
  filename : string;
  curFile : option nat;
  wBuf : list byte;
  lastSeekPos : Z;
  encoder : Encoder
}.

(** ** Files

    The file named [filename] is a list of bytes; a handle is a
    position in it. *)

(** [f.Read(buf)] with [len(buf) = n] on the bytes [src] that follow the
    handle's position: the buffer afterwards, the count, and whether an
    error (EOF) is returned. *)
Definition file_read (n : nat) (src : list byte) : list byte * nat * bool :=
  let got := take n src in
  (got ++ replicate (n - length got) x00,
   length got,
   (Nat.eqb (length got) 0) && negb (Nat.eqb n 0)).

(** [f.Write(buf)] through a handle at position 0: overwrites in place
    and extends the file when it is shorter. *)
Definition file_write_at_start (buf file : list byte) : list byte :=
  buf ++ drop (length buf) file.

(** ** NewGPFile *)

Definition byte_at (buf : list byte) (i : nat) : Z := of_byte (buf !!! i).

(** One iteration of the header-parsing loop:
    [int64(buf[pos])<<56 | int64(buf[pos+1])<<48 | ... | int64(buf[pos+7])]. *)
Definition decode_at (buf : list byte) (pos : nat) : Z :=
  Z.lor (Z.lor (Z.lor (Z.lor (Z.lor (Z.lor (Z.lor
    (shl (byte_at buf pos) 56)
    (shl (byte_at buf (pos + 1)) 48))
    (shl (byte_at buf (pos + 2)) 40))
    (shl (byte_at buf (pos + 3)) 32))
    (shl (byte_at buf (pos + 4)) 24))
    (shl (byte_at buf (pos + 5)) 16))
    (shl (byte_at buf (pos + 6)) 8))
    (byte_at buf (pos + 7)).

(** [for i := 0; i < NumElements; i++ { h[i] = ...; pos += 8 }], with
    [n] the iterations left. *)
Fixpoint read_header (buf : list byte) (n pos : nat) : list Z :=
  match n with
  | O => []
  | S n' => decode_at buf pos :: read_header buf n' (pos + 8)
  end.

(** [NewGPFile(p, opts...)] on a file system where [p] is absent
    ([None]) or holds the given bytes. [enc] is the encoder the options
    leave in place ([lz4.New()] by default). Returns the file afterwards
    as well. *)
Definition NewGPFile (p : string) (enc : Encoder) (fs : option (list byte))
  : result GPFile * option (list byte) :=
  match fs with
  | Some file =>
      let '(bufH, nH, e1) := file_read BufSize file in
      if e1 then (Err ErrIO, fs) else
      let '(bufTS, nTS, e2) := file_read BufSize (drop nH file) in
      if e2 then (Err ErrIO, fs) else
      let '(bufLen, nLen, e3) := file_read BufSize (drop (nH + nTS) file) in
      if e3 then (Err ErrIO, fs) else
      if negb (Nat.eqb nH BufSize) then (Err ErrInvalidHeaderBlocks, fs) else
      if negb (Nat.eqb nTS BufSize) then (Err ErrInvalidHeaderLookup, fs) else
      if negb (Nat.eqb nLen BufSize) then (Err ErrInvalidHeaderLengths, fs) else
      (Ok {| blocks := read_header bufH NumElements 0;
             timestamps := read_header bufTS NumElements 0;
             lengths := read_header bufLen NumElements 0;
             filename := p;
             curFile := Some (nH + nTS + nLen)%nat;
             wBuf := replicate (BufSize * 3) x00;
             lastSeekPos := 0;
             encoder := enc |}, fs)
  | None =>
      let bufH := replicate BufSize x00 in
      let bufTS := replicate BufSize x00 in
      let bufLen := replicate BufSize x00 in
      (Ok {| blocks := read_header bufH NumElements 0;
             timestamps := read_header bufTS NumElements 0;
             lengths := read_header bufLen NumElements 0;
             filename := p;
             curFile := Some (BufSize + BufSize + BufSize)%nat;
             wBuf := replicate (BufSize * 3) x00;
             lastSeekPos := 0;
             encoder := enc |},
       Some (bufH ++ bufTS ++ bufLen))
  end.

(** ** BlocksUsed *)

Definition slot_is_zero (f : GPFile) (i : nat) : bool :=
  (timestamps f !!! i =? 0) && (blocks f !!! i =? 0) && (lengths f !!! i =? 0).

(** The loop of [BlocksUsed]; [n] iterations left, at index [i]. *)
Fixpoint BlocksUsed_loop (f : GPFile) (n i : nat) : Z * option error :=
  match n with
  | O => (-1, Some ErrNoBlockCount)
  | S n' =>
      if slot_is_zero f i then (Z.of_nat i, None)
      else BlocksUsed_loop f n' (S i)
  end.

(** [BlocksUsed] returns how many slots are already taken. *)
Definition BlocksUsed (f : GPFile) : Z * option error :=
  BlocksUsed_loop f NumElements 0.

(** ** ReadBlock *)

(** [make([]byte, n)] with an [int64] length panics when [n] is negative
    or above the allocation limit of the run time, [maxAlloc]: 2^48
    bytes on 64-bit Linux. Memory for a slice that [make] accepts is
    taken to be there. *)
Definition maxAlloc : Z := 2 ^ 48.

Definition make_panics (n : Z) : bool := (n <? 0) || (maxAlloc <? n).

(** [ReadBlock(block)] on the file contents [file]. Returns the GPFile
    as the call leaves it (handle position, [lastSeekPos]). *)
Definition ReadBlock (f : GPFile) (file : list byte) (block : nat)
  : GPFile * result (list byte) :=
  match timestamps f !! block, blocks f !! block, lengths f !! block with
  | Some t, Some b, Some l =>
      if (t =? 0) && (b =? 0) && (l =? 0) then (f, Err (ErrBlockEmpty block))
      else
        (* open the file for reading if it is not open yet *)
        let pos0 := match curFile f with Some p => p | None => O end in
        match (if Nat.eqb block 0 then Some (Z.of_nat BufSize * 3)
               else blocks f !! (block - 1)%nat) with
        | None => (f, Panic)
        | Some seekPos =>
            let readLen := sub b seekPos in
            let seek := negb (seekPos =? lastSeekPos f) in
            if seek && (seekPos <? 0) then
              (* Seek to a negative offset fails *)
              ({| blocks := blocks f; timestamps := timestamps f;
                  lengths := lengths f; filename := filename f;
                  curFile := Some pos0; wBuf := wBuf f;
                  lastSeekPos := lastSeekPos f; encoder := encoder f |},
               Err ErrIO)
            else
              let pos := if seek then Z.to_nat seekPos else pos0 in
              let last := if seek then seekPos else lastSeekPos f in
              if make_panics readLen || make_panics l then
                ({| blocks := blocks f; timestamps := timestamps f;
                    lengths := lengths f; filename := filename f;
                    curFile := Some pos; wBuf := wBuf f;
                    lastSeekPos := last; encoder := encoder f |},
                 Panic)
              else
                let r := Decompress (encoder f) (Z.to_nat readLen)
                           (replicate (Z.to_nat l) x00) (drop pos file) in
                let f' := {| blocks := blocks f; timestamps := timestamps f;
                             lengths := lengths f; filename := filename f;
                             curFile := Some (pos + dec_consumed r)%nat;
                             wBuf := wBuf f;
                             lastSeekPos := last; encoder := encoder f |} in
                if negb (dec_n r =? readLen) then (f', Err ErrIncorrectBytes)
                else (f', Ok (dec_out r))
        end
  | _, _, _ => (f, Panic)
  end.

(** ** ReadTimedBlock *)

Fixpoint ReadTimedBlock_loop (f : GPFile) (file : list byte) (timestamp : Z)
    (n i : nat) : GPFile * result (list byte) :=
  match n with
  | O => (f, Err (ErrTimestampNotFound timestamp))
  | S n' =>
      match timestamps f !! i with
      | None => (f, Panic)
      | Some t =>
          if t =? timestamp then ReadBlock f file i
          else ReadTimedBlock_loop f file timestamp n' (S i)
      end
  end.

Definition ReadTimedBlock (f : GPFile) (file : list byte) (timestamp : Z)
  : GPFile * result (list byte) :=
  ReadTimedBlock_loop f file timestamp NumElements 0.

(** ** WriteTimedBlock *)

(** How the slot-search loop of [WriteTimedBlock] ends. *)
Inductive scan : Type :=
| ScanExists (curTstamp : Z)              (* the timestamp is in the file *)
| ScanFree (newPos : nat) (nextFreeBlock : Z)   (* left by [break] *)
| ScanEnd                                 (* [newPos = NumElements] *)
| ScanPanic.

(** [for newPos = 0; newPos < NumElements; newPos++ { ... }], with [n]
    iterations left. *)
Fixpoint scan_loop (f : GPFile) (timestamp : Z) (n newPos : nat) : scan :=
  match n with
  | O => ScanEnd
  | S n' =>
      match timestamps f !! newPos with
      | None => ScanPanic
      | Some curTstamp =>
          if curTstamp =? timestamp then ScanExists curTstamp
          else if curTstamp =? 0 then
            if negb (Nat.eqb newPos 0) then
              match blocks f !! (newPos - 1)%nat with
              | Some b => ScanFree newPos b
              | None => ScanPanic
              end
            else ScanFree newPos (Z.of_nat BufSize * 3)
          else scan_loop f timestamp n' (S newPos)
      end
  end.

(** [uint(56-(j*8))] *)
Definition shift_of (j : nat) : Z := Z.of_nat (56 - j * 8).

(** The inner loop of the header serialisation, [n] iterations left at
    index [j]: one byte of each of the three arrays. *)
Fixpoint header_bytes_loop (b t l : Z) (pos n j : nat) (w : list byte)
  : list byte :=
  match n with
  | O => w
  | S n' =>
      let w1 := <[(pos + j)%nat := to_byte (shr b (shift_of j))]> w in
      let w2 := <[(BufSize + pos + j)%nat := to_byte (shr t (shift_of j))]> w1 in
      let w3 := <[(BufSize + BufSize + pos + j)%nat
                   := to_byte (shr l (shift_of j))]> w2 in
      header_bytes_loop b t l pos n' (S j) w3
  end.

(** The outer loop, [n] iterations left at slot [i] and offset [pos]. *)
Fixpoint header_loop (bs ts ls : list Z) (n i pos : nat) (w : list byte)
  : list byte :=
  match n with
  | O => w
  | S n' =>
      header_loop bs ts ls n' (S i) (pos + 8)
        (header_bytes_loop (bs !!! i) (ts !!! i) (ls !!! i) pos 8 0 w)
  end.

(** What the operating system answers to the file operations of one
    call of [WriteTimedBlock] (the writes of the encoder apart, which
    are in the result of [Compress]). *)
Record file_ops : Type := {
  (** [os.OpenFile(f.filename, os.O_APPEND|os.O_WRONLY, 0600)] returns
      an error *)
  open_append_err : bool;
  (** [os.OpenFile(f.filename, os.O_WRONLY, 0600)] returns an error *)
  open_header_err : bool;
  (** [curWfile.Write(f.wBuf)]: [None] when it returns no error,
      [Some n] when it returns an error after [n] bytes *)
  header_written : option nat
}.

(** Every file operation succeeds. *)
Definition ops_work : file_ops :=
  {| open_append_err := false; open_header_err := false; header_written := None |}.

(** [WriteTimedBlock(timestamp, data)] on the file contents [file],
    with the answers [os] of the operating system. Returns the GPFile
    and the file as the call leaves them. The header in memory is
    updated before the file is opened again to rewrite the header. *)
Definition WriteTimedBlock_os (os : file_ops) (f : GPFile) (file : list byte)
    (timestamp : Z) (data : list byte)
  : GPFile * list byte * result unit :=
  match scan_loop f timestamp NumElements 0 with
  | ScanPanic => (f, file, Panic)
  | ScanExists cur => (f, file, Err (ErrTimestampExists cur))
  | ScanEnd => (f, file, Err ErrFileFull)
  | ScanFree newPos nextFreeBlock =>
      if nextFreeBlock =? -1 then (f, file, Err ErrFileFull) else
      if open_append_err os then (f, file, Err ErrIO) else
      (* compress the data, appending to the file *)
      let c := Compress (encoder f) data in
      let file1 := file ++ comp_written c in
      if comp_err c then (f, file1, Err ErrEncoder) else
      (* update header *)
      let bs := <[newPos := add nextFreeBlock (comp_n c)]> (blocks f) in
      let ts := <[newPos := timestamp]> (timestamps f) in
      let ls := <[newPos := Z.of_nat (length data)]> (lengths f) in
      let w := header_loop bs ts ls NumElements 0 0 (wBuf f) in
      let f' := {| blocks := bs; timestamps := ts; lengths := ls;
                   filename := filename f; curFile := curFile f; wBuf := w;
                   lastSeekPos := lastSeekPos f; encoder := encoder f |} in
      if open_header_err os then (f', file1, Err ErrIO) else
      match header_written os with
      | Some n => (f', file_write_at_start (take n w) file1, Err ErrIO)
      | None => (f', file_write_at_start w file1, Ok tt)
      end
  end.

(** [WriteTimedBlock] on a file system whose operations succeed. *)
Definition WriteTimedBlock (f : GPFile) (file : list byte)
    (timestamp : Z) (data : list byte)
  : GPFile * list byte * result unit :=
  WriteTimedBlock_os ops_work f file timestamp data.

(** ** An encoder that stores the data as it is

    [Compress] writes the data unchanged; [Decompress] reads [len(in)]
    bytes from the source, copies them to [out] and returns how many
    bytes it read. Used to run the model on concrete files. *)
Definition null_Compress (data : list byte) : CompressResult :=
  {| comp_written := data; comp_n := Z.of_nat (length data); comp_err := false |}.

Definition null_Decompress (n : nat) (out src : list byte) : DecompressResult :=
  let got := take n src in
  if negb (Nat.eqb (length got) n) then
    {| dec_consumed := length got; dec_out := out; dec_n := 0; dec_err := true |}
  else
    {| dec_consumed := n;
       dec_out := take (length out) got ++ drop (length got) out;
       dec_n := Z.of_nat n;
       dec_err := false |}.

Definition null_Decompress_out_length n out src :
  length (dec_out (null_Decompress n out src)) = length out.
Proof.
  unfold null_Decompress. destruct (negb _); simpl; [reflexivity|].
  rewrite length_app, length_take, length_drop. lia.
Qed.

Definition null_encoder : Encoder :=
  {| Compress := null_Compress;
     Decompress := null_Decompress;
     Decompress_out_length := null_Decompress_out_length |}.

(** ** The accessors *)

(** [GetBlocks] returns the in-file location for all data blocks. *)
Definition GetBlocks (f : GPFile) : list Z := blocks f.

(** [GetTimestamps] returns all timestamps under which data blocks
    were stored. *)
Definition GetTimestamps (f : GPFile) : list Z := timestamps f.

End GPFile.

(* ===================================================================== *)
(** * The packet classifier                                               *)
(* ===================================================================== *)

Module Classifier.

(** [Direction], as the test table names its values. *)
Inductive Direction : Type :=
| DirectionRemains
| DirectionReverts.

#[global] Instance Direction_eq_dec : EqDecision Direction.
Proof. solve_decision. Defined.

(** The protocol constants the test table uses. Their declarations are
    not among the sources; these are the IANA protocol numbers. *)
Definition ICMP : Z := 1.
Definition TCP : Z := 6.
Definition UDP : Z := 17.
Definition ICMPv6 : Z := 58.

(** [uint16ToPort(p)], from the test file: the two bytes of
    [binary.BigEndian.PutUint16]. *)
Definition uint16ToPort (p : Z) : list byte :=
  [Int64.to_byte (Z.shiftr p 8); Int64.to_byte p].

(** The port a two-byte big-endian slice stands for. *)
Definition portOf (port : list byte) : Z :=
  Int64.of_byte (port !!! 0%nat) * 256 + Int64.of_byte (port !!! 1%nat).

(** Modelled from the spec: [isCommonPort] is called by
    [TestPortMergeLogic], its definition is not among the sources.
    "A port is common if: TCP in {53, 80, 443}, or UDP in {53, 443}." *)
Definition isCommonPort (port : list byte) (proto : Z) : bool :=
  let p := portOf port in
  ((proto =? TCP) && ((p =? 53) || (p =? 80) || (p =? 443)))
  || ((proto =? UDP) && ((p =? 53) || (p =? 443))).

(** [TestPortMergeLogic], from the test file: the loop over
    [i := uint16(0); i < 65535; i++] with its four requirements. *)
Definition TestPortMergeLogic_body (i : Z) : bool :=
  (if (i =? 53) || (i =? 80) || (i =? 443)
   then isCommonPort (uint16ToPort i) TCP
   else negb (isCommonPort (uint16ToPort i) TCP))
  &&
  (if (i =? 53) || (i =? 443)
   then isCommonPort (uint16ToPort i) UDP
   else negb (isCommonPort (uint16ToPort i) UDP)).

(** [n] iterations left, at [i]. *)
Fixpoint TestPortMergeLogic_loop (n : nat) (i : Z) : bool :=
  match n with
  | O => true
  | S n' => TestPortMergeLogic_body i && TestPortMergeLogic_loop n' (i + 1)
  end.

Definition TestPortMergeLogic : bool :=
  TestPortMergeLogic_loop (Z.to_nat 65535) 0.

(** What the classifier reads from a packet: the two ports and the
    protocol of the 5-tuple, and the ICMP type byte. *)
Record GPPacket : Type := {
  sport : Z;
  dport : Z;
  proto : Z;
  auxInfo : Z
}.

(** The classifier's verdict: the direction and whether the call was a
    confident one. *)
Record Classification : Type := {
  direction : Direction;
  directionConfidenceHigh : bool
}.

Definition confident (d : Direction) : Classification :=
  {| direction := d; directionConfidenceHigh := true |}.
Definition guess (d : Direction) : Classification :=
  {| direction := d; directionConfidenceHigh := false |}.

Definition port_common (p proto : Z) : bool := isCommonPort (uint16ToPort p) proto.

(** Modelled from the spec: the rules of the direction inference, one
    function per rule, [None] when the rule does not apply. The
    classifier's definition is not among the sources; its test table
    is. *)

(** 1. ICMP echo: type 0x08 (IPv4) or 0x80 (IPv6) is a request, types
    0x00 and 0x81 a reply, ICMPv6 router advertisement 0x86 remains. *)
Definition rule_icmp (pkt : GPPacket) : option Direction :=
  if proto pkt =? ICMP then
    if auxInfo pkt =? 8 then Some DirectionRemains
    else if auxInfo pkt =? 0 then Some DirectionReverts
    else None
  else if proto pkt =? ICMPv6 then
    if auxInfo pkt =? 128 then Some DirectionRemains
    else if auxInfo pkt =? 129 then Some DirectionReverts
    else if auxInfo pkt =? 134 then Some DirectionRemains
    else None
  else None.

(** 2. Common server ports: if exactly one side's port is common, the
    common side is the server and becomes dst. *)
Definition rule_common_port (pkt : GPPacket) : option Direction :=
  match port_common (sport pkt) (proto pkt), port_common (dport pkt) (proto pkt) with
  | false, true => Some DirectionRemains
  | true, false => Some DirectionReverts
  | _, _ => None
  end.

(** 3. DHCP: UDP and the ports are 67 and 68; 68 to 67 is the request. *)
Definition rule_dhcp (pkt : GPPacket) : option Direction :=
  if proto pkt =? UDP then
    if (sport pkt =? 68) && (dport pkt =? 67) then Some DirectionRemains
    else if (sport pkt =? 67) && (dport pkt =? 68) then Some DirectionReverts
    else None
  else None.

(** 4. Zeroed ephemeral port: one port is 0 and the other a well-known
    service port (at most 1024 or common); the zero side is the client. *)
Definition well_known (p proto : Z) : bool := (p <=? 1024) || port_common p proto.

Definition rule_zero_port (pkt : GPPacket) : option Direction :=
  if (sport pkt =? 0) && well_known (dport pkt) (proto pkt) then Some DirectionRemains
  else if (dport pkt =? 0) && well_known (sport pkt) (proto pkt) then Some DirectionReverts
  else None.

(** 5. Ephemeral against privileged: ports below 1024 are privileged; if
    exactly one side is privileged, it is the server. *)
Definition privileged (p : Z) : bool := p <? 1024.

Definition rule_privileged (pkt : GPPacket) : option Direction :=
  match privileged (sport pkt), privileged (dport pkt) with
  | false, true => Some DirectionRemains
  | true, false => Some DirectionReverts
  | _, _ => None
  end.

(** 6. and 7. Higher against lower port, and the tie. *)
Definition rule_port_order (pkt : GPPacket) : Direction :=
  if dport pkt <? sport pkt then DirectionRemains
  else if sport pkt <? dport pkt then DirectionReverts
  else DirectionRemains.

(** The first confident rule that applies, in the order of the spec. *)
Definition confident_rules (pkt : GPPacket) : option Direction :=
  match rule_icmp pkt with
  | Some d => Some d
  | None =>
  match rule_common_port pkt with
  | Some d => Some d
  | None =>
  match rule_dhcp pkt with
  | Some d => Some d
  | None =>
  match rule_zero_port pkt with
  | Some d => Some d
  | None => rule_privileged pkt
  end end end end.

Definition classify (pkt : GPPacket) : Classification :=
  match confident_rules pkt with
  | Some d => confident d
  | None => guess (rule_port_order pkt)
  end.

Definition ClassifyPacketDirection (pkt : GPPacket) : Direction :=
  direction (classify pkt).

(** The table [testCases] of the test file (addresses as written
    there) and [TestClassification] over it. *)
Record testParams : Type := {
  tp_sip : string;
  tp_dip : string;
  tp_sport : Z;
  tp_dport : Z;
  tp_proto : Z;
  tp_auxInfo : Z;
  expectedDirection : Direction
}.

Definition tc (sip dip : string) (sp dp pr aux : Z) (d : Direction) : testParams :=
  {| tp_sip := sip; tp_dip := dip; tp_sport := sp; tp_dport := dp;
     tp_proto := pr; tp_auxInfo := aux; expectedDirection := d |}.

Definition testCases : list testParams := [
  tc "2c04:4000::6ab" "2c01:2000::3" 0 0 ICMPv6 128 DirectionRemains;
  tc "2c01:2000::3" "2c04:4000::6ab" 0 0 ICMPv6 129 DirectionReverts;
  tc "fe80::3df3:abbf:3d8d:7f03" "ff02::2" 0 0 ICMPv6 134 DirectionRemains;
  tc "10.0.0.1" "10.0.0.2" 0 0 ICMP 8 DirectionRemains;
  tc "10.0.0.2" "10.0.0.1" 0 0 ICMP 0 DirectionReverts;
  tc "10.0.0.1" "10.0.0.2" 37485 17500 TCP 0 DirectionRemains;
  tc "10.0.0.2" "10.0.0.1" 17500 34000 TCP 0 DirectionReverts;
  tc "2c04:4000::6ab" "2c01:2000::3" 37485 17500 TCP 0 DirectionRemains;
  tc "2c01:2000::3" "2c04:4000::6ab" 17500 34000 TCP 0 DirectionReverts;
  tc "10.0.0.1" "4.5.6.7" 33561 444 UDP 0 DirectionRemains;
  tc "4.5.6.7" "10.0.0.1" 444 33561 UDP 0 DirectionReverts;
  tc "10.0.0.1" "4.5.6.7" 33561 33560 UDP 0 DirectionRemains;
  tc "4.5.6.7" "10.0.0.1" 33560 33561 UDP 0 DirectionReverts;
  tc "10.0.0.1" "4.5.6.7" 445 444 UDP 0 DirectionRemains;
  tc "4.5.6.7" "10.0.0.1" 444 445 UDP 0 DirectionReverts;
  tc "10.0.0.1" "4.5.6.7" 33561 33561 UDP 0 DirectionRemains;
  tc "10.0.0.1" "4.5.6.7" 444 444 UDP 0 DirectionRemains;
  tc "0.0.0.0" "255.255.255.255" 68 67 UDP 0 DirectionRemains;
  tc "10.0.0.1" "10.0.0.2" 67 68 UDP 0 DirectionReverts;
  tc "10.0.0.1" "4.5.6.7" 0 53 UDP 0 DirectionRemains;
  tc "10.0.0.1" "4.5.6.7" 0 53 TCP 0 DirectionRemains;
  tc "10.0.0.1" "4.5.6.7" 0 80 TCP 0 DirectionRemains;
  tc "10.0.0.1" "4.5.6.7" 0 443 TCP 0 DirectionRemains;
  tc "2c04:4000::6ab" "2c04:4000::6ab" 33561 33561 UDP 0 DirectionRemains;
  tc "2c04:4000::6ab" "2c04:4000::6ab" 444 444 UDP 0 DirectionRemains;
  tc "2c04:4000::6ab" "2c04:4000::6ab" 0 53 UDP 0 DirectionRemains
].

Definition packet_of (p : testParams) : GPPacket :=
  {| sport := tp_sport p; dport := tp_dport p;
     proto := tp_proto p; auxInfo := tp_auxInfo p |}.

Definition TestClassification : bool :=
  forallb (fun p => bool_decide (ClassifyPacketDirection (packet_of p) = expectedDirection p))
          testCases.

End Classifier.

(* ===================================================================== *)
(** * The status endpoint: pkg/api/goprobe/server/status.go               *)
(* ===================================================================== *)

Module StatusAPI.

Definition StatusOK : Z := 200.
Definition StatusNoContent : Z := 204.

Section GetStatus.
(** The capture status the manager reports per interface, and the
    time of the last writeout: both types are declared elsewhere. *)
Context {CaptureStatus Time : Type}.

(** [gpapi.StatusResponse], with the fields [getStatus] sets. *)
Record StatusResponse : Type := {
  StatusCode : Z;
  LastWriteout : Time;
  Statuses : gmap string CaptureStatus
}.

(** The server: the writeout handler's [LastRotation] and the capture
    manager's [Status(ifaces...)]. *)
Record Server : Type := {
  LastRotation : Time;
  captureManager_Status : list string -> gmap string CaptureStatus
}.

(** [getStatus]: [iface] is [c.Param(ifaceKey)]; the result is the
    pair handed to [c.JSON], the HTTP status code and the body. *)
Definition getStatus (server : Server) (iface : string) : Z * StatusResponse :=
  let statuses :=
    if negb (String.eqb iface "") then captureManager_Status server [iface]
    else captureManager_Status server [] in
  let code := if Nat.eqb (size statuses) 0 then StatusNoContent else StatusOK in
  (code,
   {| StatusCode := code;
      LastWriteout := LastRotation server;
      Statuses := statuses |}).
End GetStatus.

Arguments StatusResponse : clear implicits.
Arguments Server : clear implicits.

End StatusAPI.

(* ===================================================================== *)
(** * The capture state machine: capture.go                               *)
(* ===================================================================== *)

Module Capture.

(** [Snaplen] sets the amount of bytes captured from a packet. *)
Definition Snaplen : Z := 128.

(** [ErrorThreshold] is the maximum amount of consecutive errors that
    can occur on an interface before capturing is halted. *)
Definition ErrorThreshold : Z := 10000.

(** [State] enumerates the activity states of a capture. The constants
    start at [iota + 1]; [StateUnset] is the zero value of the type. *)
Inductive State : Type :=
| StateUnset
| StateInitializing
| StateCapturing
| StateClosing
| StateError.

#[global] Instance State_eq_dec : EqDecision State.
Proof. solve_decision. Defined.

(** [CaptureStats]: what the capture source reports. *)
Record CaptureStats : Type := {
  PacketsReceived : Z;
  PacketsDropped : Z
}.

(** [Stats] stores the packet statistics of the capture; the embedded
    [*CaptureStats] may be nil. *)
Record Stats : Type := {
  stats_CaptureStats : option CaptureStats;
  PacketsLogged : Z
}.

(** The type [Status] stores both the capture's state and statistics
    (named [CaptureStatus] here, [Status] being the method). *)
Record CaptureStatus : Type := {
  status_State : State;
  status_Stats : Stats
}.

Definition zero_Stats : Stats :=
  {| stats_CaptureStats := None; PacketsLogged := 0 |}.
Definition zero_Status : CaptureStatus :=
  {| status_State := StateUnset; status_Stats := zero_Stats |}.

(** [config.CaptureConfig], with the fields [initializing] reads;
    configurations are compared with [!=]. *)
Record CaptureConfig : Type := {
  BufferSize : Z;
  Promisc : bool
}.

#[global] Instance CaptureConfig_eq_dec : EqDecision CaptureConfig.
Proof. solve_decision. Defined.

(** The capture source of the packet library: [Stats()] is all the
    state machine asks of it. *)
Record Source : Type := {
  source_Stats : CaptureStats
}.

(** What the capture package uses and other files of the package
    define: the flow log with its operations, and the helper [sub] on
    capture statistics. *)
Class Package (FlowLog GPPacket AggFlowMap : Type) : Type := {
  NewFlowLog : FlowLog;
  FlowLog_Add : FlowLog -> GPPacket -> FlowLog;
  FlowLog_Len : FlowLog -> Z;
  FlowLog_Rotate : FlowLog -> AggFlowMap * FlowLog;
  sub : CaptureStats -> CaptureStats -> CaptureStats
}.

(** The names of the state functions; [None : option stateFn] is the
    nil [stateFn] that ends [Run]. *)
Inductive stateFn : Type :=
| fn_initializing
| fn_capturing
| fn_inError
| fn_closing.

(** The capture commands; each carries its return channel in the
    source, here the type of the reply. *)
Inductive captureCommand : Type :=
| captureCommandStatus
| captureCommandErrors
| captureCommandFlows
| captureCommandUpdate (config : CaptureConfig)
| captureCommandRotate.

(** The errors [process] sends on [captureErrors]. *)
Inductive captureError : Type :=
| ErrNextPacket (stopped : bool)
    (* "capture error: %w"; [stopped]: errors.Is(err, capture.ErrCaptureStopped) *)
| ErrNotDecoded (errs : gmap string Z).
    (* "the last %d packets could not be decoded: [%s]" *)

Section WithPackage.
Context {FlowLog GPPacket AggFlowMap : Type}.
Context `{!Package FlowLog GPPacket AggFlowMap}.

(** [Capture]; [cmdChan_closed] records [close(c.cmdChan)]. *)
Record Capture : Type := {
  iface : string;
  closed : bool;
  state : State;
  config : CaptureConfig;
  cmdChan_closed : bool;
  lastRotationStats : Stats;
  packetsLogged : Z;
  flowLog : FlowLog;
  captureHandle : option Source;
  errMap : gmap string Z
}.

(** [NewCapture] creates a new Capture associated with the given iface. *)
Definition NewCapture (ifc : string) (cfg : CaptureConfig) : Capture :=
  {| iface := ifc; closed := false; state := StateUnset; config := cfg;
     cmdChan_closed := false;
     lastRotationStats :=
       {| stats_CaptureStats := Some {| PacketsReceived := 0; PacketsDropped := 0 |};
          PacketsLogged := 0 |};
     packetsLogged := 0;
     flowLog := NewFlowLog;
     captureHandle := None;
     errMap := ∅ |}.

(** [rotateResult] bundles the return values of Rotate. *)
Record rotateResult : Type := {
  agg : option AggFlowMap;
  stats : Stats
}.

Definition reply_type (cmd : captureCommand) : Type :=
  match cmd with
  | captureCommandStatus => CaptureStatus
  | captureCommandErrors => gmap string Z
  | captureCommandFlows => FlowLog
  | captureCommandUpdate _ => unit
  | captureCommandRotate => rotateResult
  end.

Definition setState (c : Capture) (s : State) : Capture :=
  {| iface := iface c; closed := closed c; state := s; config := config c;
     cmdChan_closed := cmdChan_closed c;
     lastRotationStats := lastRotationStats c;
     packetsLogged := packetsLogged c; flowLog := flowLog c;
     captureHandle := captureHandle c; errMap := errMap c |}.

(** [reset]: close the capture handle, forget the source part of the
    last rotation's statistics and the error map. *)
Definition reset (c : Capture) : Capture :=
  {| iface := iface c; closed := closed c; state := state c; config := config c;
     cmdChan_closed := cmdChan_closed c;
     lastRotationStats :=
       {| stats_CaptureStats := Some {| PacketsReceived := 0; PacketsDropped := 0 |};
          PacketsLogged := PacketsLogged (lastRotationStats c) |};
     packetsLogged := packetsLogged c; flowLog := flowLog c;
     captureHandle := None; errMap := ∅ |}.

Definition needReinitialization (c : Capture) (cfg : CaptureConfig) : bool :=
  negb (bool_decide (config c = cfg)).

Definition tryGetCaptureStats (c : Capture) : CaptureStats :=
  match captureHandle c with
  | Some h => {| PacketsReceived := PacketsReceived (source_Stats h);
                 PacketsDropped := PacketsDropped (source_Stats h) |}
  | None => {| PacketsReceived := 0; PacketsDropped := 0 |}
  end.

(** [execute]: the capture afterwards, the value sent on the return
    channel, and the next state function, if any. *)
Definition execute (cmd : captureCommand) (c : Capture)
  : Capture * reply_type cmd * option stateFn :=
  match cmd return Capture * reply_type cmd * option stateFn with
  | captureCommandStatus =>
      (c,
       {| status_State := state c;
          status_Stats :=
            {| stats_CaptureStats := Some (tryGetCaptureStats c);
               PacketsLogged :=
                 Int64.sub (packetsLogged c) (PacketsLogged (lastRotationStats c)) |} |},
       None)
  | captureCommandErrors => (c, errMap c, None)
  | captureCommandFlows => (c, flowLog c, None)
  | captureCommandUpdate cfg =>
      if needReinitialization c cfg then
        let c1 := reset c in
        ({| iface := iface c1; closed := closed c1; state := state c1;
            config := cfg; cmdChan_closed := cmdChan_closed c1;
            lastRotationStats := lastRotationStats c1;
            packetsLogged := packetsLogged c1; flowLog := flowLog c1;
            captureHandle := captureHandle c1; errMap := errMap c1 |},
         tt, Some fn_initializing)
      else (c, tt, None)
  | captureCommandRotate =>
      let '(a, fl) := FlowLog_Rotate (flowLog c) in
      let st := tryGetCaptureStats c in
      let delta :=
        match stats_CaptureStats (lastRotationStats c) with
        | Some last => sub st last
        | None => st
        end in
      ({| iface := iface c; closed := closed c; state := state c;
          config := config c; cmdChan_closed := cmdChan_closed c;
          lastRotationStats :=
            {| stats_CaptureStats := Some st; PacketsLogged := packetsLogged c |};
          packetsLogged := packetsLogged c; flowLog := fl;
          captureHandle := captureHandle c; errMap := errMap c |},
       {| agg := Some a;
          stats := {| stats_CaptureStats := Some delta;
                      PacketsLogged :=
                        Int64.sub (packetsLogged c)
                                  (PacketsLogged (lastRotationStats c)) |} |},
       None)
  end.

(** ** The state functions

    What a blocking [select] receives is an input of the state
    function. *)
Inductive selected : Type :=
| CtxDone                               (* <-c.ctx.Done() *)
| Command (cmd : captureCommand)        (* cmd := <-c.cmdChan *)
| CaptureError (err : captureError).    (* err := <-c.captureErrors *)

(** [initializing]; [src] is what [afpacket.NewRingBufSource] returns,
    [None] for an error. *)
Definition initializing (c : Capture) (src : option Source)
  : Capture * option stateFn :=
  let c1 := setState c StateInitializing in
  let c2 := {| iface := iface c1; closed := closed c1; state := state c1;
               config := config c1; cmdChan_closed := cmdChan_closed c1;
               lastRotationStats := lastRotationStats c1;
               packetsLogged := packetsLogged c1; flowLog := flowLog c1;
               captureHandle := src; errMap := errMap c1 |} in
  match src with
  | None => (c2, Some fn_inError)
  | Some _ => (c2, Some fn_capturing)
  end.

(** [capturing]: sets the state, starts [process] as a goroutine and
    blocks in one [select]; [ev] is what the select receives. A
    command that yields no next state leaves the select, and the
    function returns nil. *)
Definition capturing (c : Capture) (ev : selected) : Capture * option stateFn :=
  let c1 := setState c StateCapturing in
  match ev with
  | CtxDone => (c1, Some fn_closing)
  | Command cmd =>
      let '(c2, _, nextState) := execute cmd c1 in
      match nextState with
      | Some s => (c2, Some s)
      | None => (c2, None)
      end
  | CaptureError err => (c1, Some fn_inError)
  end.

(** The [for { select { ... } }] of [inError]: [ctx.Done] and
    [cmdChan] only. [inl] is the function's return, [inr] the loop
    blocked with no input it can receive. *)
Fixpoint inError_loop (c : Capture) (evs : list selected)
  : (Capture * option stateFn * list selected) + (Capture * list selected) :=
  match evs with
  | [] => inr (c, [])
  | CtxDone :: rest => inl (c, Some fn_closing, rest)
  | Command cmd :: rest =>
      let '(c1, _, nextState) := execute cmd c in
      match nextState with
      | Some s => inl (c1, Some s, rest)
      | None => inError_loop c1 rest
      end
  | CaptureError _ :: _ => inr (c, evs)
  end.

Definition inError (c : Capture) (evs : list selected)
  : (Capture * option stateFn * list selected) + (Capture * list selected) :=
  inError_loop (setState c StateError) evs.

(** [closing]: close the capture and reset fields, close the command
    channel, mark the capture closed; exits the state machine. *)
Definition closing (c : Capture) : Capture * option stateFn :=
  let c1 := reset (setState c StateClosing) in
  ({| iface := iface c1; closed := true; state := state c1;
      config := config c1; cmdChan_closed := true;
      lastRotationStats := lastRotationStats c1;
      packetsLogged := packetsLogged c1; flowLog := flowLog c1;
      captureHandle := captureHandle c1; errMap := errMap c1 |},
   None).

(** ** Run

    The environment of a run: the results of the successive calls of
    [NewRingBufSource], and what the selects receive, in order. *)
Record Env : Type := {
  sources : list (option Source);
  events : list selected
}.

(** How a run stands: [Exited] when the loop of [Run] has seen a nil
    state function, [Blocked] when a state function waits for an
    input the environment does not hold. *)
Inductive run : Type :=
| Exited (c : Capture) (env : Env)
| Blocked (s : stateFn) (c : Capture) (env : Env)
| OutOfFuel.

(** [for state := initializing; state != nil; { state = state(c) }] *)
Fixpoint Run_loop (fuel : nat) (s : option stateFn) (c : Capture) (env : Env)
  : run :=
  match s with
  | None => Exited c env
  | Some fn =>
      match fuel with
      | O => OutOfFuel
      | S fuel' =>
          match fn with
          | fn_initializing =>
              match sources env with
              | [] => Blocked fn c env
              | src :: rest =>
                  let '(c', next) := initializing c src in
                  Run_loop fuel' next c' {| sources := rest; events := events env |}
              end
          | fn_capturing =>
              match events env with
              | [] => Blocked fn (setState c StateCapturing) env
              | ev :: rest =>
                  let '(c', next) := capturing c ev in
                  Run_loop fuel' next c' {| sources := sources env; events := rest |}
              end
          | fn_inError =>
              match inError c (events env) with
              | inl (c', next, rest) =>
                  Run_loop fuel' next c' {| sources := sources env; events := rest |}
              | inr (c', rest) =>
                  Blocked fn c' {| sources := sources env; events := rest |}
              end
          | fn_closing =>
              let '(c', next) := closing c in
              Run_loop fuel' next c' env
          end
      end
  end.

Definition Run (c : Capture) (env : Env) : run :=
  if closed c then Exited c env
  else Run_loop (length (sources env) + length (events env) + 2)
                (Some fn_initializing) c env.

(** ** process

    One round of the capture loop sees one of these. *)
Inductive packet : Type :=
| NextPacketFails (stopped : bool)   (* NextPacket returns an error *)
| Decoded (pkt : GPPacket)           (* gppacket.Populate returns nil *)
| NotDecoded (msg : string).         (* gppacket.Populate returns an error;
                                        [msg] is [err.Error()] *)

(** The variables of [process]: the capture (flow log, error map and
    packet count are written here), [errcount], and the warnings
    logged. *)
Record processing : Type := {
  capture : Capture;
  errcount : Z;
  warned : list string
}.

(** The closure [capturePacket]. *)
Definition capturePacket (st : processing) (p : packet)
  : processing * option captureError :=
  let c := capture st in
  match p with
  | NextPacketFails stopped => (st, Some (ErrNextPacket stopped))
  | Decoded pkt =>
      ({| capture :=
            {| iface := iface c; closed := closed c; state := state c;
               config := config c; cmdChan_closed := cmdChan_closed c;
               lastRotationStats := lastRotationStats c;
               packetsLogged := Int64.add (packetsLogged c) 1;
               flowLog := FlowLog_Add (flowLog c) pkt;
               captureHandle := captureHandle c; errMap := errMap c |};
          errcount := 0;
          warned := warned st |}, None)
  | NotDecoded msg =>
      let n := Int64.add (errcount st) 1 in
      let w := match errMap c !! msg with
               | Some _ => warned st
               | None => warned st ++ [msg]
               end in
      let m := <[msg := Int64.add (default 0 (errMap c !! msg)) 1]> (errMap c) in
      let st' :=
        {| capture :=
             {| iface := iface c; closed := closed c; state := state c;
                config := config c; cmdChan_closed := cmdChan_closed c;
                lastRotationStats := lastRotationStats c;
                packetsLogged := packetsLogged c; flowLog := flowLog c;
                captureHandle := captureHandle c; errMap := m |};
           errcount := n;
           warned := w |} in
      if ErrorThreshold <? n then (st', Some (ErrNotDecoded m))
      else (st', None)
  end.

(** How [process] stands after the packets it was given. *)
Inductive processed : Type :=
| Returned                        (* capture stopped gracefully *)
| SendsError (err : captureError) (* c.captureErrors <- err, then return *)
| AwaitsPacket.                   (* in NextPacket *)

(** The main packet capture loop. *)
Fixpoint process_loop (st : processing) (ps : list packet)
  : processing * processed :=
  match ps with
  | [] => (st, AwaitsPacket)
  | p :: rest =>
      match capturePacket st p with
      | (st', Some (ErrNextPacket true)) => (st', Returned)
      | (st', Some err) => (st', SendsError err)
      | (st', None) => process_loop st' rest
      end
  end.

Definition process (c : Capture) (ps : list packet) : processing * processed :=
  process_loop {| capture := c; errcount := 0; warned := [] |} ps.

(** ** The public methods

    A method either returns or sends a command on [cmdChan] and goes
    on with the reply. *)
Inductive call (A : Type) : Type :=
| Return (a : A)
| Send (cmd : captureCommand) (k : reply_type cmd -> call A).
Arguments Return {A} a.
Arguments Send {A} cmd k.

Definition Status (c : Capture) : call CaptureStatus :=
  if closed c then Return zero_Status
  else Send captureCommandStatus (fun r => Return r).

(** The zero value of [ErrorMap] is the nil map: [None]. *)
Definition Errors (c : Capture) : call (option (gmap string Z)) :=
  if closed c then Return None
  else Send captureCommandErrors (fun r => Return (Some r)).

Definition Flows (c : Capture) : call (option FlowLog) :=
  if closed c then Return None
  else Send captureCommandFlows (fun r => Return (Some r)).

Definition Update (c : Capture) (cfg : CaptureConfig) : call unit :=
  if closed c then Return tt
  else Send (captureCommandUpdate cfg) (fun _ => Return tt).

Definition Rotate (c : Capture) : call (option AggFlowMap * Stats) :=
  Send captureCommandRotate (fun r : rotateResult => Return (agg r, stats r)).

(** What the first step of a call does to the command channel: a send
    on a closed channel panics, a send on an open one waits for the
    state machine to receive. *)
Inductive performed (A : Type) : Type :=
| Done (a : A)
| PanicSendOnClosedChannel
| Sending (cmd : captureCommand) (k : reply_type cmd -> call A).
Arguments Done {A} a.
Arguments PanicSendOnClosedChannel {A}.
Arguments Sending {A} cmd k.

Definition perform {A : Type} (c : Capture) (p : call A) : performed A :=
  match p with
  | Return a => Done a
  | Send cmd k =>
      if cmdChan_closed c then PanicSendOnClosedChannel else Sending cmd k
  end.

(** The number of commands a call has sent when it returns at once. *)
Definition sends_nothing {A : Type} (p : call A) : bool :=
  match p with
  | Return _ => true
  | Send _ _ => false
  end.

End WithPackage.

Arguments Capture : clear implicits.
Arguments rotateResult : clear implicits.
Arguments Return {FlowLog AggFlowMap A} a.
Arguments Send {FlowLog AggFlowMap A} cmd k.
Arguments Done {FlowLog AggFlowMap A} a.
Arguments PanicSendOnClosedChannel {FlowLog AggFlowMap A}.
Arguments Sending {FlowLog AggFlowMap A} cmd k.

(** A flow log that keeps the packets added since the last rotation,
    to run the state machine on concrete inputs. *)
#[global] Instance list_package : Package (list nat) nat (list nat) :=
  {| NewFlowLog := [];
     FlowLog_Add := fun fl p => fl ++ [p];
     FlowLog_Len := fun fl => Z.of_nat (length fl);
     FlowLog_Rotate := fun fl => (fl, []);
     sub := fun a b =>
       {| PacketsReceived := PacketsReceived a - PacketsReceived b;
          PacketsDropped := PacketsDropped a - PacketsDropped b |} |}.

End Capture.

(* ===================================================================== *)
(** * Slices of strings: sorting and filling                              *)
(* ===================================================================== *)

Module GoSlices.

(** [a <= b] on Go strings: [!(b < a)], bytewise. *)
Definition string_le (a b : string) : Prop := String.leb a b = true.

#[global] Instance string_le_dec : RelDecision string_le.
Proof. intros a b. unfold string_le. apply _. Defined.

(** [sort.Strings(x)] and [sort.Slice(x, func(i, j) { return x[i] < x[j] })]
    leave the elements of [x] in increasing order. Strings that
    compare equal are equal, so the result does not depend on the
    algorithm; merge sort stands for it. *)
Definition sort_strings (x : list string) : list string := merge_sort string_le x.

(** [r[i] = x; i++] for the elements [x] of [xs] in turn, on a slice
    [r] made long enough. *)
Fixpoint fill {A : Type} (r : list A) (i : nat) (xs : list A) : list A :=
  match xs with
  | [] => r
  | x :: rest => fill (<[i := x]> r) (S i) rest
  end.

End GoSlices.

(* ===================================================================== *)
(** * The error map of a capture: capture.go                              *)
(* ===================================================================== *)

Module ErrorMap.
Import GoSlices.

(** [fmt.Sprintf("%s (%d)", err, count)] *)
Definition entry_string (err : string) (count : Z) : string :=
  err +:+ " (" +:+ pretty count +:+ ")".

(** [ErrorMap.String] prints the errors that occurred during
    capturing. [order] is the sequence of entries that [range e]
    yields: every entry of the map once, in an order Go does not fix. *)
Definition String (e : gmap string Z) (order : list (string * Z)) : string :=
  let errs := replicate (size e) "" in
  let errs := fill errs 0 (map (fun '(err, count) => entry_string err count) order) in
  String.concat "; " (sort_strings errs).

End ErrorMap.

(* ===================================================================== *)
(** * Query results: pkg/results/result.go                                *)
(* ===================================================================== *)

Module Results.
Import GoSlices.

(** [ErrorNoResults] *)
Definition ErrorNoResults : string := "query returned no results".

(** What result.go takes from other packages: [time.Time] with its
    comparison by [==], [Before] and [Sub]; [netip.Addr] with [==] and
    [Less]; [types.Counters] with [Add]; the codes of [types.Status].
    The zero values are those of the Go types; the map keys are
    compared by [==]. *)
Class Library (Time Addr Counters StatusCode : Type) : Type := {
  Time_eq_dec :: EqDecision Time;
  Time_countable :: Countable Time;
  Time_zero : Time;
  Time_Before : Time -> Time -> bool;
  Time_Sub : Time -> Time -> Z;
  Addr_eq_dec :: EqDecision Addr;
  Addr_countable :: Countable Addr;
  Addr_zero : Addr;
  Addr_Less : Addr -> Addr -> bool;
  Counters_zero : Counters;
  Counters_Add : Counters -> Counters -> Counters;
  StatusCode_zero : StatusCode;
  StatusOK : StatusCode;
  StatusEmpty : StatusCode
}.

Section WithLibrary.
Context {Time Addr Counters StatusCode : Type}.
Context `{!Library Time Addr Counters StatusCode}.

(** [Labels] hold labels by which the goDB database is partitioned. *)
Record Labels : Type := {
  Timestamp : Time;
  Iface : string;
  Hostname : string;
  HostID : string
}.

(** [Attributes] are traffic attributes by which the goDB can be
    aggregated. *)
Record Attributes : Type := {
  SrcIP : Addr;
  DstIP : Addr;
  IPProto : Z;     (* uint8 *)
  DstPort : Z      (* uint16 *)
}.

#[global] Instance Labels_eq_dec : EqDecision Labels.
Proof. solve_decision. Defined.

#[global] Instance Attributes_eq_dec : EqDecision Attributes.
Proof. solve_decision. Defined.

(** [Row] is a human-readable, aggregatable representation of goDB's
    data. *)
Record Row : Type := {
  Row_Labels : Labels;
  Row_Attributes : Attributes;
  Row_Counters : Counters
}.

(** [Labels.Less] returns whether the set of labels l sorts before l2. *)
Definition Labels_Less (l l2 : Labels) : bool :=
  if negb (bool_decide (Timestamp l = Timestamp l2)) then
    Time_Before (Timestamp l) (Timestamp l2)
  else if negb (bool_decide (Hostname l = Hostname l2)) then
    String.ltb (Hostname l) (Hostname l2)
  else String.ltb (Iface l) (Iface l2).

(** [Attributes.Less] returns whether the set of attributes a sorts
    before a2. *)
Definition Attributes_Less (a a2 : Attributes) : bool :=
  if negb (bool_decide (SrcIP a = SrcIP a2)) then Addr_Less (SrcIP a) (SrcIP a2)
  else if negb (bool_decide (DstIP a = DstIP a2)) then
    Addr_Less (DstIP a) (DstIP a2)
  else if negb (IPProto a =? IPProto a2) then IPProto a <? IPProto a2
  else DstPort a <? DstPort a2.

(** [Row.Less] returns whether the row r sorts before r2. *)
Definition Row_Less (r r2 : Row) : bool :=
  if bool_decide (Row_Attributes r = Row_Attributes r2) then
    Labels_Less (Row_Labels r) (Row_Labels r2)
  else Attributes_Less (Row_Attributes r) (Row_Attributes r2).

(** [MergeableAttributes] bundles all fields of a Result by which
    aggregation/merging is possible. *)
Record MergeableAttributes : Type := {
  MA_Labels : Labels;
  MA_Attributes : Attributes
}.

#[global] Instance MergeableAttributes_eq_dec : EqDecision MergeableAttributes.
Proof. solve_decision. Defined.

#[global] Instance Labels_countable : Countable Labels.
Proof.
  apply (inj_countable'
           (fun l => (Timestamp l, Iface l, Hostname l, HostID l))
           (fun t => {| Timestamp := t.1.1.1; Iface := t.1.1.2;
                        Hostname := t.1.2; HostID := t.2 |})).
  intros []. reflexivity.
Defined.

#[global] Instance Attributes_countable : Countable Attributes.
Proof.
  apply (inj_countable'
           (fun a => (SrcIP a, DstIP a, IPProto a, DstPort a))
           (fun t => {| SrcIP := t.1.1.1; DstIP := t.1.1.2;
                        IPProto := t.1.2; DstPort := t.2 |})).
  intros []. reflexivity.
Defined.

#[global] Instance MergeableAttributes_countable : Countable MergeableAttributes.
Proof.
  apply (inj_countable'
           (fun m => (MA_Labels m, MA_Attributes m))
           (fun t => {| MA_Labels := t.1; MA_Attributes := t.2 |})).
  intros []. reflexivity.
Defined.

(** [RowsMap] is an aggregated representation of a Rows list:
    [map[MergeableAttributes]types.Counters], here
    [gmap MergeableAttributes Counters]. *)

Definition key_of (res : Row) : MergeableAttributes :=
  {| MA_Labels := Row_Labels res; MA_Attributes := Row_Attributes res |}.

(** The body of the loop of [MergeRows], on the map and the count of
    merged rows. *)
Definition MergeRows_step (acc : gmap MergeableAttributes Counters * Z)
    (res : Row) : gmap MergeableAttributes Counters * Z :=
  let '(rm, merged) := acc in
  match rm !! key_of res with
  | Some counters =>
      (<[key_of res := Counters_Add counters (Row_Counters res)]> rm,
       Int64.add merged 1)
  | None => (<[key_of res := Row_Counters res]> rm, merged)
  end.

(** [MergeRows] aggregates Rows by use of the RowsMap rm, which is
    modified in the process. *)
Definition MergeRows (rm : gmap MergeableAttributes Counters) (r : list Row)
  : gmap MergeableAttributes Counters * Z :=
  foldl MergeRows_step (rm, 0) r.

Definition MergeRowsMap_step (acc : gmap MergeableAttributes Counters * Z)
    (entry : MergeableAttributes * Counters) : gmap MergeableAttributes Counters * Z :=
  let '(rm, merged) := acc in
  let '(oma, oc) := entry in
  match rm !! oma with
  | Some counters => (<[oma := Counters_Add counters oc]> rm, Int64.add merged 1)
  | None => (<[oma := oc]> rm, merged)
  end.

(** [MergeRowsMap] aggregates all results of om and stores them in rm;
    [om_range] is the sequence of entries that [range om] yields. *)
Definition MergeRowsMap (rm : gmap MergeableAttributes Counters)
    (om_range : list (MergeableAttributes * Counters))
  : gmap MergeableAttributes Counters * Z :=
  foldl MergeRowsMap_step (rm, 0) om_range.

Definition zero_Row : Row :=
  {| Row_Labels := {| Timestamp := Time_zero; Iface := ""; Hostname := "";
                      HostID := "" |};
     Row_Attributes := {| SrcIP := Addr_zero; DstIP := Addr_zero;
                          IPProto := 0; DstPort := 0 |};
     Row_Counters := Counters_zero |}.

Definition row_of (entry : MergeableAttributes * Counters) : Row :=
  {| Row_Labels := MA_Labels entry.1;
     Row_Attributes := MA_Attributes entry.1;
     Row_Counters := entry.2 |}.

(** [ToRows] produces a flat list of Rows from rm; [rm_range] is the
    sequence of entries that [range rm] yields. *)
Definition ToRows (rm : gmap MergeableAttributes Counters)
    (rm_range : list (MergeableAttributes * Counters))
  : list Row :=
  let r := replicate (size rm) zero_Row in
  if Nat.eqb (size rm) 0 then r
  else fill r 0 (map row_of rm_range).

(** ** Result *)

Record Status : Type := {
  Code : StatusCode;
  Message : string
}.

(** [Timings] summarizes query runtimes. *)
Record Timings : Type := {
  QueryStart : Time;
  QueryDuration : Z;
  ResolutionDuration : Z
}.

(** [Hits] stores how many flow records were returned in total and how
    many are returned in Rows. *)
Record Hits : Type := {
  Displayed : Z;
  Total : Z
}.

(** [Summary] stores the total traffic volume and packets observed
    over the queried range and the interfaces that were queried. *)
Record Summary : Type := {
  Interfaces : list string;
  TimeFirst : Time;
  TimeLast : Time;
  Totals : Counters;
  Summary_Timings : Timings;
  Summary_Hits : Hits
}.

(** [Query] stores the kind of query that was run. *)
Record Query : Type := {
  Query_Attributes : list string;
  Condition : string
}.

(** [Result] bundles the data rows returned and the query meta
    information; [HostsStatuses] is [None] for the nil map. *)
Record Result : Type := {
  Result_Status : Status;
  HostsStatuses : option (gmap string Status);
  Result_Summary : Summary;
  Result_Query : Query;
  Rows : list Row
}.

Definition zero_Timings : Timings :=
  {| QueryStart := Time_zero; QueryDuration := 0; ResolutionDuration := 0 |}.

Definition zero_Summary : Summary :=
  {| Interfaces := []; TimeFirst := Time_zero; TimeLast := Time_zero;
     Totals := Counters_zero; Summary_Timings := zero_Timings;
     Summary_Hits := {| Displayed := 0; Total := 0 |} |}.

(** [New] *)
Definition New : Result :=
  {| Result_Status := {| Code := StatusOK; Message := "" |};
     HostsStatuses := None;
     Result_Summary := zero_Summary;
     Result_Query := {| Query_Attributes := []; Condition := "" |};
     Rows := [] |}.

(** [Start]; [now] is [time.Now()]. *)
Definition Start (r : Result) (now : Time) : Result :=
  {| Result_Status := Result_Status r;
     HostsStatuses := Some ∅;
     Result_Summary :=
       {| Interfaces := []; TimeFirst := Time_zero; TimeLast := Time_zero;
          Totals := Counters_zero;
          Summary_Timings :=
            {| QueryStart := now; QueryDuration := 0; ResolutionDuration := 0 |};
          Summary_Hits := {| Displayed := 0; Total := 0 |} |};
     Result_Query := Result_Query r;
     Rows := Rows r |}.

(** [End]; [now] is the [time.Now()] of [time.Since]. *)
Definition End (r : Result) (now : Time) : Result :=
  let s := Result_Summary r in
  let t := Summary_Timings s in
  {| Result_Status :=
       if Nat.eqb (length (Rows r)) 0
       then {| Code := StatusEmpty; Message := ErrorNoResults |}
       else Result_Status r;
     HostsStatuses := HostsStatuses r;
     Result_Summary :=
       {| Interfaces := sort_strings (Interfaces s);
          TimeFirst := TimeFirst s; TimeLast := TimeLast s; Totals := Totals s;
          Summary_Timings :=
            {| QueryStart := QueryStart t;
               QueryDuration := Time_Sub now (QueryStart t);
               ResolutionDuration := ResolutionDuration t |};
          Summary_Hits := Summary_Hits s |};
     Result_Query := Result_Query r;
     Rows := Rows r |}.

End WithLibrary.

Arguments Labels : clear implicits.
Arguments Attributes : clear implicits.
Arguments Row : clear implicits.
Arguments MergeableAttributes : clear implicits.
Arguments Status : clear implicits.
Arguments Timings : clear implicits.
Arguments Summary : clear implicits.
Arguments Result : clear implicits.

End Results.

(* ===================================================================== *)
(** * Facts about bytes and 64-bit integers                               *)
(* ===================================================================== *)

Module Int64Facts.
Import Int64.

Lemma of_byte_range (b : byte) : 0 <= of_byte b < 256.
Proof. unfold of_byte. pose proof (Byte.to_N_bounded b). lia. Qed.

Lemma of_to_byte (z : Z) : of_byte (to_byte z) = z mod 256.
Proof.
  unfold of_byte, to_byte.
  pose proof (Z.mod_pos_bound z 256 ltac:(lia)) as Hm.
  destruct (Byte.of_N (Z.to_N (z mod 256))) as [b|] eqn:E.
  - apply Byte.to_of_N in E. rewrite E. lia.
  - apply Byte.of_N_None_iff in E. lia.
Qed.

Lemma to_of_byte (b : byte) : to_byte (of_byte b) = b.
Proof.
  unfold to_byte. rewrite Z.mod_small by apply of_byte_range.
  unfold of_byte. rewrite N2Z.id, Byte.of_to_N. reflexivity.
Qed.

Lemma to_byte_mod (z : Z) : to_byte (z mod 256) = to_byte z.
Proof. unfold to_byte. rewrite Z.mod_mod by lia. reflexivity. Qed.

Lemma wrap_small (z : Z) : in_range z -> wrap z = z.
Proof.
  unfold in_range, wrap. intros H.
  rewrite Z.mod_small; lia.
Qed.

Lemma wrap_in_range (z : Z) : in_range (wrap z).
Proof.
  unfold in_range, wrap.
  pose proof (Z.mod_pos_bound (z + 2 ^ 63) (2 ^ 64) ltac:(lia)). lia.
Qed.

Lemma wrap_shift (z k : Z) : wrap (z + k * 2 ^ 64) = wrap z.
Proof.
  unfold wrap. rewrite <- Z.add_assoc, (Z.add_comm (k * _)), Z.add_assoc.
  rewrite Z.mod_add by lia. reflexivity.
Qed.

Lemma wrap_eq (z : Z) : exists s, wrap z = z + s * 2 ^ 64.
Proof.
  exists (- ((z + 2 ^ 63) / 2 ^ 64)). unfold wrap.
  pose proof (Z.div_mod (z + 2 ^ 63) (2 ^ 64) ltac:(lia)). lia.
Qed.

End Int64Facts.

(* ===================================================================== *)
(** * The packet classifier: properties                                   *)
(* ===================================================================== *)

Module ClassifierSpec.
Import Int64 Int64Facts Classifier.

(** [uint16ToPort] writes a 16-bit port big-endian: reading the two
    bytes back gives the port. *)
Lemma portOf_uint16ToPort (p : Z) : 0 <= p < 65536 -> portOf (uint16ToPort p) = p.
Proof.
  intros Hp. unfold portOf, uint16ToPort. simpl.
  rewrite !of_to_byte, Z.shiftr_div_pow2 by lia.
  change (2 ^ 8) with 256.
  rewrite (Z.mod_small (p / 256)) by (split; [apply Z.div_pos; lia | apply Z.div_lt_upper_bound; lia]).
  pose proof (Z.div_mod p 256 ltac:(lia)). lia.
Qed.

(** The test of the source passes on the model. *)
Lemma TestPortMergeLogic_passes : TestPortMergeLogic = true.
Proof. vm_compute. reflexivity. Qed.

Lemma TestClassification_passes : TestClassification = true.
Proof. vm_compute. reflexivity. Qed.

(** C6. For every 16-bit port [p] and every protocol, the common-port
    predicate holds exactly when the protocol is TCP and the port is
    53, 80 or 443, or the protocol is UDP and the port is 53 or 443. *)
Theorem isCommonPort_iff (p proto : Z) :
  0 <= p < 65536 ->
  isCommonPort (uint16ToPort p) proto = true <->
  (proto = TCP /\ (p = 53 \/ p = 80 \/ p = 443)) \/
  (proto = UDP /\ (p = 53 \/ p = 443)).
Proof.
  intros Hp. unfold isCommonPort. rewrite portOf_uint16ToPort by exact Hp.
  unfold TCP, UDP.
  rewrite orb_true_iff, !andb_true_iff, !orb_true_iff, !Z.eqb_eq.
  tauto.
Qed.

Lemma isCommonPort_iff_witness :
  0 <= 443 < 65536 /\
  (isCommonPort (uint16ToPort 443) TCP = true <->
   (TCP = TCP /\ (443 = 53 \/ 443 = 80 \/ 443 = 443)) \/
   (TCP = UDP /\ (443 = 53 \/ 443 = 443))).
Proof. split; [lia | apply (isCommonPort_iff 443 TCP); lia]. Defined.

Lemma rule_icmp_tcp_udp (pkt : GPPacket) :
  proto pkt = TCP \/ proto pkt = UDP -> rule_icmp pkt = None.
Proof. unfold rule_icmp. intros [-> | ->]; reflexivity. Qed.

(** C7. For a TCP or UDP packet to which none of the confident rules
    (ICMP, common port, DHCP, zeroed port, privileged port) applies, the
    classifier answers DirectionRemains if sport > dport,
    DirectionReverts if sport < dport and DirectionRemains if the ports
    are equal, and directionConfidenceHigh is false in all three
    cases. *)
Theorem port_order_fallback (pkt : GPPacket) :
  proto pkt = TCP \/ proto pkt = UDP ->
  rule_common_port pkt = None ->
  rule_dhcp pkt = None ->
  rule_zero_port pkt = None ->
  rule_privileged pkt = None ->
  (dport pkt < sport pkt ->
     classify pkt = {| direction := DirectionRemains; directionConfidenceHigh := false |})
  /\ (sport pkt < dport pkt ->
     classify pkt = {| direction := DirectionReverts; directionConfidenceHigh := false |})
  /\ (sport pkt = dport pkt ->
     classify pkt = {| direction := DirectionRemains; directionConfidenceHigh := false |}).
Proof.
  intros Hproto Hc Hd Hz Hp.
  unfold classify, confident_rules.
  rewrite (rule_icmp_tcp_udp pkt Hproto), Hc, Hd, Hz, Hp.
  unfold guess, rule_port_order.
  repeat split; intros H.
  - apply Z.ltb_lt in H. rewrite H. reflexivity.
  - assert ((dport pkt <? sport pkt) = false) as -> by (apply Z.ltb_ge; lia).
    apply Z.ltb_lt in H. rewrite H. reflexivity.
  - rewrite H, Z.ltb_irrefl. reflexivity.
Qed.

Definition udp_high_ports : GPPacket :=
  {| sport := 33561; dport := 33560; proto := UDP; auxInfo := 0 |}.

Lemma port_order_fallback_witness :
  (dport udp_high_ports < sport udp_high_ports ->
     classify udp_high_ports
     = {| direction := DirectionRemains; directionConfidenceHigh := false |})
  /\ (sport udp_high_ports < dport udp_high_ports ->
     classify udp_high_ports
     = {| direction := DirectionReverts; directionConfidenceHigh := false |})
  /\ (sport udp_high_ports = dport udp_high_ports ->
     classify udp_high_ports
     = {| direction := DirectionRemains; directionConfidenceHigh := false |}).
Proof.
  apply (port_order_fallback udp_high_ports).
  - right. reflexivity.
  - vm_compute. reflexivity.
  - vm_compute. reflexivity.
  - vm_compute. reflexivity.
  - vm_compute. reflexivity.
Defined.

End ClassifierSpec.

(* ===================================================================== *)
(** * The status endpoint: properties                                     *)
(* ===================================================================== *)

Module StatusAPISpec.
Import StatusAPI.

(** C8. For every GET of the status endpoint, with or without an
    interface in the path: the statuses in the response are the map the
    capture manager returns (for that interface, or for all), the
    response carries the time of the last rotation, and the HTTP status
    code, which is also the code in the body, is 200 when the map the
    capture manager returns is non-empty and 204 when it is empty. *)
Theorem getStatus_code {CaptureStatus Time : Type}
    (server : Server CaptureStatus Time) (iface : string) :
  let returned :=
    captureManager_Status server (if String.eqb iface "" then [] else [iface]) in
  let '(code, resp) := getStatus server iface in
  Statuses resp = returned
  /\ LastWriteout resp = LastRotation server
  /\ StatusCode resp = code
  /\ ((returned ≠ ∅ /\ code = 200) \/ (returned = ∅ /\ code = 204)).
Proof.
  unfold getStatus. cbv zeta.
  assert ((if negb (String.eqb iface "") then captureManager_Status server [iface]
           else captureManager_Status server [])
          = captureManager_Status server (if String.eqb iface "" then [] else [iface]))
    as -> by (destruct (String.eqb iface ""); reflexivity).
  set (returned := captureManager_Status server _).
  cbn [Statuses LastWriteout StatusCode].
  split; [reflexivity|]. split; [reflexivity|]. split; [reflexivity|].
  destruct (Nat.eqb (size returned) 0) eqn:E.
  - right. apply Nat.eqb_eq in E. apply map_size_empty_iff in E. auto.
  - left. apply Nat.eqb_neq in E. split; [|reflexivity].
    intros Hempty. apply E. rewrite Hempty. apply map_size_empty.
Qed.

End StatusAPISpec.

(* ===================================================================== *)
(** * The capture state machine: properties                               *)
(* ===================================================================== *)

Module CaptureSpec.
Import Capture.

Section WithPackage.
Context {FlowLog GPPacket AggFlowMap : Type}.
Context `{!Package FlowLog GPPacket AggFlowMap}.
Implicit Types (c : Capture FlowLog) (st : @processing FlowLog).

(** ** The consecutive-failure counter of [process] *)

(** A successful decode resets the counter. *)
Lemma capturePacket_Decoded st (pkt : GPPacket) :
  errcount (fst (capturePacket st (Decoded pkt))) = 0
  /\ snd (capturePacket st (Decoded pkt)) = None.
Proof. split; reflexivity. Qed.

(** A failed decode counts one up, and is fatal exactly when the
    counter passes the threshold. *)
Lemma capturePacket_NotDecoded st (msg : string) :
  0 <= errcount st <= ErrorThreshold ->
  errcount (fst (capturePacket st (NotDecoded msg))) = errcount st + 1
  /\ (errcount st < ErrorThreshold ->
      snd (capturePacket st (NotDecoded msg)) = None)
  /\ (errcount st = ErrorThreshold ->
      exists m, snd (capturePacket st (NotDecoded msg)) = Some (ErrNotDecoded m)).
Proof.
  intros Hn. unfold capturePacket. unfold ErrorThreshold in *.
  assert (Int64.add (errcount st) 1 = errcount st + 1) as Hadd.
  { apply Int64Facts.wrap_small. unfold Int64.in_range. lia. }
  rewrite Hadd.
  destruct (10000 <? errcount st + 1) eqn:E; simpl.
  - apply Z.ltb_lt in E. split; [reflexivity|]. split; [lia | eauto].
  - apply Z.ltb_ge in E. split; [reflexivity|]. split; [reflexivity | lia].
Qed.

(** The longest the counter gets while the packets [ps] are
    processed, starting from [n]. *)
Fixpoint peak (n : Z) (ps : list (@packet GPPacket)) : Z :=
  match ps with
  | [] => n
  | NextPacketFails _ :: _ => n
  | Decoded _ :: rest => Z.max n (peak 0 rest)
  | NotDecoded _ :: rest => peak (n + 1) rest
  end.

Definition fatal_decode (r : processed) : Prop :=
  exists m, r = SendsError (ErrNotDecoded m).

Lemma peak_ge n ps : n <= peak n ps.
Proof.
  revert n. induction ps as [|p ps IH]; intros n; simpl; [lia|].
  destruct p; [lia | lia | specialize (IH (n + 1)); lia].
Qed.

(** [process] reports the decode failure if and only if more than
    [ErrorThreshold] packets in a row fail to decode. *)
Lemma process_loop_fatal_iff st ps :
  0 <= errcount st <= ErrorThreshold ->
  fatal_decode (snd (process_loop st ps)) <-> ErrorThreshold < peak (errcount st) ps.
Proof.
  revert st. induction ps as [|p ps IH]; intros st Hn; simpl.
  - split; [intros [m Hm]; discriminate | lia].
  - destruct p as [stopped | pkt | msg].
    + simpl. split; [|lia]. destruct stopped; intros [m Hm]; discriminate.
    + change (capturePacket st (Decoded pkt)) with
        (fst (capturePacket st (Decoded pkt)), @None captureError).
      cbv iota beta.
      rewrite IH by (simpl; unfold ErrorThreshold; lia).
      simpl. lia.
    + destruct (capturePacket_NotDecoded st msg Hn) as (Hc & Hlt & Heq).
      destruct (capturePacket st (NotDecoded msg)) as [st' o] eqn:E.
      simpl in Hc, Hlt, Heq.
      destruct (Z.eq_dec (errcount st) ErrorThreshold) as [Hth | Hth].
      * destruct (Heq Hth) as [m ->].
        pose proof (peak_ge (errcount st + 1) ps).
        split; [lia | intros _; exists m; reflexivity].
      * rewrite Hlt by lia. rewrite IH by lia. rewrite Hc. reflexivity.
Qed.

(** ** Receiving the error *)

(** No command changes the state field: only the state functions do. *)
Lemma execute_state (cmd : captureCommand) c :
  state (fst (fst (execute cmd c))) = state c.
Proof.
  destruct cmd as [| | |cfg|]; simpl; try reflexivity.
  - destruct (needReinitialization c cfg); reflexivity.
  - destruct (FlowLog_Rotate (flowLog c)); reflexivity.
Qed.

Lemma inError_loop_state c (evs : list selected) :
  match inError_loop c evs with
  | inl (c', _, _) | inr (c', _) => state c' = state c
  end.
Proof.
  revert c. induction evs as [|ev evs IH]; intros c; simpl; [reflexivity|].
  destruct ev as [|cmd|e]; simpl; [reflexivity| |reflexivity].
  pose proof (execute_state cmd c) as Hs.
  destruct (execute cmd c) as [[c2 r] next]. simpl in Hs.
  destruct next as [s|]; [exact Hs|].
  specialize (IH c2).
  destruct (inError_loop c2 evs) as [[[c3 n3] r3]|[c3 r3]]; congruence.
Qed.

(** In the select of [capturing], receiving from [captureErrors] leads
    to [inError], which sets [StateError] and keeps it while it
    serves commands. *)
Lemma capturing_CaptureError c (err : captureError) (evs : list selected) :
  snd (capturing c (CaptureError err)) = Some fn_inError
  /\ match inError (fst (capturing c (CaptureError err))) evs with
     | inl (c', _, _) | inr (c', _) => state c' = StateError
     end.
Proof.
  split; [reflexivity|].
  unfold inError.
  pose proof (inError_loop_state
                (setState (fst (capturing c (CaptureError err))) StateError) evs) as H.
  destruct (inError_loop _ evs) as [[[c3 n3] r3]|[c3 r3]]; exact H.
Qed.

(** ** The public methods on a closed capture *)

(** [closing] closes the command channel and sets the closed flag. *)
Lemma closing_closes c :
  closed (fst (closing c)) = true
  /\ cmdChan_closed (fst (closing c)) = true
  /\ state (fst (closing c)) = StateClosing
  /\ snd (closing c) = None.
Proof. repeat split. Qed.

(** C9. On a capture whose closed flag is set, Status, Errors, Flows
    and Update return at once with the zero value of their result and
    send nothing on cmdChan. Rotate has no such check: on every
    capture it begins by sending its command on cmdChan, and that
    channel has been closed by the closing state, so that the send
    panics. *)
Theorem closed_capture_methods c (cfg : CaptureConfig) :
  closed c = true ->
  (Status (AggFlowMap := AggFlowMap) c = Return zero_Status
   /\ Errors (AggFlowMap := AggFlowMap) c = Return None
   /\ Flows (AggFlowMap := AggFlowMap) c = Return None
   /\ Update (AggFlowMap := AggFlowMap) c cfg = Return tt)
  /\ (forall c' : Capture FlowLog,
        Rotate c' = Send captureCommandRotate
                      (fun r : rotateResult AggFlowMap =>
                         Return (agg r, stats r)))
  /\ (forall c0 : Capture FlowLog,
        closed (fst (closing c0)) = true
        /\ cmdChan_closed (fst (closing c0)) = true
        /\ perform (fst (closing c0))
                   (Rotate (AggFlowMap := AggFlowMap) (fst (closing c0)))
           = PanicSendOnClosedChannel).
Proof.
  intros Hclosed. split; [|split].
  - unfold Status, Errors, Flows, Update. rewrite Hclosed. repeat split.
  - intros c'. reflexivity.
  - intros c0. repeat split.
Qed.

End WithPackage.

(** ** Concrete runs *)

Definition eth0_config : CaptureConfig := {| BufferSize := 1024; Promisc := false |}.

Definition eth0 : Capture (list nat) := NewCapture "eth0" eth0_config.

Definition eth0_source : Source :=
  {| source_Stats := {| PacketsReceived := 0; PacketsDropped := 0 |} |}.

Definition eth0_closed : Capture (list nat) := fst (closing eth0).

Lemma closed_capture_methods_witness :
  closed eth0_closed = true
  /\ Status (AggFlowMap := list nat) eth0_closed = Return zero_Status
  /\ perform eth0_closed (Rotate (AggFlowMap := list nat) eth0_closed)
     = PanicSendOnClosedChannel.
Proof.
  split; [reflexivity|].
  destruct (closed_capture_methods (AggFlowMap := list nat)
              eth0_closed eth0_config eq_refl)
    as ((HStatus & _) & _ & Hclosing).
  split; [exact HStatus|].
  destruct (Hclosing eth0) as (_ & _ & Hpanic). exact Hpanic.
Defined.

(** 10,001 packets in a row that fail to decode. *)
Definition malformed_packets : list (@packet nat) :=
  replicate (Z.to_nat (ErrorThreshold + 1)) (NotDecoded "malformed").

(** The error [process] sends after them. *)
Definition malformed_error : captureError :=
  ErrNotDecoded {[ "malformed" := ErrorThreshold + 1 ]}.

(** C2, at a failing input: a Status command is served while the
    capture is in StateCapturing, then 10,001 packets in a row fail to
    decode. [process] counts as the claim says and sends the fatal
    error; but [capturing] has returned nil after the command, [Run]
    has ended, nothing receives the error and the state stays
    StateCapturing. With the same packets and no command before them
    the machine does go to StateError. *)
Theorem status_command_ends_run :
  exists c1 c2 : Capture (list nat),
    (* the run up to and including the Status command *)
    Run eth0 {| sources := [Some eth0_source];
                events := [Command captureCommandStatus] |}
    = Exited c1 {| sources := []; events := [] |}
    /\ state c1 = StateCapturing
    (* the packet task on the malformed packets *)
    /\ snd (process c1 malformed_packets) = SendsError malformed_error
    /\ snd (process c1 (take (Z.to_nat ErrorThreshold) malformed_packets))
       = AwaitsPacket
    (* the error is not received *)
    /\ Run eth0 {| sources := [Some eth0_source];
                   events := [Command captureCommandStatus;
                              CaptureError malformed_error] |}
       = Exited c1 {| sources := []; events := [CaptureError malformed_error] |}
    /\ state c1 <> StateError
    (* without the command it is *)
    /\ Run eth0 {| sources := [Some eth0_source];
                   events := [CaptureError malformed_error] |}
       = Blocked fn_inError c2 {| sources := []; events := [] |}
    /\ state c2 = StateError.
Proof.
  eexists. eexists.
  split; [vm_compute; reflexivity|].
  split; [reflexivity|].
  split; [vm_compute; reflexivity|].
  split; [vm_compute; reflexivity|].
  split; [vm_compute; reflexivity|].
  split; [discriminate|].
  split; [vm_compute; reflexivity|].
  reflexivity.
Qed.

End CaptureSpec.

Module CodecFacts.
Import Int64 Int64Facts.

(** [a | y] is [a + y] when [a] has no bit below [k] and [y] none from
    [k] on. *)
Lemma land_disjoint (a y k : Z) :
  0 <= k -> a mod 2 ^ k = 0 -> 0 <= y < 2 ^ k -> Z.land a y = 0.
Proof.
  intros Hk Ha Hy. apply Z.bits_inj'; intros n Hn.
  rewrite Z.land_spec, Z.bits_0.
  destruct (Z.lt_ge_cases n k) as [Hlt|Hge].
  - rewrite <- (Z.mod_pow2_bits_low a k n), Ha, Z.bits_0 by lia. reflexivity.
  - rewrite <- (Z.mod_small y (2 ^ k)) by lia.
    rewrite Z.mod_pow2_bits_high by lia. apply andb_false_r.
Qed.

Lemma lor_add (a y k : Z) :
  0 <= k -> a mod 2 ^ k = 0 -> 0 <= y < 2 ^ k -> Z.lor a y = a + y.
Proof.
  intros Hk Ha Hy. pose proof (land_disjoint a y k Hk Ha Hy) as H0.
  rewrite Z.add_nocarry_lxor by exact H0. symmetry. apply Z.lxor_lor, H0.
Qed.

(** The expression of the header-parsing loop on eight byte values. *)
Definition combine8 (d0 d1 d2 d3 d4 d5 d6 d7 : Z) : Z :=
  Z.lor (Z.lor (Z.lor (Z.lor (Z.lor (Z.lor (Z.lor
    (shl d0 56) (shl d1 48)) (shl d2 40)) (shl d3 32))
    (shl d4 24)) (shl d5 16)) (shl d6 8)) d7.

Definition is_byte (d : Z) : Prop := 0 <= d < 256.

Lemma shl_top (d : Z) :
  is_byte d -> shl d 56 = d * 2 ^ 56 - (if d <? 128 then 0 else 2 ^ 64).
Proof.
  unfold is_byte, shl. intros Hd. rewrite Z.shiftl_mul_pow2 by lia.
  destruct (d <? 128) eqn:E.
  - apply Z.ltb_lt in E. rewrite wrap_small; [lia | unfold in_range; lia].
  - apply Z.ltb_ge in E.
    replace (d * 2 ^ 56) with ((d * 2 ^ 56 - 2 ^ 64) + 1 * 2 ^ 64) by lia.
    rewrite wrap_shift, wrap_small; [lia | unfold in_range; lia].
Qed.

Lemma shl_low (d k : Z) :
  is_byte d -> 0 <= k <= 48 -> shl d k = d * 2 ^ k.
Proof.
  unfold is_byte, shl. intros Hd Hk. rewrite Z.shiftl_mul_pow2 by lia.
  apply wrap_small. unfold in_range.
  assert (2 ^ k <= 2 ^ 48) by (apply Z.pow_le_mono_r; lia).
  assert (0 < 2 ^ k) by (apply Z.pow_pos_nonneg; lia).
  nia.
Qed.

Lemma combine8_sum (d0 d1 d2 d3 d4 d5 d6 d7 : Z) :
  is_byte d0 -> is_byte d1 -> is_byte d2 -> is_byte d3 ->
  is_byte d4 -> is_byte d5 -> is_byte d6 -> is_byte d7 ->
  combine8 d0 d1 d2 d3 d4 d5 d6 d7
  = d0 * 2 ^ 56 - (if d0 <? 128 then 0 else 2 ^ 64)
    + d1 * 2 ^ 48 + d2 * 2 ^ 40 + d3 * 2 ^ 32
    + d4 * 2 ^ 24 + d5 * 2 ^ 16 + d6 * 2 ^ 8 + d7.
Proof.
  unfold is_byte. intros H0 H1 H2 H3 H4 H5 H6 H7. unfold combine8.
  rewrite (shl_top d0 H0), !shl_low by (unfold is_byte; lia).
  set (top := d0 * 2 ^ 56 - _).
  assert (exists q, top = q * 2 ^ 56) as [q Hq].
  { unfold top. destruct (d0 <? 128); [exists d0; lia | exists (d0 - 256); lia]. }
  clearbody top. subst top.
  assert (forall m d k, 0 <= k -> is_byte d ->
            Z.lor (m * 2 ^ (k + 8)) (d * 2 ^ k) = (m * 2 ^ 8 + d) * 2 ^ k) as Hstep.
  { intros m d k Hk Hd. unfold is_byte in Hd.
    assert (0 < 2 ^ k) by (apply Z.pow_pos_nonneg; lia).
    rewrite (lor_add _ _ (k + 8)).
    - rewrite Z.pow_add_r by lia. lia.
    - lia.
    - apply Z.mod_mul. lia.
    - rewrite Z.pow_add_r by lia. nia. }
  change 56 with (48 + 8). rewrite (Hstep q d1 48) by (unfold is_byte; lia).
  change 48 with (40 + 8) at 1. rewrite (Hstep _ d2 40) by (unfold is_byte; lia).
  change 40 with (32 + 8) at 1. rewrite (Hstep _ d3 32) by (unfold is_byte; lia).
  change 32 with (24 + 8) at 1. rewrite (Hstep _ d4 24) by (unfold is_byte; lia).
  change 24 with (16 + 8) at 1. rewrite (Hstep _ d5 16) by (unfold is_byte; lia).
  change 16 with (8 + 8) at 1. rewrite (Hstep _ d6 8) by (unfold is_byte; lia).
  rewrite (lor_add _ d7 8); [| lia | apply Z.mod_mul; lia | lia].
  lia.
Qed.

(** The byte of [v] that the serialisation loop writes for shift [k]:
    [byte(v >> k)] as a number. *)
Definition digit (v k : Z) : Z := (shr v k) mod 256.

Lemma digit_is_byte (v k : Z) : is_byte (digit v k).
Proof. unfold is_byte, digit. apply Z.mod_pos_bound. lia. Qed.

Lemma shr_step (v k : Z) : 0 <= k -> shr v (k + 8) = shr v k / 256.
Proof.
  intros Hk. unfold shr. rewrite <- Z.shiftr_shiftr by lia.
  rewrite (Z.shiftr_div_pow2 _ 8) by lia. reflexivity.
Qed.

(** Decoding the eight bytes of an [int64] gives it back. *)
Lemma combine8_digits (v : Z) :
  in_range v ->
  combine8 (digit v 56) (digit v 48) (digit v 40) (digit v 32)
           (digit v 24) (digit v 16) (digit v 8) (digit v 0) = v.
Proof.
  intros Hv. rewrite combine8_sum by apply digit_is_byte.
  unfold digit, in_range in *.
  assert (shr v 56 = shr v 48 / 256) as S7 by (apply (shr_step v 48); lia).
  assert (shr v 48 = shr v 40 / 256) as S6 by (apply (shr_step v 40); lia).
  assert (shr v 40 = shr v 32 / 256) as S5 by (apply (shr_step v 32); lia).
  assert (shr v 32 = shr v 24 / 256) as S4 by (apply (shr_step v 24); lia).
  assert (shr v 24 = shr v 16 / 256) as S3 by (apply (shr_step v 16); lia).
  assert (shr v 16 = shr v 8 / 256) as S2 by (apply (shr_step v 8); lia).
  assert (shr v 8 = shr v 0 / 256) as S1 by (apply (shr_step v 0); lia).
  assert (shr v 0 = v) as S0 by apply Z.shiftr_0_r.
  rewrite S7, S6, S5, S4, S3, S2, S1, S0.
  clear S7 S6 S5 S4 S3 S2 S1 S0.
  set (a1 := v / 256). set (a2 := a1 / 256). set (a3 := a2 / 256).
  set (a4 := a3 / 256). set (a5 := a4 / 256). set (a6 := a5 / 256).
  set (a7 := a6 / 256).
  pose proof (Z.div_mod v 256 ltac:(lia)) as E0.
  pose proof (Z.div_mod a1 256 ltac:(lia)) as E1.
  pose proof (Z.div_mod a2 256 ltac:(lia)) as E2.
  pose proof (Z.div_mod a3 256 ltac:(lia)) as E3.
  pose proof (Z.div_mod a4 256 ltac:(lia)) as E4.
  pose proof (Z.div_mod a5 256 ltac:(lia)) as E5.
  pose proof (Z.div_mod a6 256 ltac:(lia)) as E6.
  pose proof (Z.div_mod a7 256 ltac:(lia)) as E7.
  pose proof (Z.mod_pos_bound v 256 ltac:(lia)).
  pose proof (Z.mod_pos_bound a1 256 ltac:(lia)).
  pose proof (Z.mod_pos_bound a2 256 ltac:(lia)).
  pose proof (Z.mod_pos_bound a3 256 ltac:(lia)).
  pose proof (Z.mod_pos_bound a4 256 ltac:(lia)).
  pose proof (Z.mod_pos_bound a5 256 ltac:(lia)).
  pose proof (Z.mod_pos_bound a6 256 ltac:(lia)).
  pose proof (Z.mod_pos_bound a7 256 ltac:(lia)).
  fold a1 in E0. fold a2 in E1. fold a3 in E2. fold a4 in E3.
  fold a5 in E4. fold a6 in E5. fold a7 in E6.
  assert (-128 <= a7 < 128) as Ha7 by lia.
  assert (a7 mod 256 = if a7 <? 0 then a7 + 256 else a7) as Htop.
  { destruct (a7 <? 0) eqn:E.
    - apply Z.ltb_lt in E. symmetry. apply (Z.mod_unique _ _ (-1)); lia.
    - apply Z.ltb_ge in E. apply Z.mod_small. lia. }
  rewrite Htop.
  destruct (a7 <? 0) eqn:E;
    [apply Z.ltb_lt in E | apply Z.ltb_ge in E].
  - assert ((a7 + 256 <? 128) = false) as -> by (apply Z.ltb_ge; lia). lia.
  - assert ((a7 <? 128) = true) as -> by (apply Z.ltb_lt; lia). lia.
Qed.

(** Every byte of the decoded value is the byte it was decoded from. *)
Lemma digits_combine8 (d0 d1 d2 d3 d4 d5 d6 d7 : Z) :
  is_byte d0 -> is_byte d1 -> is_byte d2 -> is_byte d3 ->
  is_byte d4 -> is_byte d5 -> is_byte d6 -> is_byte d7 ->
  let v := combine8 d0 d1 d2 d3 d4 d5 d6 d7 in
  digit v 56 = d0 /\ digit v 48 = d1 /\ digit v 40 = d2 /\ digit v 32 = d3 /\
  digit v 24 = d4 /\ digit v 16 = d5 /\ digit v 8 = d6 /\ digit v 0 = d7.
Proof.
  intros H0 H1 H2 H3 H4 H5 H6 H7 v. subst v.
  rewrite combine8_sum by assumption.
  unfold is_byte, digit, shr in *. rewrite !Z.shiftr_div_pow2 by lia.
  set (c := if d0 <? 128 then 0 else 2 ^ 64).
  assert (exists s, c = s * 2 ^ 64) as [s Hs].
  { unfold c. destruct (d0 <? 128); [exists 0 | exists 1]; lia. }
  clearbody c. subst c.
  repeat split.
  - symmetry.
    apply (Z.mod_unique _ _ (- s)); [lia|].
    rewrite <- (Z.div_unique _ (2 ^ 56) (d0 - s * 256)
                  (d1 * 2 ^ 48 + d2 * 2 ^ 40 + d3 * 2 ^ 32 + d4 * 2 ^ 24
                   + d5 * 2 ^ 16 + d6 * 2 ^ 8 + d7)); lia.
  - symmetry.
    apply (Z.mod_unique _ _ (d0 - s * 256)); [lia|].
    rewrite <- (Z.div_unique _ (2 ^ 48) ((d0 - s * 256) * 256 + d1)
                  (d2 * 2 ^ 40 + d3 * 2 ^ 32 + d4 * 2 ^ 24
                   + d5 * 2 ^ 16 + d6 * 2 ^ 8 + d7)); lia.
  - symmetry.
    apply (Z.mod_unique _ _ ((d0 - s * 256) * 256 + d1)); [lia|].
    rewrite <- (Z.div_unique _ (2 ^ 40) (((d0 - s * 256) * 256 + d1) * 256 + d2)
                  (d3 * 2 ^ 32 + d4 * 2 ^ 24 + d5 * 2 ^ 16 + d6 * 2 ^ 8 + d7)); lia.
  - symmetry.
    apply (Z.mod_unique _ _ (((d0 - s * 256) * 256 + d1) * 256 + d2)); [lia|].
    rewrite <- (Z.div_unique _ (2 ^ 32)
                  ((((d0 - s * 256) * 256 + d1) * 256 + d2) * 256 + d3)
                  (d4 * 2 ^ 24 + d5 * 2 ^ 16 + d6 * 2 ^ 8 + d7)); lia.
  - symmetry.
    apply (Z.mod_unique _ _ ((((d0 - s * 256) * 256 + d1) * 256 + d2) * 256 + d3));
      [lia|].
    rewrite <- (Z.div_unique _ (2 ^ 24)
                  (((((d0 - s * 256) * 256 + d1) * 256 + d2) * 256 + d3) * 256 + d4)
                  (d5 * 2 ^ 16 + d6 * 2 ^ 8 + d7)); lia.
  - symmetry.
    apply (Z.mod_unique _ _
             (((((d0 - s * 256) * 256 + d1) * 256 + d2) * 256 + d3) * 256 + d4));
      [lia|].
    rewrite <- (Z.div_unique _ (2 ^ 16)
                  ((((((d0 - s * 256) * 256 + d1) * 256 + d2) * 256 + d3) * 256 + d4)
                   * 256 + d5)
                  (d6 * 2 ^ 8 + d7)); lia.
  - symmetry.
    apply (Z.mod_unique _ _
             ((((((d0 - s * 256) * 256 + d1) * 256 + d2) * 256 + d3) * 256 + d4)
              * 256 + d5)); [lia|].
    rewrite <- (Z.div_unique _ (2 ^ 8)
                  (((((((d0 - s * 256) * 256 + d1) * 256 + d2) * 256 + d3) * 256 + d4)
                    * 256 + d5) * 256 + d6)
                  d7); lia.
  - symmetry. change (2 ^ 0) with 1. rewrite Z.div_1_r.
    apply (Z.mod_unique _ _
             (((((((d0 - s * 256) * 256 + d1) * 256 + d2) * 256 + d3) * 256 + d4)
               * 256 + d5) * 256 + d6)); lia.
Qed.
End CodecFacts.

(* ===================================================================== *)
(** * The block file: the header on disk                                  *)
(* ===================================================================== *)

Module HeaderFacts.
Import Int64 Int64Facts CodecFacts GPFile.

(** ** The header codec *)

(** The eight bytes the serialisation loop writes for one value. *)
Definition encode_slot (v : Z) : list byte :=
  map (fun j => to_byte (shr v (shift_of j))) (seq 0 8).

Lemma of_byte_is_byte (b : byte) : is_byte (of_byte b).
Proof. apply of_byte_range. Qed.

Lemma of_byte_to_byte_shr (v k : Z) : of_byte (to_byte (shr v k)) = digit v k.
Proof. apply of_to_byte. Qed.

Lemma decode_at_8 (b0 b1 b2 b3 b4 b5 b6 b7 : byte) :
  decode_at [b0; b1; b2; b3; b4; b5; b6; b7] 0
  = combine8 (of_byte b0) (of_byte b1) (of_byte b2) (of_byte b3)
             (of_byte b4) (of_byte b5) (of_byte b6) (of_byte b7).
Proof. reflexivity. Qed.

Lemma encode_slot_8 (v : Z) :
  encode_slot v
  = [to_byte (shr v 56); to_byte (shr v 48); to_byte (shr v 40);
     to_byte (shr v 32); to_byte (shr v 24); to_byte (shr v 16);
     to_byte (shr v 8); to_byte (shr v 0)].
Proof. reflexivity. Qed.

Lemma decode_encode_slot (v : Z) : in_range v -> decode_at (encode_slot v) 0 = v.
Proof.
  intros Hv. rewrite encode_slot_8, decode_at_8.
  rewrite !of_byte_to_byte_shr. apply (combine8_digits v Hv).
Qed.

Lemma to_byte_digit (v k : Z) (b : byte) :
  digit v k = of_byte b -> to_byte (shr v k) = b.
Proof.
  unfold digit. intros H. rewrite <- to_byte_mod, H. apply to_of_byte.
Qed.

Lemma encode_decode_slot (bs : list byte) :
  length bs = 8%nat -> encode_slot (decode_at bs 0) = bs.
Proof.
  intros Hlen.
  destruct bs as [|b0 [|b1 [|b2 [|b3 [|b4 [|b5 [|b6 [|b7 [|]]]]]]]]];
    try discriminate Hlen.
  rewrite decode_at_8, encode_slot_8.
  destruct (digits_combine8 (of_byte b0) (of_byte b1) (of_byte b2) (of_byte b3)
              (of_byte b4) (of_byte b5) (of_byte b6) (of_byte b7)
              (of_byte_is_byte b0) (of_byte_is_byte b1) (of_byte_is_byte b2)
              (of_byte_is_byte b3) (of_byte_is_byte b4) (of_byte_is_byte b5)
              (of_byte_is_byte b6) (of_byte_is_byte b7))
    as (E0 & E1 & E2 & E3 & E4 & E5 & E6 & E7).
  rewrite (to_byte_digit _ _ _ E0), (to_byte_digit _ _ _ E1),
    (to_byte_digit _ _ _ E2), (to_byte_digit _ _ _ E3),
    (to_byte_digit _ _ _ E4), (to_byte_digit _ _ _ E5),
    (to_byte_digit _ _ _ E6), (to_byte_digit _ _ _ E7).
  reflexivity.
Qed.

(** ** The serialisation loops *)

Lemma BufSize_eq : BufSize = 4096%nat.
Proof. reflexivity. Qed.

Lemma NumElements_eq : NumElements = 512%nat.
Proof. reflexivity. Qed.

Lemma header_bytes_loop_length b t l pos n j w :
  length (header_bytes_loop b t l pos n j w) = length w.
Proof.
  revert j w. induction n as [|n IH]; intros j w; cbn [header_bytes_loop]; [reflexivity|].
  cbv zeta. rewrite IH, !length_insert. reflexivity.
Qed.

Lemma header_loop_length bs ts ls n i pos w :
  length (header_loop bs ts ls n i pos w) = length w.
Proof.
  revert i pos w. induction n as [|n IH]; intros i pos w; cbn [header_loop];
    [reflexivity|].
  rewrite IH, header_bytes_loop_length. reflexivity.
Qed.

(** The byte the loops write at offset [k] of the region of [vs]. *)
Definition header_byte (vs : list Z) (k : nat) : byte :=
  to_byte (shr (vs !!! (k / 8)%nat) (shift_of (k mod 8))).

Lemma header_bytes_loop_lookup b t l pos n j w k :
  length w = (BufSize * 3)%nat ->
  (pos + j + n <= BufSize)%nat ->
  (k < BufSize)%nat ->
  let w' := header_bytes_loop b t l pos n j w in
  let hit := bool_decide (pos + j <= k < pos + j + n)%nat in
  w' !! k
    = (if hit then Some (to_byte (shr b (shift_of (k - pos)))) else w !! k)
  /\ w' !! (BufSize + k)%nat
    = (if hit then Some (to_byte (shr t (shift_of (k - pos))))
       else w !! (BufSize + k)%nat)
  /\ w' !! (BufSize + BufSize + k)%nat
    = (if hit then Some (to_byte (shr l (shift_of (k - pos))))
       else w !! (BufSize + BufSize + k)%nat).
Proof.
  pose proof BufSize_eq as HB.
  revert j w. induction n as [|n IH]; intros j w Hw Hn Hk w' hit.
  - subst w' hit. cbn [header_bytes_loop]. rewrite bool_decide_eq_false_2 by lia. auto.
  - subst w'. cbn [header_bytes_loop]. cbv zeta.
    match goal with |- context [header_bytes_loop b t l pos n (S j) ?w3] =>
      specialize (IH (S j) w3) end.
    rewrite !length_insert in IH.
    specialize (IH Hw ltac:(lia) Hk). cbv zeta in IH.
    destruct IH as (IH1 & IH2 & IH3). rewrite IH1, IH2, IH3. clear IH1 IH2 IH3.
    subst hit.
    destruct (decide (k = pos + j)%nat) as [-> | Hne].
    + rewrite (bool_decide_eq_false_2 (pos + S j <= _ < _)%nat) by lia.
      rewrite (bool_decide_eq_true_2 (pos + j <= _ < _)%nat) by lia.
      replace (pos + j - pos)%nat with j by lia.
      repeat split.
      * rewrite list_lookup_insert_ne by lia.
        rewrite list_lookup_insert_ne by lia.
        apply list_lookup_insert_eq. lia.
      * rewrite list_lookup_insert_ne by lia.
        replace (BufSize + (pos + j))%nat with (BufSize + pos + j)%nat by lia.
        apply list_lookup_insert_eq. rewrite length_insert. lia.
      * replace (BufSize + BufSize + (pos + j))%nat
          with (BufSize + BufSize + pos + j)%nat by lia.
        apply list_lookup_insert_eq. rewrite !length_insert. lia.
    + rewrite !list_lookup_insert_ne by lia.
      destruct (bool_decide (pos + S j <= k < pos + S j + n)%nat) eqn:E.
      * apply bool_decide_eq_true_1 in E.
        rewrite bool_decide_eq_true_2 by lia. auto.
      * apply bool_decide_eq_false_1 in E.
        rewrite bool_decide_eq_false_2 by lia. auto.
Qed.

Lemma div_mod_8 (i j : nat) :
  (j < 8)%nat -> ((8 * i + j) / 8 = i /\ (8 * i + j) mod 8 = j)%nat.
Proof.
  intros Hj. split.
  - symmetry. apply (Nat.div_unique _ 8 i j); lia.
  - symmetry. apply (Nat.mod_unique _ 8 i j); lia.
Qed.

Lemma header_loop_lookup bs ts ls n i w k :
  length w = (BufSize * 3)%nat ->
  (8 * (i + n) <= BufSize)%nat ->
  (k < BufSize)%nat ->
  let w' := header_loop bs ts ls n i (8 * i) w in
  let hit := bool_decide (8 * i <= k < 8 * (i + n))%nat in
  w' !! k = (if hit then Some (header_byte bs k) else w !! k)
  /\ w' !! (BufSize + k)%nat
     = (if hit then Some (header_byte ts k) else w !! (BufSize + k)%nat)
  /\ w' !! (BufSize + BufSize + k)%nat
     = (if hit then Some (header_byte ls k) else w !! (BufSize + BufSize + k)%nat).
Proof.
  pose proof BufSize_eq as HB.
  revert i w. induction n as [|n IH]; intros i w Hw Hn Hk w' hit.
  - subst w' hit. cbn [header_loop]. rewrite bool_decide_eq_false_2 by lia. auto.
  - subst w'. cbn [header_loop].
    replace (8 * i + 8)%nat with (8 * S i)%nat by lia.
    match goal with |- context [header_loop bs ts ls n (S i) _ ?w1] =>
      specialize (IH (S i) w1) end.
    rewrite header_bytes_loop_length in IH.
    specialize (IH Hw ltac:(lia) Hk). cbv zeta in IH.
    destruct IH as (IH1 & IH2 & IH3). rewrite IH1, IH2, IH3. clear IH1 IH2 IH3.
    destruct (header_bytes_loop_lookup (bs !!! i) (ts !!! i) (ls !!! i)
                (8 * i) 8 0 w k Hw ltac:(lia) Hk) as (L1 & L2 & L3).
    cbv zeta in L1, L2, L3. rewrite L1, L2, L3. clear L1 L2 L3.
    subst hit.
    destruct (bool_decide (8 * S i <= k < 8 * (S i + n))%nat) eqn:E.
    + apply bool_decide_eq_true_1 in E.
      rewrite bool_decide_eq_true_2 by lia. auto.
    + apply bool_decide_eq_false_1 in E.
      destruct (bool_decide (8 * i + 0 <= k < 8 * i + 0 + 8)%nat) eqn:E2.
      * apply bool_decide_eq_true_1 in E2.
        rewrite bool_decide_eq_true_2 by lia.
        unfold header_byte.
        destruct (div_mod_8 i (k - 8 * i)) as [Hd Hm]; [lia|].
        replace (8 * i + (k - 8 * i))%nat with k in Hd, Hm by lia.
        rewrite Hd, Hm. auto.
      * apply bool_decide_eq_false_1 in E2.
        rewrite bool_decide_eq_false_2 by lia. auto.
Qed.

(** After the loops every byte of the buffer is a header byte. *)
Lemma header_loop_full bs ts ls w k :
  length w = (BufSize * 3)%nat ->
  (k < BufSize)%nat ->
  let w' := header_loop bs ts ls NumElements 0 0 w in
  w' !! k = Some (header_byte bs k)
  /\ w' !! (BufSize + k)%nat = Some (header_byte ts k)
  /\ w' !! (BufSize + BufSize + k)%nat = Some (header_byte ls k).
Proof.
  intros Hw Hk.
  pose proof (header_loop_lookup bs ts ls NumElements 0 w k Hw
                ltac:(rewrite NumElements_eq, BufSize_eq; lia) Hk) as H.
  cbv zeta in H. rewrite bool_decide_eq_true_2 in H; [exact H|].
  rewrite NumElements_eq. rewrite BufSize_eq in Hk. lia.
Qed.

End HeaderFacts.

(* ===================================================================== *)
(** * The block file: properties                                          *)
(* ===================================================================== *)

Module GPFileSpec.
Import Int64 Int64Facts CodecFacts GPFile HeaderFacts.

(** ** Reading the header back *)

Lemma file_read_full (n : nat) (src : list byte) :
  (0 < n)%nat -> (n <= length src)%nat -> file_read n src = (take n src, n, false).
Proof.
  intros Hn Hlen. unfold file_read.
  rewrite length_take, Nat.min_l by exact Hlen.
  rewrite Nat.sub_diag. cbn [replicate]. rewrite app_nil_r.
  destruct n; [lia | reflexivity].
Qed.

Lemma byte_at_header (buf : list byte) (vs : list Z) (i j k : nat) :
  (forall k, (k < BufSize)%nat -> buf !! k = Some (header_byte vs k)) ->
  (i < NumElements)%nat -> (j < 8)%nat -> k = (8 * i + j)%nat ->
  byte_at buf k = digit (vs !!! i) (shift_of j).
Proof.
  intros Hbuf Hi Hj ->. unfold byte_at.
  rewrite (list_lookup_total_correct buf _ _ (Hbuf (8 * i + j)%nat
             ltac:(rewrite BufSize_eq; rewrite NumElements_eq in Hi; lia))).
  unfold header_byte. destruct (div_mod_8 i j Hj) as [-> ->].
  apply of_to_byte.
Qed.

Lemma decode_at_header (buf : list byte) (vs : list Z) (i : nat) :
  (forall k, (k < BufSize)%nat -> buf !! k = Some (header_byte vs k)) ->
  (i < NumElements)%nat -> in_range (vs !!! i) ->
  decode_at buf (8 * i) = vs !!! i.
Proof.
  intros Hbuf Hi Hv.
  etransitivity; [|exact (combine8_digits (vs !!! i) Hv)].
  unfold decode_at, combine8.
  repeat match goal with
         | |- Z.lor _ _ = Z.lor _ _ => f_equal
         | |- shl _ _ = shl _ _ => f_equal
         end.
  - apply (byte_at_header buf vs i 0 _ Hbuf Hi); lia.
  - apply (byte_at_header buf vs i 1 _ Hbuf Hi); lia.
  - apply (byte_at_header buf vs i 2 _ Hbuf Hi); lia.
  - apply (byte_at_header buf vs i 3 _ Hbuf Hi); lia.
  - apply (byte_at_header buf vs i 4 _ Hbuf Hi); lia.
  - apply (byte_at_header buf vs i 5 _ Hbuf Hi); lia.
  - apply (byte_at_header buf vs i 6 _ Hbuf Hi); lia.
  - apply (byte_at_header buf vs i 7 _ Hbuf Hi); lia.
Qed.

Lemma read_header_drop (buf : list byte) (vs : list Z) (n i : nat) :
  (forall k, (k < BufSize)%nat -> buf !! k = Some (header_byte vs k)) ->
  length vs = NumElements -> Forall in_range vs ->
  (i + n = NumElements)%nat ->
  read_header buf n (8 * i) = drop i vs.
Proof.
  intros Hbuf Hlen Hvs. revert i. induction n as [|n IH]; intros i Hi.
  - cbn [read_header]. rewrite drop_ge by lia. reflexivity.
  - cbn [read_header].
    replace (8 * i + 8)%nat with (8 * S i)%nat by lia.
    rewrite IH by lia.
    assert (i < length vs)%nat as Hlt by lia.
    destruct (lookup_lt_is_Some_2 vs i Hlt) as [v Hv].
    rewrite (drop_S vs v i Hv).
    rewrite (decode_at_header buf vs i); [| exact Hbuf | lia |].
    + rewrite (list_lookup_total_correct vs i v Hv). reflexivity.
    + rewrite (list_lookup_total_correct vs i v Hv).
      exact (proj1 (Forall_lookup _ _) Hvs i v Hv).
Qed.

Lemma read_header_correct (buf : list byte) (vs : list Z) :
  (forall k, (k < BufSize)%nat -> buf !! k = Some (header_byte vs k)) ->
  length vs = NumElements -> Forall in_range vs ->
  read_header buf NumElements 0 = vs.
Proof.
  intros Hbuf Hlen Hvs.
  exact (read_header_drop buf vs NumElements 0 Hbuf Hlen Hvs eq_refl).
Qed.

(** The header arrays have [NumElements] slots of [int64]. *)
Record arrays_ok (f : GPFile) : Prop := {
  blocks_length : length (blocks f) = NumElements;
  timestamps_length : length (timestamps f) = NumElements;
  lengths_length : length (lengths f) = NumElements;
  blocks_range : Forall in_range (blocks f);
  timestamps_range : Forall in_range (timestamps f);
  lengths_range : Forall in_range (lengths f);
  wBuf_length : length (wBuf f) = (BufSize * 3)%nat
}.

(** Opening a file that starts with a serialised header gives the
    arrays that were serialised. *)
Lemma NewGPFile_reads_header (p : string) (enc : Encoder)
    (bs ts ls : list Z) (w rest : list byte) :
  length bs = NumElements -> length ts = NumElements -> length ls = NumElements ->
  Forall in_range bs -> Forall in_range ts -> Forall in_range ls ->
  length w = (BufSize * 3)%nat ->
  let file := header_loop bs ts ls NumElements 0 0 w ++ rest in
  exists g,
    NewGPFile p enc (Some file) = (Ok g, Some file)
    /\ blocks g = bs /\ timestamps g = ts /\ lengths g = ls
    /\ curFile g = Some (BufSize * 3)%nat /\ lastSeekPos g = 0
    /\ encoder g = enc
    /\ length (wBuf g) = (BufSize * 3)%nat.
Proof.
  intros Hbs Hts Hls Rbs Rts Rls Hw file.
  set (W := header_loop bs ts ls NumElements 0 0 w) in *.
  assert (length W = (BufSize * 3)%nat) as HW.
  { unfold W. rewrite header_loop_length. exact Hw. }
  pose proof BufSize_eq as HB.
  assert (length file = (BufSize * 3 + length rest)%nat) as Hfile.
  { unfold file. rewrite length_app, HW. reflexivity. }
  unfold NewGPFile.
  rewrite (file_read_full BufSize file) by lia.
  rewrite (file_read_full BufSize (drop BufSize file))
    by (rewrite ?length_drop; lia).
  rewrite (file_read_full BufSize (drop (BufSize + BufSize) file))
    by (rewrite ?length_drop; lia).
  rewrite Nat.eqb_refl. cbn [negb].
  eexists. split; [reflexivity|].
  cbn [blocks timestamps lengths curFile lastSeekPos encoder wBuf].
  repeat split.
  - apply read_header_correct; [|exact Hbs|exact Rbs].
    intros k Hk. rewrite lookup_take_lt by exact Hk.
    unfold file. rewrite lookup_app_l by lia.
    exact (proj1 (header_loop_full bs ts ls w k Hw Hk)).
  - apply read_header_correct; [|exact Hts|exact Rts].
    intros k Hk. rewrite lookup_take_lt by exact Hk.
    rewrite lookup_drop. unfold file. rewrite lookup_app_l by lia.
    exact (proj1 (proj2 (header_loop_full bs ts ls w k Hw Hk))).
  - apply read_header_correct; [|exact Hls|exact Rls].
    intros k Hk. rewrite lookup_take_lt by exact Hk.
    rewrite lookup_drop. unfold file. rewrite lookup_app_l by lia.
    exact (proj2 (proj2 (header_loop_full bs ts ls w k Hw Hk))).
Qed.


(** ** A new file *)

Definition empty_GPFile (p : string) (enc : Encoder) : GPFile :=
  {| blocks := replicate NumElements 0;
     timestamps := replicate NumElements 0;
     lengths := replicate NumElements 0;
     filename := p;
     curFile := Some (BufSize * 3)%nat;
     wBuf := replicate (BufSize * 3) x00;
     lastSeekPos := 0;
     encoder := enc |}.

Definition empty_file : list byte := replicate (BufSize * 3) x00.

Lemma read_header_zero : read_header (replicate BufSize x00) NumElements 0
                         = replicate NumElements 0.
Proof. vm_compute. reflexivity. Qed.

(** [NewGPFile] on a path that does not exist writes an empty header
    and returns the empty file object. *)
Lemma NewGPFile_absent (p : string) (enc : Encoder) :
  NewGPFile p enc None = (Ok (empty_GPFile p enc), Some empty_file).
Proof.
  unfold NewGPFile, empty_GPFile, empty_file. rewrite read_header_zero.
  reflexivity.
Qed.

#[global] Instance in_range_dec (z : Z) : Decision (in_range z).
Proof. unfold in_range. apply _. Defined.

Lemma arrays_ok_empty (p : string) (enc : Encoder) : arrays_ok (empty_GPFile p enc).
Proof.
  split; cbn [blocks timestamps lengths wBuf empty_GPFile];
    try apply length_replicate;
    apply Forall_replicate; unfold in_range; lia.
Qed.

(** ** BlocksUsed *)

Lemma BlocksUsed_loop_spec (f : GPFile) (n i : nat) :
  (exists k, (i <= k < i + n)%nat
             /\ slot_is_zero f k = true
             /\ (forall j, (i <= j < k)%nat -> slot_is_zero f j = false)
             /\ BlocksUsed_loop f n i = (Z.of_nat k, None))
  \/ ((forall j, (i <= j < i + n)%nat -> slot_is_zero f j = false)
      /\ BlocksUsed_loop f n i = (-1, Some ErrNoBlockCount)).
Proof.
  revert i. induction n as [|n IH]; intros i.
  - right. split; [intros j Hj; lia | reflexivity].
  - cbn [BlocksUsed_loop]. destruct (slot_is_zero f i) eqn:E.
    + left. exists i. repeat split; [lia | lia | exact E | intros j Hj; lia].
    + destruct (IH (S i)) as [(k & Hk & Hz & Hbefore & Hres) | (Hall & Hres)].
      * left. exists k. repeat split; [lia | lia | exact Hz | | exact Hres].
        intros j Hj. destruct (decide (j = i)) as [-> | Hne]; [exact E|].
        apply Hbefore. lia.
      * right. split; [|exact Hres].
        intros j Hj. destruct (decide (j = i)) as [-> | Hne]; [exact E|].
        apply Hall. lia.
Qed.

(** Either [BlocksUsed] finds the first all-zero slot, or there is none
    and it returns -1 with its error. *)
Lemma BlocksUsed_least (f : GPFile) :
  (exists i, (i < NumElements)%nat
             /\ slot_is_zero f i = true
             /\ (forall j, (j < i)%nat -> slot_is_zero f j = false)
             /\ BlocksUsed f = (Z.of_nat i, None))
  \/ ((forall j, (j < NumElements)%nat -> slot_is_zero f j = false)
      /\ BlocksUsed f = (-1, Some ErrNoBlockCount)).
Proof.
  unfold BlocksUsed.
  destruct (BlocksUsed_loop_spec f NumElements 0)
    as [(k & Hk & Hz & Hbefore & Hres) | (Hall & Hres)].
  - left. exists k. repeat split; [lia | exact Hz | | exact Hres].
    intros j Hj. apply Hbefore. lia.
  - right. split; [|exact Hres]. intros j Hj. apply Hall. lia.
Qed.

(** C3 (as the code has it). [BlocksUsed] returns the smallest index
    whose slot triple (timestamp, offset, length) is all zeros, with no
    error; if all 512 slots are occupied it returns -1 together with
    the error "Could not retrieve number of allocated blocks". *)
Theorem BlocksUsed_spec (f : GPFile) :
  (exists i, (i < NumElements)%nat
             /\ slot_is_zero f i = true
             /\ (forall j, (j < i)%nat -> slot_is_zero f j = false)
             /\ BlocksUsed f = (Z.of_nat i, None))
  \/ ((forall j, (j < NumElements)%nat -> slot_is_zero f j = false)
      /\ BlocksUsed f = (-1, Some ErrNoBlockCount)).
Proof. exact (BlocksUsed_least f). Qed.

(** A file all of whose 512 slots are taken: block [i] holds one byte,
    at timestamp [i + 1]. *)
Definition full_GPFile : GPFile :=
  {| blocks := map (fun i => Z.of_nat BufSize * 3 + Z.of_nat i + 1) (seq 0 NumElements);
     timestamps := map (fun i => Z.of_nat i + 1) (seq 0 NumElements);
     lengths := replicate NumElements 1;
     filename := "full.gpf";
     curFile := Some (BufSize * 3)%nat;
     wBuf := replicate (BufSize * 3) x00;
     lastSeekPos := 0;
     encoder := null_encoder |}.

(** C3, counterexample: on a full file [BlocksUsed] does not return
    512. *)
Lemma BlocksUsed_full_not_512 :
  forallb (fun i => negb (slot_is_zero full_GPFile i)) (seq 0 NumElements) = true
  /\ BlocksUsed full_GPFile = (-1, Some ErrNoBlockCount)
  /\ fst (BlocksUsed full_GPFile) <> Z.of_nat NumElements.
Proof.
  split; [vm_compute; reflexivity|].
  assert (BlocksUsed full_GPFile = (-1, Some ErrNoBlockCount)) as H
    by (vm_compute; reflexivity).
  split; [exact H|]. rewrite H. discriminate.
Qed.


(** ** Reopening a written file *)

(** [WriteTimedBlock] when every file operation succeeds. *)
Lemma WriteTimedBlock_works (f : GPFile) (file : list byte) (timestamp : Z)
    (data : list byte) :
  WriteTimedBlock f file timestamp data
  = match scan_loop f timestamp NumElements 0 with
    | ScanPanic => (f, file, Panic)
    | ScanExists cur => (f, file, Err (ErrTimestampExists cur))
    | ScanEnd => (f, file, Err ErrFileFull)
    | ScanFree newPos nextFreeBlock =>
        if nextFreeBlock =? -1 then (f, file, Err ErrFileFull) else
        let c := Compress (encoder f) data in
        let file1 := file ++ comp_written c in
        if comp_err c then (f, file1, Err ErrEncoder) else
        let bs := <[newPos := add nextFreeBlock (comp_n c)]> (blocks f) in
        let ts := <[newPos := timestamp]> (timestamps f) in
        let ls := <[newPos := Z.of_nat (length data)]> (lengths f) in
        let w := header_loop bs ts ls NumElements 0 0 (wBuf f) in
        ({| blocks := bs; timestamps := ts; lengths := ls;
            filename := filename f; curFile := curFile f; wBuf := w;
            lastSeekPos := lastSeekPos f; encoder := encoder f |},
         file_write_at_start w file1,
         Ok tt)
    end.
Proof.
  unfold WriteTimedBlock, WriteTimedBlock_os.
  destruct (scan_loop f timestamp NumElements 0) as [cur | newPos nfb | |];
    reflexivity.
Qed.

Lemma WriteTimedBlock_Ok (f : GPFile) (file : list byte) (ts : Z) (data : list byte)
    (f' : GPFile) (file' : list byte) :
  WriteTimedBlock f file ts data = (f', file', Ok tt) ->
  exists newPos nextFreeBlock,
    scan_loop f ts NumElements 0 = ScanFree newPos nextFreeBlock
    /\ nextFreeBlock <> -1
    /\ comp_err (Compress (encoder f) data) = false
    /\ blocks f' = <[newPos := add nextFreeBlock (comp_n (Compress (encoder f) data))]>
                     (blocks f)
    /\ timestamps f' = <[newPos := ts]> (timestamps f)
    /\ lengths f' = <[newPos := Z.of_nat (length data)]> (lengths f)
    /\ wBuf f' = header_loop (blocks f') (timestamps f') (lengths f')
                   NumElements 0 0 (wBuf f)
    /\ file' = file_write_at_start (wBuf f')
                 (file ++ comp_written (Compress (encoder f) data))
    /\ curFile f' = curFile f /\ lastSeekPos f' = lastSeekPos f
    /\ encoder f' = encoder f /\ filename f' = filename f.
Proof.
  rewrite WriteTimedBlock_works; cbv zeta.
  destruct (scan_loop f ts NumElements 0) as [cur | newPos nfb | |];
    try (intros H; discriminate H).
  destruct (nfb =? -1) eqn:Enfb; [intros H; discriminate H|].
  destruct (comp_err (Compress (encoder f) data)) eqn:Ec; [intros H; discriminate H|].
  intros H. apply pair_equal_spec in H. destruct H as [H _].
  apply pair_equal_spec in H. destruct H as [Hf Hfile].
  exists newPos, nfb. apply Z.eqb_neq in Enfb.
  subst f' file'. cbn [blocks timestamps lengths wBuf curFile lastSeekPos encoder filename].
  repeat (split; [first [reflexivity | exact Enfb]|]). reflexivity.
Qed.

Lemma arrays_ok_write (f f' : GPFile) (file file' : list byte) (ts : Z)
    (data : list byte) :
  arrays_ok f -> in_range ts -> in_range (Z.of_nat (length data)) ->
  WriteTimedBlock f file ts data = (f', file', Ok tt) ->
  arrays_ok f'.
Proof.
  intros [Hb Ht Hl Rb Rt Rl Hw] Hts Hlen Hwrite.
  destruct (WriteTimedBlock_Ok _ _ _ _ _ _ Hwrite)
    as (newPos & nfb & _ & _ & _ & Eb & Et & El & Ew & _).
  split.
  - rewrite Eb, length_insert. exact Hb.
  - rewrite Et, length_insert. exact Ht.
  - rewrite El, length_insert. exact Hl.
  - rewrite Eb. apply Forall_insert; [exact Rb | apply wrap_in_range].
  - rewrite Et. apply Forall_insert; [exact Rt | exact Hts].
  - rewrite El. apply Forall_insert; [exact Rl | exact Hlen].
  - rewrite Ew, header_loop_length. exact Hw.
Qed.

(** What is on disk after a write. *)
Lemma WriteTimedBlock_file (f f' : GPFile) (file file' : list byte) (ts : Z)
    (data : list byte) :
  arrays_ok f ->
  WriteTimedBlock f file ts data = (f', file', Ok tt) ->
  file' = wBuf f'
          ++ drop (BufSize * 3) (file ++ comp_written (Compress (encoder f) data))
  /\ length (wBuf f') = (BufSize * 3)%nat.
Proof.
  intros [Hb Ht Hl Rb Rt Rl Hw] Hwrite.
  destruct (WriteTimedBlock_Ok _ _ _ _ _ _ Hwrite)
    as (newPos & nfb & _ & _ & _ & Eb & Et & El & Ew & Ef & _).
  assert (length (wBuf f') = (BufSize * 3)%nat) as HW
    by (rewrite Ew, header_loop_length; exact Hw).
  split; [|exact HW].
  rewrite Ef. unfold file_write_at_start. rewrite HW. reflexivity.
Qed.

Lemma reopen_after_write (p : string) (f f' : GPFile) (file file' : list byte)
    (ts : Z) (data : list byte) :
  arrays_ok f -> in_range ts -> in_range (Z.of_nat (length data)) ->
  WriteTimedBlock f file ts data = (f', file', Ok tt) ->
  exists g,
    NewGPFile p (encoder f') (Some file') = (Ok g, Some file')
    /\ blocks g = blocks f' /\ timestamps g = timestamps f'
    /\ lengths g = lengths f'
    /\ curFile g = Some (BufSize * 3)%nat /\ lastSeekPos g = 0
    /\ encoder g = encoder f'
    /\ length (wBuf g) = (BufSize * 3)%nat.
Proof.
  intros Hok Hts Hlen Hwrite.
  pose proof (arrays_ok_write _ _ _ _ _ _ Hok Hts Hlen Hwrite)
    as [Hb Ht Hl Rb Rt Rl Hw].
  destruct (WriteTimedBlock_file _ _ _ _ _ _ Hok Hwrite) as [Efile _].
  destruct (WriteTimedBlock_Ok _ _ _ _ _ _ Hwrite)
    as (newPos & nfb & _ & _ & _ & _ & _ & _ & Ew & _).
  rewrite Efile, Ew.
  apply NewGPFile_reads_header; try assumption.
  apply (wBuf_length f Hok).
Qed.

(** C10. The byte-shift encoding of the header in WriteTimedBlock and
    the shift-or decoding in NewGPFile are inverse to each other, on
    every int64 value and on every eight bytes; and opening a file that
    WriteTimedBlock has written gives the blocks, timestamps and
    lengths arrays that were in memory. *)
Theorem header_roundtrip :
  (forall v, in_range v -> decode_at (encode_slot v) 0 = v)
  /\ (forall bs : list byte, length bs = 8%nat -> encode_slot (decode_at bs 0) = bs)
  /\ (forall (p : string) (f f' : GPFile) (file file' : list byte)
             (ts : Z) (data : list byte),
        arrays_ok f -> in_range ts -> in_range (Z.of_nat (length data)) ->
        WriteTimedBlock f file ts data = (f', file', Ok tt) ->
        exists g,
          NewGPFile p (encoder f') (Some file') = (Ok g, Some file')
          /\ blocks g = blocks f'
          /\ timestamps g = timestamps f'
          /\ lengths g = lengths f').
Proof.
  split; [exact decode_encode_slot|].
  split; [exact encode_decode_slot|].
  intros p f f' file file' ts data Hok Hts Hlen Hwrite.
  destruct (reopen_after_write p f f' file file' ts data Hok Hts Hlen Hwrite)
    as (g & Hg & Eb & Et & El & _).
  exists g. auto.
Qed.

(** The serialisation loop writes the eight bytes of slot [i] of each
    array at offset [8 * i] of its region. *)
Lemma header_loop_slot (bs ts ls : list Z) (w : list byte) (i j : nat) :
  length w = (BufSize * 3)%nat -> (i < NumElements)%nat -> (j < 8)%nat ->
  let w' := header_loop bs ts ls NumElements 0 0 w in
  w' !! (8 * i + j)%nat = encode_slot (bs !!! i) !! j
  /\ w' !! (BufSize + (8 * i + j))%nat = encode_slot (ts !!! i) !! j
  /\ w' !! (BufSize + BufSize + (8 * i + j))%nat = encode_slot (ls !!! i) !! j.
Proof.
  intros Hw Hi Hj w'.
  assert (8 * i + j < BufSize)%nat as Hk
    by (rewrite BufSize_eq; rewrite NumElements_eq in Hi; lia).
  destruct (header_loop_full bs ts ls w _ Hw Hk) as (H1 & H2 & H3).
  subst w'. rewrite H1, H2, H3. unfold header_byte.
  destruct (div_mod_8 i j Hj) as [-> ->].
  unfold encode_slot. rewrite !list_lookup_fmap, lookup_seq_lt by lia.
  auto.
Qed.


(** ** Writing a block *)

(** The state of the header the data model asks for: the first [n]
    slots are in use (nonzero timestamp, end offset behind the header),
    the others are all zeros. *)
Record prefix_used (f : GPFile) (n : nat) : Prop := {
  pu_blocks : length (blocks f) = NumElements;
  pu_timestamps : length (timestamps f) = NumElements;
  pu_lengths : length (lengths f) = NumElements;
  pu_n : (n <= NumElements)%nat;
  pu_used : forall i t, (i < n)%nat -> timestamps f !! i = Some t -> t <> 0;
  pu_free : forall i, (n <= i < NumElements)%nat ->
            timestamps f !! i = Some 0 /\ blocks f !! i = Some 0
            /\ lengths f !! i = Some 0;
  pu_offsets : forall i b, (i < n)%nat -> blocks f !! i = Some b ->
               Z.of_nat BufSize * 3 <= b
}.

(** Where the next block starts: the end of the last one, or the end of
    the header. *)
Definition prev_offset (f : GPFile) (n : nat) : Z :=
  if Nat.eqb n 0 then Z.of_nat BufSize * 3 else blocks f !!! (n - 1)%nat.

Lemma scan_loop_exists (f : GPFile) (ts : Z) (n : nat) :
  prefix_used f n ->
  forall m i, (i + m = NumElements)%nat -> (i <= n)%nat ->
  (exists k, (i <= k)%nat /\ timestamps f !! k = Some ts) ->
  scan_loop f ts m i = ScanExists ts.
Proof.
  intros Hpu. induction m as [|m IH]; intros i Him Hin (k & Hik & Hk).
  - apply lookup_lt_Some in Hk. rewrite (pu_timestamps f n Hpu) in Hk. lia.
  - cbn [scan_loop].
    destruct (timestamps f !! i) as [t|] eqn:Et.
    2:{ apply lookup_ge_None in Et. rewrite (pu_timestamps f n Hpu) in Et. lia. }
    destruct (t =? ts) eqn:Ets.
    { apply Z.eqb_eq in Ets. subst t. reflexivity. }
    apply Z.eqb_neq in Ets.
    assert (k <> i) as Hki by (intros ->; congruence).
    destruct (t =? 0) eqn:E0.
    + apply Z.eqb_eq in E0. subst t. exfalso.
      assert (~ (i < n)%nat) as Hn.
      { intros Hlt. exact (pu_used f n Hpu i 0 Hlt Et eq_refl). }
      assert (k < NumElements)%nat as HkN.
      { apply lookup_lt_Some in Hk. rewrite (pu_timestamps f n Hpu) in Hk. exact Hk. }
      destruct (pu_free f n Hpu k ltac:(lia)) as (Hk0 & _).
      congruence.
    + apply Z.eqb_neq in E0.
      assert (i < n)%nat as Hlt.
      { destruct (decide (i < n)%nat) as [|Hge]; [assumption|]. exfalso.
        destruct (pu_free f n Hpu i ltac:(lia)) as (Hi0 & _). congruence. }
      apply IH; [lia | lia |]. exists k. split; [lia | exact Hk].
Qed.

Lemma scan_loop_free (f : GPFile) (ts : Z) (n : nat) :
  prefix_used f n ->
  (forall k, (k < n)%nat -> timestamps f !! k <> Some ts) ->
  ((n < NumElements)%nat -> ts <> 0) ->
  forall m i, (i + m = NumElements)%nat -> (i <= n)%nat ->
  scan_loop f ts m i
  = if decide (n < NumElements)%nat then ScanFree n (prev_offset f n) else ScanEnd.
Proof.
  intros Hpu Hnot Hts. induction m as [|m IH]; intros i Him Hin.
  - cbn [scan_loop]. pose proof (pu_n f n Hpu).
    destruct (decide (n < NumElements)%nat); [lia | reflexivity].
  - cbn [scan_loop].
    destruct (timestamps f !! i) as [t|] eqn:Et.
    2:{ apply lookup_ge_None in Et. rewrite (pu_timestamps f n Hpu) in Et. lia. }
    destruct (decide (i < n)%nat) as [Hlt | Hge].
    + assert ((t =? ts) = false) as ->.
      { apply Z.eqb_neq. intros ->. exact (Hnot i Hlt Et). }
      assert ((t =? 0) = false) as ->.
      { apply Z.eqb_neq. exact (pu_used f n Hpu i t Hlt Et). }
      apply IH; lia.
    + assert (i = n) as -> by lia.
      destruct (pu_free f n Hpu n ltac:(lia)) as (Hn0 & _).
      assert (t = 0) as -> by congruence.
      destruct (decide (n < NumElements)%nat) as [HnN|]; [|lia].
      assert ((0 =? ts) = false) as ->.
      { apply Z.eqb_neq. intros <-. exact (Hts HnN eq_refl). }
      cbn [Z.eqb]. unfold prev_offset.
      destruct (Nat.eqb n 0) eqn:En0; cbn [negb]; [reflexivity|].
      apply Nat.eqb_neq in En0.
      destruct (blocks f !! (n - 1)%nat) as [b|] eqn:Eb.
      * rewrite (list_lookup_total_correct _ _ _ Eb). reflexivity.
      * apply lookup_ge_None in Eb. rewrite (pu_blocks f n Hpu) in Eb. lia.
Qed.

Lemma slot_is_zero_used (f : GPFile) (i : nat) (t : Z) :
  timestamps f !! i = Some t -> t <> 0 -> slot_is_zero f i = false.
Proof.
  intros Et Ht. unfold slot_is_zero.
  rewrite (list_lookup_total_correct _ _ _ Et).
  apply Z.eqb_neq in Ht. rewrite Ht. reflexivity.
Qed.

Lemma slot_is_zero_free (f : GPFile) (i : nat) :
  timestamps f !! i = Some 0 -> blocks f !! i = Some 0 -> lengths f !! i = Some 0 ->
  slot_is_zero f i = true.
Proof.
  intros Et Eb El. unfold slot_is_zero.
  rewrite (list_lookup_total_correct _ _ _ Et),
    (list_lookup_total_correct _ _ _ Eb), (list_lookup_total_correct _ _ _ El).
  reflexivity.
Qed.

(** On such a header [BlocksUsed] counts the slots in use, as long as
    one is free. *)
Lemma BlocksUsed_prefix (f : GPFile) (n : nat)
    (Hlen : length (timestamps f) = NumElements) :
  (n <= NumElements)%nat ->
  (forall i t, (i < n)%nat -> timestamps f !! i = Some t -> t <> 0) ->
  (forall i, (n <= i < NumElements)%nat ->
     timestamps f !! i = Some 0 /\ blocks f !! i = Some 0 /\ lengths f !! i = Some 0) ->
  BlocksUsed f
  = if decide (n < NumElements)%nat then (Z.of_nat n, None)
    else (-1, Some ErrNoBlockCount).
Proof.
  intros Hn Hused Hfree.
  assert (forall i, (i < n)%nat -> slot_is_zero f i = false) as Hnz.
  { intros i Hi.
    destruct (lookup_lt_is_Some_2 (timestamps f) i ltac:(lia)) as [t Et].
    exact (slot_is_zero_used f i t Et (Hused i t Hi Et)). }
  assert (forall i, (n <= i < NumElements)%nat -> slot_is_zero f i = true) as Hz.
  { intros i Hi. destruct (Hfree i Hi) as (Et & Eb & El).
    exact (slot_is_zero_free f i Et Eb El). }
  destruct (BlocksUsed_least f) as [(i & Hi & Hzi & Hbefore & Hres) | (Hall & Hres)].
  - assert (~ (i < n)%nat) as H1 by (intros Hlt; rewrite (Hnz i Hlt) in Hzi; discriminate).
    assert (~ (n < i)%nat) as H2.
    { intros Hlt. pose proof (Hbefore n Hlt) as Hf.
      rewrite (Hz n ltac:(lia)) in Hf. discriminate. }
    assert (i = n) as -> by lia.
    destruct (decide (n < NumElements)%nat); [exact Hres | lia].
  - destruct (decide (n < NumElements)%nat) as [HnN|]; [|exact Hres].
    pose proof (Hall n HnN) as Hf. rewrite (Hz n ltac:(lia)) in Hf. discriminate.
Qed.

(** The three ways a write on a well-formed header ends. *)
Lemma WriteTimedBlock_cases (f : GPFile) (file : list byte) (ts : Z)
    (data : list byte) (n : nat) :
  prefix_used f n ->
  (ts ∈ timestamps f ->
     WriteTimedBlock f file ts data = (f, file, Err (ErrTimestampExists ts)))
  /\ (ts ∉ timestamps f -> n = NumElements ->
     WriteTimedBlock f file ts data = (f, file, Err ErrFileFull))
  /\ (ts ∉ timestamps f -> (n < NumElements)%nat ->
      comp_err (Compress (encoder f) data) = false ->
      exists f' file',
        WriteTimedBlock f file ts data = (f', file', Ok tt)
        /\ blocks f'
           = <[n := add (prev_offset f n) (comp_n (Compress (encoder f) data))]>
               (blocks f)
        /\ timestamps f' = <[n := ts]> (timestamps f)
        /\ lengths f' = <[n := Z.of_nat (length data)]> (lengths f)
        /\ BlocksUsed f = (Z.of_nat n, None)
        /\ BlocksUsed f'
           = if decide (n + 1 < NumElements)%nat then (Z.of_nat n + 1, None)
             else (-1, Some ErrNoBlockCount)).
Proof.
  intros Hpu. split; [|split].
  - intros Hin. apply list_elem_of_lookup in Hin. destruct Hin as [k Hk].
    rewrite WriteTimedBlock_works; cbv zeta.
    rewrite (scan_loop_exists f ts n Hpu NumElements 0 eq_refl ltac:(lia)).
    + reflexivity.
    + exists k. split; [lia | exact Hk].
  - intros Hnotin ->. rewrite WriteTimedBlock_works; cbv zeta.
    rewrite (scan_loop_free f ts NumElements Hpu).
    + destruct (decide (NumElements < NumElements)%nat); [lia | reflexivity].
    + intros k _ Hk. apply Hnotin. apply list_elem_of_lookup. eauto.
    + lia.
    + reflexivity.
    + lia.
  - intros Hnotin HnN Hc.
    assert (ts <> 0) as Hts.
    { intros ->. apply Hnotin. apply list_elem_of_lookup. exists n.
      exact (proj1 (pu_free f n Hpu n ltac:(lia))). }
    assert (prev_offset f n <> -1) as Hprev.
    { unfold prev_offset. pose proof BufSize_eq as HB.
      destruct (Nat.eqb n 0) eqn:En0; [rewrite HB; lia|].
      apply Nat.eqb_neq in En0.
      destruct (lookup_lt_is_Some_2 (blocks f) (n - 1)%nat
                  ltac:(rewrite (pu_blocks f n Hpu); lia)) as [b Eb].
      rewrite (list_lookup_total_correct _ _ _ Eb).
      pose proof (pu_offsets f n Hpu (n - 1)%nat b ltac:(lia) Eb). lia. }
    rewrite WriteTimedBlock_works; cbv zeta.
    rewrite (scan_loop_free f ts n Hpu) with (m := NumElements) (i := 0%nat).
    2:{ intros k _ Hk. apply Hnotin. apply list_elem_of_lookup. eauto. }
    2:{ intros _. exact Hts. }
    2:{ reflexivity. }
    2:{ lia. }
    destruct (decide (n < NumElements)%nat) as [_|]; [|lia].
    apply Z.eqb_neq in Hprev. rewrite Hprev, Hc.
    eexists. eexists. split; [reflexivity|].
    cbn [blocks timestamps lengths].
    split; [reflexivity|]. split; [reflexivity|]. split; [reflexivity|].
    split.
    + rewrite (BlocksUsed_prefix f n (pu_timestamps f n Hpu) (pu_n f n Hpu)
                 (pu_used f n Hpu) (pu_free f n Hpu)).
      destruct (decide (n < NumElements)%nat); [reflexivity | lia].
    + rewrite (BlocksUsed_prefix _ (n + 1)).
      * replace (Z.of_nat (n + 1)) with (Z.of_nat n + 1) by lia. reflexivity.
      * cbn [timestamps]. rewrite length_insert. exact (pu_timestamps f n Hpu).
      * lia.
      * cbn [timestamps]. intros i t Hi Et.
        destruct (decide (i = n)) as [-> | Hne].
        -- rewrite list_lookup_insert_eq in Et
             by (rewrite (pu_timestamps f n Hpu); lia).
           congruence.
        -- rewrite list_lookup_insert_ne in Et by lia.
           exact (pu_used f n Hpu i t ltac:(lia) Et).
      * cbn [timestamps blocks lengths]. intros i Hi.
        rewrite !list_lookup_insert_ne by lia.
        exact (pu_free f n Hpu i ltac:(lia)).
Qed.

(** C5 (as the code has it). On a GPFile whose header has its first [n]
    slots in use and the others free: WriteTimedBlock fails with the
    duplicate-timestamp error if the timestamp is in the header, with
    the file-full error if it is not and all 512 slots are in use, and
    otherwise, if the encoder reports no error, succeeds: slot [n] gets
    the new end offset, the timestamp and the length of the payload.
    BlocksUsed is [n] before; afterwards it is [n + 1], unless the
    write has taken the last slot: then BlocksUsed returns -1 and its
    error. *)
Theorem WriteTimedBlock_spec (f : GPFile) (file : list byte) (ts : Z)
    (data : list byte) (n : nat) :
  prefix_used f n ->
  (ts ∈ timestamps f ->
     WriteTimedBlock f file ts data = (f, file, Err (ErrTimestampExists ts)))
  /\ (ts ∉ timestamps f -> n = NumElements ->
     WriteTimedBlock f file ts data = (f, file, Err ErrFileFull))
  /\ (ts ∉ timestamps f -> (n < NumElements)%nat ->
      comp_err (Compress (encoder f) data) = false ->
      exists f' file',
        WriteTimedBlock f file ts data = (f', file', Ok tt)
        /\ blocks f'
           = <[n := add (prev_offset f n) (comp_n (Compress (encoder f) data))]>
               (blocks f)
        /\ timestamps f' = <[n := ts]> (timestamps f)
        /\ lengths f' = <[n := Z.of_nat (length data)]> (lengths f)
        /\ BlocksUsed f = (Z.of_nat n, None)
        /\ BlocksUsed f'
           = if decide (n + 1 < NumElements)%nat then (Z.of_nat n + 1, None)
             else (-1, Some ErrNoBlockCount)).
Proof. exact (WriteTimedBlock_cases f file ts data n). Qed.

Lemma prefix_used_empty (p : string) (enc : Encoder) :
  prefix_used (empty_GPFile p enc) 0.
Proof.
  split; cbn [blocks timestamps lengths empty_GPFile];
    try apply length_replicate; try lia.
  intros i Hi. rewrite !lookup_replicate_2 by lia. auto.
Qed.

Lemma WriteTimedBlock_spec_witness :
  exists f' file',
    WriteTimedBlock (empty_GPFile "db.gpf" null_encoder) empty_file 1000 [x01]
    = (f', file', Ok tt)
    /\ BlocksUsed (empty_GPFile "db.gpf" null_encoder) = (0, None)
    /\ BlocksUsed f' = (1, None).
Proof.
  destruct (WriteTimedBlock_spec (empty_GPFile "db.gpf" null_encoder)
              empty_file 1000 [x01] 0 (prefix_used_empty _ _))
    as (_ & _ & H).
  destruct H as (f' & file' & Hw & _ & _ & _ & Hbefore & Hafter).
  - cbn [timestamps empty_GPFile]. intros Hin.
    apply elem_of_replicate in Hin. destruct Hin as [Hin _]. discriminate Hin.
  - rewrite NumElements_eq. lia.
  - reflexivity.
  - exists f', file'. split; [exact Hw|]. split; [exact Hbefore|]. exact Hafter.
Defined.

(** A file with 511 of its 512 slots in use. *)
Definition almost_full_GPFile : GPFile :=
  {| blocks := map (fun i => Z.of_nat BufSize * 3 + Z.of_nat i + 1) (seq 0 511) ++ [0];
     timestamps := map (fun i => Z.of_nat i + 1) (seq 0 511) ++ [0];
     lengths := replicate 511 1 ++ [0];
     filename := "day.gpf";
     curFile := Some (BufSize * 3)%nat;
     wBuf := replicate (BufSize * 3) x00;
     lastSeekPos := 0;
     encoder := null_encoder |}.

Definition almost_full_file : list byte := empty_file ++ replicate 511 x01.

Lemma prefix_used_almost_full : prefix_used almost_full_GPFile 511.
Proof.
  pose proof BufSize_eq as HB.
  split; cbn [blocks timestamps lengths almost_full_GPFile].
  - rewrite length_app, length_map, length_seq. reflexivity.
  - rewrite length_app, length_map, length_seq. reflexivity.
  - rewrite length_app, length_replicate. reflexivity.
  - rewrite NumElements_eq. lia.
  - intros i t Hi Et.
    rewrite lookup_app_l in Et by (rewrite length_map, length_seq; lia).
    rewrite list_lookup_fmap, lookup_seq_lt in Et by lia.
    cbn [fmap option_fmap option_map] in Et.
    assert (t = Z.of_nat (0 + i) + 1) as -> by congruence. lia.
  - intros i Hi. rewrite NumElements_eq in Hi. assert (i = 511%nat) as -> by lia.
    rewrite !lookup_app_r
      by (rewrite ?length_map, ?length_seq, ?length_replicate; lia).
    rewrite ?length_map, ?length_seq, ?length_replicate.
    repeat split; reflexivity.
  - intros i b Hi Eb.
    rewrite lookup_app_l in Eb by (rewrite length_map, length_seq; lia).
    rewrite list_lookup_fmap, lookup_seq_lt in Eb by lia.
    cbn [fmap option_fmap option_map] in Eb.
    assert (b = Z.of_nat BufSize * 3 + Z.of_nat (0 + i) + 1) as -> by congruence.
    lia.
Qed.

(** C5, counterexample: the write that takes the last slot succeeds,
    and BlocksUsed goes from 511 to -1, not to 512. *)
Lemma BlocksUsed_after_last_slot :
  exists f' file',
    WriteTimedBlock almost_full_GPFile almost_full_file 1000 [x01] = (f', file', Ok tt)
    /\ BlocksUsed almost_full_GPFile = (511, None)
    /\ BlocksUsed f' = (-1, Some ErrNoBlockCount)
    /\ fst (BlocksUsed f') <> 511 + 1.
Proof.
  destruct (WriteTimedBlock_cases almost_full_GPFile almost_full_file 1000 [x01] 511
              prefix_used_almost_full) as (_ & _ & H).
  destruct H as (f' & file' & Hw & _ & _ & _ & Hbefore & Hafter).
  - cbn [timestamps almost_full_GPFile]. intros Hin.
    apply elem_of_app in Hin. destruct Hin as [Hin | Hin].
    + apply list_elem_of_fmap in Hin. destruct Hin as (i & Hi & Hin).
      apply elem_of_seq in Hin. lia.
    + apply list_elem_of_singleton in Hin. discriminate Hin.
  - rewrite NumElements_eq. lia.
  - reflexivity.
  - exists f', file'.
    destruct (decide (511 + 1 < NumElements)%nat) as [Hlt|_];
      [rewrite NumElements_eq in Hlt; lia|].
    split; [exact Hw|]. split; [exact Hbefore|]. split; [exact Hafter|].
    rewrite Hafter. cbn [fst]. lia.
Qed.


(** ** Reading a block *)

(** Where block [block] starts: the end of the block before it, or the
    end of the header. *)
Definition block_start (f : GPFile) (block : nat) : option Z :=
  if Nat.eqb block 0 then Some (Z.of_nat BufSize * 3)
  else blocks f !! (block - 1)%nat.

(** A read that gets as far as the call of [Decompress]: the seek, if
    there is one, succeeds and [make] accepts the two lengths. *)
Lemma ReadBlock_reaches (f : GPFile) (file : list byte) (block : nat)
    (t b l seekPos : Z) :
  timestamps f !! block = Some t ->
  blocks f !! block = Some b ->
  lengths f !! block = Some l ->
  (t =? 0) && (b =? 0) && (l =? 0) = false ->
  block_start f block = Some seekPos ->
  seekPos = lastSeekPos f \/ 0 <= seekPos ->
  0 <= sub b seekPos <= maxAlloc ->
  0 <= l <= maxAlloc ->
  let readLen := sub b seekPos in
  let pos := if seekPos =? lastSeekPos f then default O (curFile f)
             else Z.to_nat seekPos in
  let r := Decompress (encoder f) (Z.to_nat readLen)
             (replicate (Z.to_nat l) x00) (drop pos file) in
  ReadBlock f file block
  = ({| blocks := blocks f; timestamps := timestamps f; lengths := lengths f;
        filename := filename f; curFile := Some (pos + dec_consumed r)%nat;
        wBuf := wBuf f; lastSeekPos := seekPos; encoder := encoder f |},
     if dec_n r =? readLen then Ok (dec_out r) else Err ErrIncorrectBytes).
Proof.
  intros Et Eb El Hused Hstart Hseek Hlen Hl readLen pos r.
  unfold ReadBlock. rewrite Et, Eb, El, Hused.
  unfold block_start in Hstart. rewrite Hstart.
  assert (negb (seekPos =? lastSeekPos f) && (seekPos <? 0) = false) as ->.
  { destruct Hseek as [-> | Hpos].
    - rewrite Z.eqb_refl. reflexivity.
    - apply andb_false_iff. right. apply Z.ltb_ge. exact Hpos. }
  assert (make_panics (sub b seekPos) || make_panics l = false) as ->.
  { unfold make_panics. repeat (apply orb_false_iff; split);
      first [apply Z.ltb_ge; lia]. }
  assert ((if negb (seekPos =? lastSeekPos f) then Z.to_nat seekPos
           else match curFile f with Some p => p | None => O end) = pos) as ->.
  { unfold pos. destruct (seekPos =? lastSeekPos f), (curFile f); reflexivity. }
  assert ((if negb (seekPos =? lastSeekPos f) then seekPos else lastSeekPos f)
          = seekPos) as ->.
  { destruct (seekPos =? lastSeekPos f) eqn:E; [|reflexivity].
    apply Z.eqb_eq in E. symmetry. exact E. }
  fold readLen. fold r.
  destruct (dec_n r =? readLen); reflexivity.
Qed.

(** The call of [Decompress] that [ReadBlock] makes, and what the check
    after it does. *)
Lemma ReadBlock_check (f : GPFile) (file : list byte) (block : nat)
    (t b l seekPos : Z) :
  timestamps f !! block = Some t ->
  blocks f !! block = Some b ->
  lengths f !! block = Some l ->
  (t =? 0) && (b =? 0) && (l =? 0) = false ->
  block_start f block = Some seekPos ->
  seekPos = lastSeekPos f \/ 0 <= seekPos ->
  0 <= sub b seekPos <= maxAlloc ->
  0 <= l <= maxAlloc ->
  let readLen := sub b seekPos in
  let pos := if seekPos =? lastSeekPos f then default O (curFile f)
             else Z.to_nat seekPos in
  let r := Decompress (encoder f) (Z.to_nat readLen)
             (replicate (Z.to_nat l) x00) (drop pos file) in
  (snd (ReadBlock f file block) = Err ErrIncorrectBytes <-> dec_n r <> readLen)
  /\ (dec_n r = readLen ->
      snd (ReadBlock f file block) = Ok (dec_out r)
      /\ Z.of_nat (length (dec_out r)) = l).
Proof.
  intros Et Eb El Hused Hstart Hseek Hlen Hl readLen pos r.
  rewrite (ReadBlock_reaches f file block t b l seekPos Et Eb El Hused Hstart
             Hseek Hlen Hl).
  fold readLen. fold pos. fold r. cbn [snd].
  destruct (dec_n r =? readLen) eqn:E.
  - apply Z.eqb_eq in E. split.
    + split; [intros H; discriminate H | intros H; contradiction].
    + intros _. split; [reflexivity|].
      unfold r. rewrite Decompress_out_length, length_replicate. lia.
  - apply Z.eqb_neq in E. split.
    + split; [intros _; exact E | reflexivity].
    + intros H. contradiction.
Qed.

(** C4 (as the code has it). For a block in use whose read reaches the
    decompression (the seek succeeds; the length of the compressed
    block and the declared length are not negative and not above the
    allocation limit of [make]), ReadBlock fails with "Incorrect number
    of bytes read for decompression" if and only if the count that the
    encoder's Decompress returns differs from the length of the
    compressed block, [blocks[i] - blocks[i-1]] (or [blocks[0] - 12288]);
    the declared uncompressed length [lengths[i]] is the size of the
    buffer, and on success the buffer returned has exactly that
    length. *)
Theorem ReadBlock_spec (f : GPFile) (file : list byte) (block : nat)
    (t b l seekPos : Z) :
  timestamps f !! block = Some t ->
  blocks f !! block = Some b ->
  lengths f !! block = Some l ->
  (t =? 0) && (b =? 0) && (l =? 0) = false ->
  block_start f block = Some seekPos ->
  seekPos = lastSeekPos f \/ 0 <= seekPos ->
  0 <= sub b seekPos <= maxAlloc ->
  0 <= l <= maxAlloc ->
  let readLen := sub b seekPos in
  let pos := if seekPos =? lastSeekPos f then default O (curFile f)
             else Z.to_nat seekPos in
  let r := Decompress (encoder f) (Z.to_nat readLen)
             (replicate (Z.to_nat l) x00) (drop pos file) in
  (snd (ReadBlock f file block) = Err ErrIncorrectBytes <-> dec_n r <> readLen)
  /\ (dec_n r = readLen ->
      snd (ReadBlock f file block) = Ok (dec_out r)
      /\ Z.of_nat (length (dec_out r)) = l).
Proof. exact (ReadBlock_check f file block t b l seekPos). Qed.

Definition five_bytes : list byte := [x01; x02; x03; x04; x05].

Definition three_bytes : list byte := [x01; x02; x03].

(** The header of a file with one block, of timestamp 1000: the block
    ends three bytes after the header, and five bytes are declared as
    its uncompressed length. *)
Definition crafted_blocks : list Z :=
  <[0%nat := Z.of_nat BufSize * 3 + 3]> (replicate NumElements 0).
Definition crafted_timestamps : list Z := <[0%nat := 1000]> (replicate NumElements 0).
Definition crafted_lengths : list Z := <[0%nat := 5]> (replicate NumElements 0).

(** Reading the block of such a file, with the data stored as it is:
    three bytes are read and copied to the buffer of five. *)
Lemma ReadBlock_three_of_five (g : GPFile) (file : list byte) :
  blocks g = crafted_blocks -> timestamps g = crafted_timestamps ->
  lengths g = crafted_lengths ->
  lastSeekPos g = 0 -> encoder g = null_encoder ->
  drop (BufSize * 3) file = three_bytes ->
  snd (ReadBlock g file 0) = Ok (three_bytes ++ [x00; x00]).
Proof.
  intros Eb Et El Elast Eenc Hdrop.
  pose proof NumElements_eq as HN. pose proof BufSize_eq as HB.
  assert (0 < length (replicate NumElements 0))%nat as Hlen
    by (rewrite length_replicate, HN; lia).
  assert (blocks g !! 0%nat = Some (Z.of_nat BufSize * 3 + 3)) as Eb0
    by (rewrite Eb; apply list_lookup_insert_eq; exact Hlen).
  assert (timestamps g !! 0%nat = Some 1000) as Et0
    by (rewrite Et; apply list_lookup_insert_eq; exact Hlen).
  assert (lengths g !! 0%nat = Some 5) as El0
    by (rewrite El; apply list_lookup_insert_eq; exact Hlen).
  assert (sub (Z.of_nat BufSize * 3 + 3) (Z.of_nat BufSize * 3) = 3) as Hsub
    by reflexivity.
  assert (0 <= Z.of_nat BufSize * 3) as Hpos by lia.
  pose proof (ReadBlock_check g file 0 1000 (Z.of_nat BufSize * 3 + 3) 5
                (Z.of_nat BufSize * 3) Et0 Eb0 El0 eq_refl eq_refl
                (or_intror Hpos)) as Hread.
  rewrite Hsub in Hread.
  specialize (Hread ltac:(unfold maxAlloc; lia) ltac:(unfold maxAlloc; lia)).
  cbv zeta in Hread. rewrite Elast, Eenc in Hread.
  change (Z.of_nat BufSize * 3 =? 0) with false in Hread.
  change (Z.to_nat (Z.of_nat BufSize * 3)) with (BufSize * 3)%nat in Hread.
  change (Z.to_nat 3) with 3%nat in Hread. change (Z.to_nat 5) with 5%nat in Hread.
  cbv iota in Hread. rewrite Hdrop in Hread.
  destruct Hread as [_ Hread].
  destruct (Hread eq_refl) as [Hres _].
  rewrite Hres. reflexivity.
Qed.

(** C4, counterexample: a file with that header, followed by the block
    that Compress writes for three bytes. The decompressed size, three,
    differs from the declared length, five, and ReadBlock on the GPFile
    that has opened the file does not fail: it returns the three bytes
    in a buffer of five. *)
Lemma ReadBlock_ok_declared_length_differs :
  exists file g,
    NewGPFile "db.gpf" null_encoder (Some file) = (Ok g, Some file)
    /\ timestamps g !! 0%nat = Some 1000
    /\ lengths g !! 0%nat = Some 5
    /\ drop (BufSize * 3) file = comp_written (Compress null_encoder three_bytes)
    /\ Z.of_nat (length three_bytes) = 3
    /\ snd (ReadBlock g file 0) = Ok (three_bytes ++ [x00; x00])
    /\ ~ (snd (ReadBlock g file 0) = Err ErrIncorrectBytes
          <-> Z.of_nat (length three_bytes) <> 5).
Proof.
  pose proof NumElements_eq as HN. pose proof BufSize_eq as HB.
  assert (forall v, in_range v ->
            Forall in_range (<[0%nat := v]> (replicate NumElements 0))) as Hrange.
  { intros v Hv. apply Forall_insert; [|exact Hv].
    apply Forall_replicate. unfold in_range. lia. }
  pose proof (NewGPFile_reads_header "db.gpf" null_encoder crafted_blocks
                crafted_timestamps crafted_lengths (replicate (BufSize * 3) x00)
                (comp_written (Compress null_encoder three_bytes))) as Hopen.
  cbv zeta in Hopen.
  assert (drop (BufSize * 3)
            (header_loop crafted_blocks crafted_timestamps crafted_lengths
               NumElements 0 0 (replicate (BufSize * 3) x00)
             ++ comp_written (Compress null_encoder three_bytes))
          = three_bytes) as Hdrop.
  { rewrite drop_app_length'
      by (rewrite header_loop_length, length_replicate; reflexivity).
    reflexivity. }
  remember (header_loop crafted_blocks crafted_timestamps crafted_lengths
              NumElements 0 0 (replicate (BufSize * 3) x00)
            ++ comp_written (Compress null_encoder three_bytes)) as file eqn:Efile.
  clear Efile.
  destruct Hopen as (g & Hg & Eb & Et & El & _ & Elast & Eenc & _).
  - unfold crafted_blocks. rewrite length_insert. apply length_replicate.
  - unfold crafted_timestamps. rewrite length_insert. apply length_replicate.
  - unfold crafted_lengths. rewrite length_insert. apply length_replicate.
  - apply Hrange. unfold in_range. rewrite HB. lia.
  - apply Hrange. unfold in_range. lia.
  - apply Hrange. unfold in_range. lia.
  - apply length_replicate.
  - exists file, g.
    assert (0 < length (replicate NumElements 0))%nat as Hlen
      by (rewrite length_replicate, HN; lia).
    pose proof (ReadBlock_three_of_five g file Eb Et El Elast Eenc Hdrop) as Hok.
    split; [exact Hg|].
    split; [rewrite Et; apply list_lookup_insert_eq; exact Hlen|].
    split; [rewrite El; apply list_lookup_insert_eq; exact Hlen|].
    split; [exact Hdrop|]. split; [reflexivity|]. split; [exact Hok|].
    rewrite Hok. intros [_ H].
    assert (Z.of_nat (length three_bytes) <> 5) as Hne
      by (cbn [length three_bytes]; lia).
    discriminate (H Hne).
Qed.

(** A GPFile that holds one block of five bytes, stored as they are, and
    has not read yet. *)
Definition one_block_null_GPFile : GPFile :=
  {| blocks := <[0%nat := Z.of_nat BufSize * 3 + 5]> (replicate NumElements 0);
     timestamps := <[0%nat := 1000]> (replicate NumElements 0);
     lengths := <[0%nat := 5]> (replicate NumElements 0);
     filename := "db.gpf";
     curFile := Some (BufSize * 3)%nat;
     wBuf := replicate (BufSize * 3) x00;
     lastSeekPos := 0;
     encoder := null_encoder |}.

Lemma ReadBlock_spec_witness :
  snd (ReadBlock one_block_null_GPFile (empty_file ++ five_bytes) 0)
  = Ok five_bytes.
Proof.
  destruct (ReadBlock_spec one_block_null_GPFile (empty_file ++ five_bytes) 0
              1000 (Z.of_nat BufSize * 3 + 5) 5 (Z.of_nat BufSize * 3))
    as [_ H].
  - reflexivity.
  - reflexivity.
  - reflexivity.
  - reflexivity.
  - reflexivity.
  - right. lia.
  - assert (sub (Z.of_nat BufSize * 3 + 5) (Z.of_nat BufSize * 3) = 5) as ->
      by reflexivity. unfold maxAlloc. lia.
  - unfold maxAlloc. lia.
  - destruct H as [H _]; [vm_compute; reflexivity|].
    rewrite H. vm_compute. reflexivity.
Defined.

End GPFileSpec.

(* ===================================================================== *)
(** * The block file: writing blocks and reading them back                *)
(* ===================================================================== *)

Module RoundTripSpec.
Import Int64 Int64Facts CodecFacts GPFile HeaderFacts GPFileSpec.


(** A payload of at most 2^31 bytes. *)
Definition payload_ok (data : list byte) : Prop := Z.of_nat (length data) <= 2 ^ 31.

(** What a lossless encoder does on such payloads: [Compress] reports
    no error and returns the number of bytes it has written, at most
    2^32 of them; [Decompress], given as many input bytes as were
    written and an output buffer of the payload's length, restores the
    payload and returns the number of input bytes. *)
Class Lossless (enc : Encoder) : Prop := {
  compress_no_error : forall data,
    payload_ok data -> comp_err (Compress enc data) = false;
  compress_count : forall data,
    payload_ok data ->
    comp_n (Compress enc data) = Z.of_nat (length (comp_written (Compress enc data)));
  compress_bound : forall data,
    payload_ok data ->
    Z.of_nat (length (comp_written (Compress enc data))) <= 2 ^ 32;
  decompress_inverse : forall data rest,
    payload_ok data ->
    dec_n (Decompress enc (length (comp_written (Compress enc data)))
             (replicate (length data) x00)
             (comp_written (Compress enc data) ++ rest))
    = Z.of_nat (length (comp_written (Compress enc data)))
    /\ dec_out (Decompress enc (length (comp_written (Compress enc data)))
                  (replicate (length data) x00)
                  (comp_written (Compress enc data) ++ rest))
       = data
}.

(** [WriteTimedBlock] for each entry of [log], in order, stopping at
    the first failure. *)
Fixpoint write_all (f : GPFile) (file : list byte) (log : list (Z * list byte))
  : GPFile * list byte * result unit :=
  match log with
  | [] => (f, file, Ok tt)
  | (ts, data) :: rest =>
      match WriteTimedBlock f file ts data with
      | (f', file', Ok _) => write_all f' file' rest
      | failed => failed
      end
  end.

(** Where block [i] starts in a file that holds the blocks [cs]. *)
Definition start_of (cs : list (list byte)) (i : nat) : nat :=
  (BufSize * 3 + length (concat (take i cs)))%nat.

Lemma start_of_S (cs : list (list byte)) (i : nat) (c : list byte) :
  cs !! i = Some c -> start_of cs (S i) = (start_of cs i + length c)%nat.
Proof.
  intros Hc. unfold start_of. rewrite (take_S_r cs i c Hc).
  rewrite concat_app, length_app. cbn [concat]. rewrite app_nil_r. lia.
Qed.

Lemma start_of_app (cs cs' : list (list byte)) (i : nat) :
  (i <= length cs)%nat -> start_of (cs ++ cs') i = start_of cs i.
Proof. intros Hi. unfold start_of. rewrite take_app_le by exact Hi. reflexivity. Qed.

Lemma concat_length_bound (cs : list (list byte)) :
  Forall (fun c => Z.of_nat (length c) <= 2 ^ 32) cs ->
  Z.of_nat (length (concat cs)) <= Z.of_nat (length cs) * 2 ^ 32.
Proof.
  induction 1 as [|c cs Hc _ IH]; cbn [concat length]; [lia|].
  rewrite length_app. lia.
Qed.

Lemma start_of_bound (cs : list (list byte)) (i : nat) :
  Forall (fun c => Z.of_nat (length c) <= 2 ^ 32) cs ->
  Z.of_nat (BufSize * 3) <= Z.of_nat (start_of cs i)
  /\ Z.of_nat (start_of cs i) <= Z.of_nat (BufSize * 3) + Z.of_nat (length cs) * 2 ^ 32.
Proof.
  intros Hcs. unfold start_of.
  assert (Forall (fun c => Z.of_nat (length c) <= 2 ^ 32) (take i cs)) as Ht
    by (apply Forall_take; exact Hcs).
  pose proof (concat_length_bound (take i cs) Ht) as Hb.
  rewrite length_take in Hb. lia.
Qed.

Lemma drop_start_of (hdr : list byte) (cs : list (list byte)) (i : nat)
    (c : list byte) :
  length hdr = (BufSize * 3)%nat -> cs !! i = Some c ->
  drop (start_of cs i) (hdr ++ concat cs) = c ++ concat (drop (S i) cs).
Proof.
  intros Hhdr Hc. unfold start_of. rewrite <- Hhdr.
  rewrite drop_app_add'  by reflexivity.
  rewrite <- (take_drop i cs) at 2. rewrite concat_app.
  rewrite drop_app_length. rewrite (drop_S cs c i Hc). reflexivity.
Qed.

Section RoundTrip.
Context (enc : Encoder) `{!Lossless enc}.

(** What an entry of the log must satisfy: a nonzero [int64]
    timestamp and a payload of at most 2^31 bytes. *)
Definition entry_ok (e : Z * list byte) : Prop :=
  fst e <> 0 /\ in_range (fst e) /\ payload_ok (snd e).

Definition compressed (e : Z * list byte) : list byte :=
  comp_written (Compress enc (snd e)).

(** The file object [f] and the file [file] hold the entries [done],
    in this order, and nothing else. *)
Record Stored (f : GPFile) (file : list byte) (done : list (Z * list byte))
  : Prop := {
  st_arrays : arrays_ok f;
  st_encoder : encoder f = enc;
  st_count : (length done <= NumElements)%nat;
  st_used : forall i ts data,
    done !! i = Some (ts, data) ->
    timestamps f !! i = Some ts
    /\ lengths f !! i = Some (Z.of_nat (length data))
    /\ blocks f !! i = Some (Z.of_nat (start_of (map compressed done) (S i)));
  st_free : forall i,
    (length done <= i < NumElements)%nat ->
    timestamps f !! i = Some 0 /\ blocks f !! i = Some 0 /\ lengths f !! i = Some 0;
  st_file : exists w,
    length w = (BufSize * 3)%nat
    /\ file = header_loop (blocks f) (timestamps f) (lengths f) NumElements 0 0 w
              ++ concat (map compressed done)
}.

Lemma compressed_bound (done : list (Z * list byte)) :
  Forall entry_ok done ->
  Forall (fun c => Z.of_nat (length c) <= 2 ^ 32) (map compressed done).
Proof.
  intros H. apply Forall_fmap. eapply Forall_impl; [exact H|].
  intros e (_ & _ & He). exact (compress_bound (snd e) He).
Qed.

Lemma Stored_prefix_used f file done :
  Stored f file done -> Forall entry_ok done -> prefix_used f (length done).
Proof.
  intros Hst Hok. pose proof (st_arrays _ _ _ Hst) as Harr.
  split.
  - exact (blocks_length f Harr).
  - exact (timestamps_length f Harr).
  - exact (lengths_length f Harr).
  - exact (st_count _ _ _ Hst).
  - intros i t Hi Et.
    destruct (lookup_lt_is_Some_2 done i Hi) as [[ts data] He].
    destruct (st_used _ _ _ Hst i ts data He) as (Et' & _).
    assert (t = ts) as -> by congruence.
    exact (proj1 (proj1 (Forall_lookup _ _) Hok i _ He)).
  - exact (st_free _ _ _ Hst).
  - intros i b Hi Eb.
    destruct (lookup_lt_is_Some_2 done i Hi) as [[ts data] He].
    destruct (st_used _ _ _ Hst i ts data He) as (_ & _ & Eb').
    assert (b = Z.of_nat (start_of (map compressed done) (S i))) as ->
      by congruence.
    unfold start_of. lia.
Qed.

Lemma Stored_not_in f file done ts :
  Stored f file done -> ts <> 0 -> ts ∉ map fst done -> ts ∉ timestamps f.
Proof.
  intros Hst Hts Hnot Hin.
  apply list_elem_of_lookup in Hin. destruct Hin as [k Hk].
  pose proof (lookup_lt_Some _ _ _ Hk) as HkN.
  rewrite (timestamps_length f (st_arrays _ _ _ Hst)) in HkN.
  destruct (decide (k < length done)%nat) as [Hlt | Hge].
  - destruct (lookup_lt_is_Some_2 done k Hlt) as [[ts' data] He].
    destruct (st_used _ _ _ Hst k ts' data He) as (Et & _).
    assert (ts' = ts) as -> by congruence.
    apply Hnot. apply list_elem_of_lookup. exists k.
    rewrite list_lookup_fmap, He. reflexivity.
  - destruct (st_free _ _ _ Hst k ltac:(lia)) as (E0 & _). congruence.
Qed.

Lemma prev_offset_Stored f file done :
  Stored f file done ->
  prev_offset f (length done)
  = Z.of_nat (start_of (map compressed done) (length done)).
Proof.
  intros Hst. unfold prev_offset.
  destruct (Nat.eqb (length done) 0) eqn:E0.
  - apply Nat.eqb_eq in E0. rewrite E0. unfold start_of.
    rewrite take_0. cbn [concat length]. lia.
  - apply Nat.eqb_neq in E0.
    destruct (lookup_lt_is_Some_2 done (length done - 1)%nat ltac:(lia))
      as [[ts data] He].
    destruct (st_used _ _ _ Hst _ ts data He) as (_ & _ & Eb).
    rewrite (list_lookup_total_correct _ _ _ Eb).
    replace (S (length done - 1)) with (length done) by lia. reflexivity.
Qed.

(** One more block. *)
Lemma write_step f file done ts data :
  Stored f file done -> Forall entry_ok done ->
  ts ∉ map fst done -> entry_ok (ts, data) ->
  (length done < NumElements)%nat ->
  exists f' file',
    WriteTimedBlock f file ts data = (f', file', Ok tt)
    /\ Stored f' file' (done ++ [(ts, data)])
    /\ lastSeekPos f' = lastSeekPos f.
Proof.
  intros Hst Hok Hnot (Hts & Hrange & Hpay) Hn. cbn [fst snd] in *.
  pose proof (Stored_prefix_used f file done Hst Hok) as Hpu.
  pose proof (st_arrays _ _ _ Hst) as Harr.
  pose proof (st_encoder _ _ _ Hst) as Henc.
  destruct (WriteTimedBlock_cases f file ts data (length done) Hpu)
    as (_ & _ & Hwrite).
  destruct Hwrite as (f' & file' & Hw & Eb & Et & El & _).
  { exact (Stored_not_in f file done ts Hst Hts Hnot). }
  { exact Hn. }
  { rewrite Henc. exact (compress_no_error data Hpay). }
  exists f', file'. split; [exact Hw|].
  destruct (WriteTimedBlock_Ok _ _ _ _ _ _ Hw)
    as (_ & _ & _ & _ & _ & _ & _ & _ & Ew & _ & _ & Elast & Eenc & _).
  split; [|exact Elast].
  assert (in_range (Z.of_nat (length data))) as Hlen.
  { unfold in_range, payload_ok in *. lia. }
  pose proof (arrays_ok_write _ _ _ _ _ _ Harr Hrange Hlen Hw) as Harr'.
  set (c := comp_written (Compress enc data)).
  assert (map compressed (done ++ [(ts, data)]) = map compressed done ++ [c]) as Ecs.
  { rewrite map_app. reflexivity. }
  assert (length (map compressed done) = length done) as Hlcs by apply length_map.
  split.
  - exact Harr'.
  - rewrite Eenc. exact Henc.
  - rewrite length_app. cbn [length]. lia.
  - intros i ts' data' He. rewrite Ecs.
    destruct (decide (i < length done)%nat) as [Hlt | Hge].
    + rewrite lookup_app_l in He by exact Hlt.
      destruct (st_used _ _ _ Hst i ts' data' He) as (Et' & El' & Eb').
      rewrite Et, El, Eb, !list_lookup_insert_ne by lia.
      rewrite start_of_app by lia. auto.
    + assert (i = length done) as ->.
      { apply lookup_lt_Some in He. rewrite length_app in He.
        cbn [length] in He. lia. }
      rewrite lookup_app_r, Nat.sub_diag in He by lia.
      cbn in He. assert (ts' = ts /\ data' = data) as [-> ->].
      { split; congruence. }
      rewrite Et, El, Eb.
      rewrite !list_lookup_insert_eq
        by (rewrite ?(blocks_length f Harr), ?(timestamps_length f Harr),
              ?(lengths_length f Harr); lia).
      split; [reflexivity|]. split; [reflexivity|]. f_equal.
      rewrite (prev_offset_Stored f file done Hst), Henc.
      rewrite (compress_count data Hpay). fold c.
      rewrite (start_of_S (map compressed done ++ [c]) (length done) c).
      2:{ rewrite lookup_app_r, Hlcs, Nat.sub_diag by lia. reflexivity. }
      rewrite start_of_app by lia.
      unfold add. rewrite wrap_small; [lia|].
      destruct (start_of_bound (map compressed done) (length done)
                  (compressed_bound done Hok)) as [Hlo Hhi].
      pose proof (compress_bound data Hpay) as Hc. fold c in Hc.
      rewrite Hlcs in Hhi. pose proof BufSize_eq as HB.
      pose proof NumElements_eq as HN.
      unfold in_range. rewrite HB in *. nia.
  - intros i Hi. rewrite length_app in Hi. cbn [length] in Hi.
    rewrite Et, El, Eb, !list_lookup_insert_ne by lia.
    exact (st_free _ _ _ Hst i ltac:(lia)).
  - exists (wBuf f). split; [exact (wBuf_length f Harr)|].
    destruct (WriteTimedBlock_file _ _ _ _ _ _ Harr Hw) as [Efile _].
    rewrite Efile, Ew, Henc. fold c.
    destruct (st_file _ _ _ Hst) as (w & Hw0 & Efile0).
    rewrite Efile0, Ecs, concat_app. cbn [concat]. rewrite app_nil_r.
    rewrite <- app_assoc.
    rewrite drop_app_length' by (rewrite header_loop_length; symmetry; exact Hw0).
    reflexivity.
Qed.

(** The search of [ReadTimedBlock] stops at the first slot with the
    timestamp. *)
Lemma ReadTimedBlock_loop_at f file ts k :
  timestamps f !! k = Some ts ->
  (forall j t, (j < k)%nat -> timestamps f !! j = Some t -> t <> ts) ->
  forall m i, (i <= k)%nat -> (k < i + m)%nat ->
  ReadTimedBlock_loop f file ts m i = ReadBlock f file k.
Proof.
  intros Hk Hbefore. induction m as [|m IH]; intros i Hik Hkm; [lia|].
  cbn [ReadTimedBlock_loop].
  destruct (decide (i = k)) as [-> | Hne].
  - rewrite Hk, Z.eqb_refl. reflexivity.
  - destruct (timestamps f !! i) as [t|] eqn:Et.
    + assert ((t =? ts) = false) as ->.
      { apply Z.eqb_neq. exact (Hbefore i t ltac:(lia) Et). }
      apply IH; lia.
    + apply lookup_ge_None in Et. apply lookup_lt_Some in Hk. lia.
Qed.

(** Reading a stored block through a handle that has not read yet. *)
Lemma read_stored f file done k ts data :
  Stored f file done -> lastSeekPos f = 0 ->
  Forall entry_ok done -> NoDup (map fst done) ->
  done !! k = Some (ts, data) ->
  snd (ReadTimedBlock f file ts) = Ok data.
Proof.
  intros Hst Hlast Hok Hnodup He.
  pose proof (st_arrays _ _ _ Hst) as Harr.
  destruct (st_used _ _ _ Hst k ts data He) as (Et & El & Eb).
  pose proof (lookup_lt_Some _ _ _ He) as Hk.
  pose proof (st_count _ _ _ Hst) as Hcount.
  destruct (proj1 (Forall_lookup _ _) Hok k _ He) as (Hts & _ & Hpay).
  cbn [fst snd] in Hts, Hpay.
  unfold ReadTimedBlock.
  rewrite (ReadTimedBlock_loop_at f file ts k Et); [| | lia | lia].
  2:{ intros j t Hj Ej ->.
      destruct (lookup_lt_is_Some_2 done j ltac:(lia)) as [[tj dj] Hej].
      destruct (st_used _ _ _ Hst j tj dj Hej) as (Ej' & _).
      assert (tj = ts) as -> by congruence.
      assert (j = k); [|lia].
      apply (NoDup_lookup (map fst done) j k ts Hnodup).
      - rewrite list_lookup_fmap, Hej. reflexivity.
      - rewrite list_lookup_fmap, He. reflexivity. }
  set (cs := map compressed done) in *.
  set (c := comp_written (Compress enc data)).
  assert (cs !! k = Some c) as Hc.
  { unfold cs. rewrite list_lookup_fmap, He. reflexivity. }
  pose proof (compressed_bound done Hok) as Hcs. fold cs in Hcs.
  destruct (start_of_bound cs k Hcs) as [Hlo _].
  pose proof (compress_bound data Hpay) as Hcb. fold c in Hcb.
  pose proof BufSize_eq as HB.
  assert (sub (Z.of_nat (start_of cs (S k))) (Z.of_nat (start_of cs k))
          = Z.of_nat (length c)) as Hsub.
  { rewrite (start_of_S cs k c Hc). unfold sub.
    rewrite wrap_small; [lia | unfold in_range; lia]. }
  destruct (st_file _ _ _ Hst) as (w & Hw & Efile). fold cs in Efile.
  destruct (decompress_inverse data (concat (drop (S k) cs)) Hpay) as [Hn Hout].
  fold c in Hn, Hout.
  assert ((ts =? 0) && (Z.of_nat (start_of cs (S k)) =? 0)
          && (Z.of_nat (length data) =? 0) = false) as Hused.
  { apply Z.eqb_neq in Hts. rewrite Hts. reflexivity. }
  assert (block_start f k = Some (Z.of_nat (start_of cs k))) as Hstart.
  { unfold block_start. destruct (Nat.eqb k 0) eqn:Ek0.
    - apply Nat.eqb_eq in Ek0. subst k. unfold start_of.
      rewrite take_0. cbn [concat length]. f_equal; lia.
    - apply Nat.eqb_neq in Ek0.
      destruct (lookup_lt_is_Some_2 done (k - 1)%nat ltac:(lia))
        as [[tp dp] Hp].
      destruct (st_used _ _ _ Hst _ tp dp Hp) as (_ & _ & Ebp).
      fold cs in Ebp. rewrite Ebp.
      replace (S (k - 1)) with k by lia. reflexivity. }
  assert ((Z.of_nat (start_of cs k) =? 0) = false) as Hne0.
  { apply Z.eqb_neq. rewrite HB in Hlo. lia. }
  pose proof (ReadBlock_check f file k ts
                (Z.of_nat (start_of cs (S k))) (Z.of_nat (length data))
                (Z.of_nat (start_of cs k)) Et Eb El Hused Hstart
                (or_intror (Nat2Z.is_nonneg _))) as Hread.
  rewrite Hsub in Hread.
  specialize (Hread ltac:(unfold maxAlloc; lia)
                ltac:(unfold maxAlloc; unfold payload_ok in Hpay; lia)).
  cbv zeta in Hread. rewrite Hlast, Hne0, !Nat2Z.id in Hread.
  rewrite (st_encoder _ _ _ Hst) in Hread.
  assert (drop (start_of cs k) file = c ++ concat (drop (S k) cs)) as Hdrop.
  { rewrite Efile. apply drop_start_of; [|exact Hc].
    rewrite header_loop_length. exact Hw. }
  rewrite Hdrop in Hread.
  destruct Hread as [_ Hread].
  destruct (Hread Hn) as [Hres _]. rewrite Hres, Hout. reflexivity.
Qed.

(** Opening the file again gives a file object that holds the same
    entries and has not read yet. *)
Lemma reopen_stored (p : string) f file done :
  Stored f file done ->
  exists g,
    NewGPFile p enc (Some file) = (Ok g, Some file)
    /\ Stored g file done /\ lastSeekPos g = 0.
Proof.
  intros Hst. pose proof (st_arrays _ _ _ Hst) as [Hb Ht Hl Rb Rt Rl Hw].
  destruct (st_file _ _ _ Hst) as (w & Hw0 & Efile).
  destruct (NewGPFile_reads_header p enc (blocks f) (timestamps f) (lengths f)
              w (concat (map compressed done)) Hb Ht Hl Rb Rt Rl Hw0)
    as (g & Hg & Eb & Et & El & _ & Elast & Eenc & Hwg).
  rewrite <- Efile in Hg.
  exists g. split; [exact Hg|]. split; [|exact Elast].
  split.
  - split; rewrite ?Eb, ?Et, ?El; assumption.
  - exact Eenc.
  - exact (st_count _ _ _ Hst).
  - rewrite Eb, Et, El. exact (st_used _ _ _ Hst).
  - rewrite Eb, Et, El. exact (st_free _ _ _ Hst).
  - exists w. rewrite Eb, Et, El. split; [exact Hw0 | exact Efile].
Qed.

Lemma header_loop_zero :
  header_loop (replicate NumElements 0) (replicate NumElements 0)
    (replicate NumElements 0) NumElements 0 0 (replicate (BufSize * 3) x00)
  = replicate (BufSize * 3) x00.
Proof.
  pose proof BufSize_eq as HB. pose proof NumElements_eq as HN.
  assert (forall k, (k < BufSize)%nat -> header_byte (replicate NumElements 0) k = x00)
    as Hzero.
  { intros k Hk. unfold header_byte.
    rewrite lookup_total_replicate_2.
    - unfold shr. rewrite Z.shiftr_0_l. reflexivity.
    - rewrite HN. rewrite HB in Hk.
      apply Nat.Div0.div_lt_upper_bound. lia. }
  apply list_eq. intros i.
  destruct (decide (i < BufSize * 3)%nat) as [Hi | Hi].
  - rewrite lookup_replicate_2 by exact Hi.
    destruct (decide (i < BufSize)%nat) as [H1 | H1].
    + destruct (header_loop_full (replicate NumElements 0) (replicate NumElements 0)
                  (replicate NumElements 0) (replicate (BufSize * 3) x00) i
                  (length_replicate _ _) H1) as (E & _ & _).
      rewrite E, (Hzero i H1). reflexivity.
    + destruct (decide (i < BufSize + BufSize)%nat) as [H2 | H2].
      * destruct (header_loop_full (replicate NumElements 0) (replicate NumElements 0)
                    (replicate NumElements 0) (replicate (BufSize * 3) x00)
                    (i - BufSize) (length_replicate _ _) ltac:(lia)) as (_ & E & _).
        replace (BufSize + (i - BufSize))%nat with i in E by lia.
        rewrite E, Hzero by lia. reflexivity.
      * destruct (header_loop_full (replicate NumElements 0) (replicate NumElements 0)
                    (replicate NumElements 0) (replicate (BufSize * 3) x00)
                    (i - BufSize - BufSize) (length_replicate _ _) ltac:(lia))
          as (_ & _ & E).
        replace (BufSize + BufSize + (i - BufSize - BufSize))%nat with i in E by lia.
        rewrite E, Hzero by lia. reflexivity.
  - rewrite !(proj2 (lookup_ge_None _ _));
      rewrite ?header_loop_length, ?length_replicate; try lia. reflexivity.
Qed.

Lemma Stored_empty (p : string) : Stored (empty_GPFile p enc) empty_file [].
Proof.
  split.
  - apply arrays_ok_empty.
  - reflexivity.
  - cbn [length]. lia.
  - intros i ts data He. rewrite lookup_nil in He. discriminate He.
  - intros i Hi. cbn [blocks timestamps lengths empty_GPFile].
    rewrite !lookup_replicate_2 by lia. auto.
  - exists (replicate (BufSize * 3) x00). split; [apply length_replicate|].
    cbn [blocks timestamps lengths empty_GPFile map concat].
    rewrite header_loop_zero, app_nil_r. reflexivity.
Qed.

Lemma write_all_stored (rest : list (Z * list byte)) :
  forall f file done,
  Stored f file done -> lastSeekPos f = 0 ->
  Forall entry_ok (done ++ rest) -> NoDup (map fst (done ++ rest)) ->
  (length (done ++ rest) <= NumElements)%nat ->
  exists f' file',
    write_all f file rest = (f', file', Ok tt)
    /\ Stored f' file' (done ++ rest) /\ lastSeekPos f' = 0.
Proof.
  induction rest as [|[ts data] rest IH]; intros f file done Hst Hlast Hok Hnd Hlen.
  - exists f, file. rewrite app_nil_r. cbn [write_all]. auto.
  - assert ((done ++ [(ts, data)]) ++ rest = done ++ (ts, data) :: rest) as Eapp
      by (rewrite <- app_assoc; reflexivity).
    assert (Forall entry_ok done /\ entry_ok (ts, data)) as [Hdone He].
    { apply Forall_app in Hok. destruct Hok as [Hdone Hrest].
      split; [exact Hdone | exact (Forall_inv Hrest)]. }
    assert (ts ∉ map fst done) as Hnot.
    { rewrite map_app in Hnd. apply NoDup_app in Hnd.
      destruct Hnd as (_ & Hdisj & _).
      intros Hin. apply (Hdisj ts Hin). cbn [map fst]. apply list_elem_of_here. }
    assert (length done < NumElements)%nat as Hlt.
    { rewrite length_app in Hlen. cbn [length] in Hlen. lia. }
    destruct (write_step f file done ts data Hst Hdone Hnot He Hlt)
      as (f1 & file1 & Hw & Hst1 & El1).
    cbn [write_all]. rewrite Hw.
    destruct (IH f1 file1 (done ++ [(ts, data)])) as (f' & file' & Hwa & Hst' & Hl').
    + exact Hst1.
    + rewrite El1. exact Hlast.
    + rewrite Eapp. exact Hok.
    + rewrite Eapp. exact Hnd.
    + rewrite Eapp. exact Hlen.
    + exists f', file'. rewrite <- Eapp. auto.
Qed.

Lemma increasing_NoDup (l : list Z) : Sorted Z.lt l -> NoDup l.
Proof.
  intros Hs. apply Sorted_StronglySorted in Hs; [|intros x y z; apply Z.lt_trans].
  induction Hs as [|x l _ IH Hx]; [apply NoDup_nil_2|].
  apply NoDup_cons. split; [|exact IH].
  intros Hin. apply (proj1 (Forall_forall _ _) Hx) in Hin. lia.
Qed.

(** All blocks of a log written to a new file can be read, through
    the writing file object and through a new one. *)
Lemma write_all_read (p : string) (log : list (Z * list byte)) :
  (length log <= NumElements)%nat ->
  Sorted Z.lt (map fst log) ->
  Forall entry_ok log ->
  exists f0 file0 f file,
    NewGPFile p enc None = (Ok f0, Some file0)
    /\ write_all f0 file0 log = (f, file, Ok tt)
    /\ forall ts data,
         (ts, data) ∈ log ->
         snd (ReadTimedBlock f file ts) = Ok data
         /\ exists g,
              NewGPFile p enc (Some file) = (Ok g, Some file)
              /\ snd (ReadTimedBlock g file ts) = Ok data.
Proof.
  intros Hlen Hsorted Hok.
  pose proof (increasing_NoDup _ Hsorted) as Hnd.
  destruct (write_all_stored log (empty_GPFile p enc) empty_file []
              (Stored_empty p) eq_refl Hok Hnd Hlen)
    as (f & file & Hw & Hst & Hlast).
  cbn [app] in Hst.
  exists (empty_GPFile p enc), empty_file, f, file.
  split; [apply NewGPFile_absent|]. split; [exact Hw|].
  intros ts data Hin. apply list_elem_of_lookup in Hin. destruct Hin as [k Hk].
  split.
  - exact (read_stored f file log k ts data Hst Hlast Hok Hnd Hk).
  - destruct (reopen_stored p f file log Hst) as (g & Hg & Hstg & Hlastg).
    exists g. split; [exact Hg|].
    exact (read_stored g file log k ts data Hstg Hlastg Hok Hnd Hk).
Qed.

End RoundTrip.


(** X26. With a lossless encoder, for every sequence of at most 512
    entries with strictly increasing nonzero timestamps and payloads of
    at most 2^31 bytes: the calls of WriteTimedBlock on a new file all
    succeed, and then ReadTimedBlock of any of the timestamps, as the
    first read through the writing GPFile or through a GPFile that has
    opened the file again, returns the payload written for it. *)
Theorem write_read_roundtrip (enc : Encoder) (Henc : Lossless enc)
    (p : string) (log : list (Z * list byte)) :
  (length log <= NumElements)%nat ->
  Sorted Z.lt (map fst log) ->
  Forall entry_ok log ->
  exists f0 file0 f file,
    NewGPFile p enc None = (Ok f0, Some file0)
    /\ write_all f0 file0 log = (f, file, Ok tt)
    /\ forall ts data,
         (ts, data) ∈ log ->
         snd (ReadTimedBlock f file ts) = Ok data
         /\ exists g,
              NewGPFile p enc (Some file) = (Ok g, Some file)
              /\ snd (ReadTimedBlock g file ts) = Ok data.
Proof. exact (write_all_read enc p log). Qed.

(** The encoder that stores the data as it is is lossless. *)
Lemma null_encoder_Lossless : Lossless null_encoder.
Proof.
  split.
  - reflexivity.
  - reflexivity.
  - intros data Hpay. unfold payload_ok in Hpay.
    cbn [Compress null_encoder null_Compress comp_written]. lia.
  - intros data rest _.
    cbn [Compress Decompress null_encoder null_Compress comp_written].
    unfold null_Decompress.
    rewrite take_app_length, Nat.eqb_refl. cbn [negb dec_n dec_out].
    split; [reflexivity|].
    rewrite length_replicate, take_ge, drop_ge by (rewrite ?length_replicate; lia).
    apply app_nil_r.
Qed.

Definition two_blocks : list (Z * list byte) :=
  [(1000, five_bytes); (2000, [x07; x08])].

Lemma write_read_roundtrip_witness :
  exists f0 file0 f file,
    NewGPFile "db.gpf" null_encoder None = (Ok f0, Some file0)
    /\ write_all f0 file0 two_blocks = (f, file, Ok tt)
    /\ forall ts data,
         (ts, data) ∈ two_blocks ->
         snd (ReadTimedBlock f file ts) = Ok data
         /\ exists g,
              NewGPFile "db.gpf" null_encoder (Some file) = (Ok g, Some file)
              /\ snd (ReadTimedBlock g file ts) = Ok data.
Proof.
  apply (write_read_roundtrip null_encoder null_encoder_Lossless "db.gpf" two_blocks).
  - rewrite NumElements_eq. cbn [length two_blocks]. lia.
  - cbn [map fst two_blocks].
    repeat constructor.
  - unfold two_blocks, entry_ok, in_range, payload_ok.
    repeat constructor; cbn [fst snd length five_bytes]; lia.
Defined.

(** A new file after one write opens with the arrays the write has left
    in memory. *)
Lemma header_roundtrip_witness :
  decode_at (encode_slot (-12293)) 0 = -12293
  /\ exists f' file' g,
       WriteTimedBlock (empty_GPFile "db.gpf" null_encoder) empty_file 1000 five_bytes
       = (f', file', Ok tt)
       /\ NewGPFile "db.gpf" (encoder f') (Some file') = (Ok g, Some file')
       /\ blocks g = blocks f'
       /\ timestamps g = timestamps f'
       /\ lengths g = lengths f'.
Proof.
  destruct header_roundtrip as (Hdec & _ & Hopen).
  split.
  - apply Hdec. unfold in_range. lia.
  - destruct (WriteTimedBlock_cases (empty_GPFile "db.gpf" null_encoder) empty_file
                1000 five_bytes 0 (prefix_used_empty _ _)) as (_ & _ & H).
    destruct H as (f' & file' & Hw & _).
    + cbn [timestamps empty_GPFile]. intros Hin.
      apply elem_of_replicate in Hin. destruct Hin as [Hin _]. discriminate Hin.
    + rewrite NumElements_eq. lia.
    + reflexivity.
    + destruct (Hopen "db.gpf" (empty_GPFile "db.gpf" null_encoder) f'
                  empty_file file' 1000 five_bytes) as (g & Hg).
      * apply arrays_ok_empty.
      * unfold in_range. lia.
      * unfold in_range. cbn [length five_bytes]. lia.
      * exact Hw.
      * exists f', file', g. split; [exact Hw | exact Hg].
Defined.

End RoundTripSpec.

(* ===================================================================== *)
(** * The block file: edges, errors and invariants                        *)
(* ===================================================================== *)

Module GPFileEdges.
Import Int64 Int64Facts CodecFacts GPFile HeaderFacts GPFileSpec RoundTripSpec.

(** ** Opening a file of any size *)

Lemma decode_at_combine8 (buf : list byte) (pos : nat) :
  decode_at buf pos
  = combine8 (byte_at buf pos) (byte_at buf (pos + 1)) (byte_at buf (pos + 2))
      (byte_at buf (pos + 3)) (byte_at buf (pos + 4)) (byte_at buf (pos + 5))
      (byte_at buf (pos + 6)) (byte_at buf (pos + 7)).
Proof. unfold decode_at, combine8. reflexivity. Qed.

Lemma decode_at_in_range (buf : list byte) (pos : nat) : in_range (decode_at buf pos).
Proof.
  rewrite decode_at_combine8.
  unfold byte_at. rewrite combine8_sum by apply of_byte_is_byte.
  pose proof (of_byte_range (buf !!! pos)).
  pose proof (of_byte_range (buf !!! (pos + 1)%nat)).
  pose proof (of_byte_range (buf !!! (pos + 2)%nat)).
  pose proof (of_byte_range (buf !!! (pos + 3)%nat)).
  pose proof (of_byte_range (buf !!! (pos + 4)%nat)).
  pose proof (of_byte_range (buf !!! (pos + 5)%nat)).
  pose proof (of_byte_range (buf !!! (pos + 6)%nat)).
  pose proof (of_byte_range (buf !!! (pos + 7)%nat)).
  unfold in_range.
  destruct (of_byte (buf !!! pos) <? 128) eqn:E;
    [apply Z.ltb_lt in E | apply Z.ltb_ge in E]; lia.
Qed.

Lemma read_header_length (buf : list byte) (n pos : nat) :
  length (read_header buf n pos) = n.
Proof.
  revert pos. induction n as [|n IH]; intros pos; cbn [read_header length];
    [reflexivity | rewrite IH; reflexivity].
Qed.

Lemma read_header_in_range (buf : list byte) (n pos : nat) :
  Forall in_range (read_header buf n pos).
Proof.
  revert pos. induction n as [|n IH]; intros pos; cbn [read_header].
  - constructor.
  - constructor; [apply decode_at_in_range | apply IH].
Qed.

Lemma read_header_lookup (buf : list byte) (n pos i : nat) :
  (i < n)%nat -> read_header buf n pos !! i = Some (decode_at buf (pos + 8 * i)).
Proof.
  revert pos i. induction n as [|n IH]; intros pos i Hi; [lia|].
  cbn [read_header]. destruct i as [|i].
  - cbn. do 2 f_equal. lia.
  - rewrite lookup_cons_ne_0 by lia. rewrite Nat.pred_succ.
    rewrite (IH (pos + 8)%nat i) by lia. do 2 f_equal. lia.
Qed.

Lemma file_read_min (n : nat) (src : list byte) :
  file_read n src
  = (take n src ++ replicate (n - Nat.min n (length src)) x00,
     Nat.min n (length src),
     Nat.eqb (Nat.min n (length src)) 0 && negb (Nat.eqb n 0)).
Proof. unfold file_read. rewrite length_take. reflexivity. Qed.

Lemma slot_byte (buf : list byte) (pos j : nat) :
  (j < 8)%nat ->
  to_byte (shr (decode_at buf pos) (shift_of j)) = buf !!! (pos + j)%nat.
Proof.
  intros Hj.
  rewrite decode_at_combine8. unfold byte_at.
  destruct (digits_combine8 _ _ _ _ _ _ _ _
              (of_byte_is_byte (buf !!! pos))
              (of_byte_is_byte (buf !!! (pos + 1)%nat))
              (of_byte_is_byte (buf !!! (pos + 2)%nat))
              (of_byte_is_byte (buf !!! (pos + 3)%nat))
              (of_byte_is_byte (buf !!! (pos + 4)%nat))
              (of_byte_is_byte (buf !!! (pos + 5)%nat))
              (of_byte_is_byte (buf !!! (pos + 6)%nat))
              (of_byte_is_byte (buf !!! (pos + 7)%nat)))
    as (E0 & E1 & E2 & E3 & E4 & E5 & E6 & E7).
  destruct j as [|[|[|[|[|[|[|[|j]]]]]]]]; try lia.
  - rewrite Nat.add_0_r. exact (to_byte_digit _ _ _ E0).
  - exact (to_byte_digit _ _ _ E1).
  - exact (to_byte_digit _ _ _ E2).
  - exact (to_byte_digit _ _ _ E3).
  - exact (to_byte_digit _ _ _ E4).
  - exact (to_byte_digit _ _ _ E5).
  - exact (to_byte_digit _ _ _ E6).
  - exact (to_byte_digit _ _ _ E7).
Qed.

Lemma NewGPFile_Ok_eq (p : string) (enc : Encoder) (file : list byte) :
  (BufSize * 3 <= length file)%nat ->
  NewGPFile p enc (Some file)
  = (Ok {| blocks := read_header (take BufSize file) NumElements 0;
           timestamps := read_header (take BufSize (drop BufSize file)) NumElements 0;
           lengths := read_header (take BufSize (drop (BufSize + BufSize) file))
                        NumElements 0;
           filename := p;
           curFile := Some (BufSize + BufSize + BufSize)%nat;
           wBuf := replicate (BufSize * 3) x00;
           lastSeekPos := 0;
           encoder := enc |}, Some file).
Proof.
  intros Hlen. pose proof BufSize_eq as HB. unfold NewGPFile.
  rewrite (file_read_full BufSize file) by lia. cbv beta iota zeta.
  rewrite (file_read_full BufSize (drop BufSize file)) by (rewrite ?length_drop; lia).
  cbv beta iota zeta.
  rewrite (file_read_full BufSize (drop (BufSize + BufSize) file))
    by (rewrite ?length_drop; lia).
  cbv beta iota zeta. rewrite Nat.eqb_refl. reflexivity.
Qed.


(** X1. NewGPFile on a file that exists leaves the file as it is, and
    succeeds exactly when the file has at least the 12288 bytes of the
    header; the GPFile then holds three arrays of 512 int64 values. A
    shorter file fails with the error of Read (EOF) when it has at
    most 8192 bytes and with "Invalid header (block lengths)"
    otherwise; the other two header errors do not occur. *)
Theorem NewGPFile_existing_file (p : string) (enc : Encoder) (file : list byte) :
  snd (NewGPFile p enc (Some file)) = Some file
  /\ match fst (NewGPFile p enc (Some file)) with
     | Ok g => (BufSize * 3 <= length file)%nat
               /\ arrays_ok g
               /\ filename g = p /\ encoder g = enc
               /\ curFile g = Some (BufSize * 3)%nat /\ lastSeekPos g = 0
     | Err e => (length file < BufSize * 3)%nat
                /\ e = (if decide (length file <= BufSize * 2)%nat then ErrIO
                        else ErrInvalidHeaderLengths)
     | Panic => False
     end.
Proof.
  pose proof BufSize_eq as HB.
  destruct (decide (BufSize * 3 <= length file)%nat) as [Hlen | Hlen].
  - rewrite (NewGPFile_Ok_eq p enc file Hlen). cbn [fst snd].
    split; [reflexivity|]. split; [exact Hlen|].
    split; [|repeat split; cbn [curFile]; f_equal; lia].
    split; cbn [blocks timestamps lengths wBuf];
      rewrite ?read_header_length, ?length_replicate;
      try reflexivity; apply read_header_in_range.
  - unfold NewGPFile. rewrite !file_read_min. cbv beta iota zeta.
    rewrite !length_drop.
    repeat match goal with
    | |- context [Nat.eqb ?a ?b] =>
        destruct (Nat.eqb_spec a b); try (exfalso; lia); cbn [andb negb]
    end; cbn [fst snd]; (split; [reflexivity|]); (split; [lia|]);
    destruct (decide _); first [reflexivity | lia].
Qed.

(** Serialising what the parsing loop has read from [buf] gives the
    bytes of [buf] back. *)
Lemma header_byte_read_header (buf : list byte) (k : nat) :
  (k < BufSize)%nat ->
  header_byte (read_header buf NumElements 0) k = buf !!! k.
Proof.
  intros Hk. pose proof BufSize_eq as HB. pose proof NumElements_eq as HN.
  unfold header_byte.
  assert (k / 8 < NumElements)%nat as Hi.
  { rewrite HN. apply Nat.Div0.div_lt_upper_bound. lia. }
  rewrite (list_lookup_total_correct _ _ _ (read_header_lookup buf _ 0 _ Hi)).
  rewrite slot_byte by (apply Nat.mod_upper_bound; lia).
  f_equal. pose proof (Nat.div_mod_eq k 8). lia.
Qed.

(** X2. Parsing loses nothing: the serialisation loop of
    WriteTimedBlock, run on the three arrays NewGPFile has read from a
    file, gives the first 12288 bytes of that file back, whatever they
    are. *)
Theorem NewGPFile_keeps_header_bytes (p : string) (enc : Encoder)
    (file w : list byte) :
  (BufSize * 3 <= length file)%nat -> length w = (BufSize * 3)%nat ->
  exists g,
    NewGPFile p enc (Some file) = (Ok g, Some file)
    /\ header_loop (blocks g) (timestamps g) (lengths g) NumElements 0 0 w
       = take (BufSize * 3) file.
Proof.
  intros Hlen Hw. pose proof BufSize_eq as HB.
  eexists. split; [apply (NewGPFile_Ok_eq p enc file Hlen)|].
  cbn [blocks timestamps lengths].
  apply list_eq. intros k.
  destruct (decide (k < BufSize * 3)%nat) as [Hk | Hk].
  - rewrite lookup_take_lt by exact Hk.
    destruct (lookup_lt_is_Some_2 file k ltac:(lia)) as [b Eb]. rewrite Eb.
    destruct (decide (k < BufSize)%nat) as [H1 | H1].
    + destruct (header_loop_full
                  (read_header (take BufSize file) NumElements 0)
                  (read_header (take BufSize (drop BufSize file)) NumElements 0)
                  (read_header (take BufSize (drop (BufSize + BufSize) file))
                     NumElements 0) w k Hw H1) as (E & _ & _).
      rewrite E, header_byte_read_header by exact H1. f_equal.
      apply list_lookup_total_correct. rewrite lookup_take_lt by exact H1. exact Eb.
    + destruct (decide (k < BufSize + BufSize)%nat) as [H2 | H2].
      * destruct (header_loop_full
                    (read_header (take BufSize file) NumElements 0)
                    (read_header (take BufSize (drop BufSize file)) NumElements 0)
                    (read_header (take BufSize (drop (BufSize + BufSize) file))
                       NumElements 0) w (k - BufSize) Hw ltac:(lia)) as (_ & E & _).
        replace (BufSize + (k - BufSize))%nat with k in E by lia.
        rewrite E, header_byte_read_header by lia. f_equal.
        apply list_lookup_total_correct.
        rewrite lookup_take_lt, lookup_drop by lia.
        replace (BufSize + (k - BufSize))%nat with k by lia. exact Eb.
      * destruct (header_loop_full
                    (read_header (take BufSize file) NumElements 0)
                    (read_header (take BufSize (drop BufSize file)) NumElements 0)
                    (read_header (take BufSize (drop (BufSize + BufSize) file))
                       NumElements 0) w (k - BufSize - BufSize) Hw ltac:(lia))
          as (_ & _ & E).
        replace (BufSize + BufSize + (k - BufSize - BufSize))%nat with k in E by lia.
        rewrite E, header_byte_read_header by lia. f_equal.
        apply list_lookup_total_correct.
        rewrite lookup_take_lt, lookup_drop by lia.
        replace (BufSize + BufSize + (k - BufSize - BufSize))%nat with k by lia.
        exact Eb.
  - rewrite !(proj2 (lookup_ge_None _ _));
      rewrite ?header_loop_length, ?length_take; try lia. reflexivity.
Qed.

Lemma NewGPFile_keeps_header_bytes_witness :
  exists g,
    NewGPFile "db.gpf" null_encoder (Some (replicate (BufSize * 3) x07 ++ [x01; x02]))
    = (Ok g, Some (replicate (BufSize * 3) x07 ++ [x01; x02]))
    /\ header_loop (blocks g) (timestamps g) (lengths g) NumElements 0 0
         (replicate (BufSize * 3) x00)
       = take (BufSize * 3) (replicate (BufSize * 3) x07 ++ [x01; x02]).
Proof.
  apply (NewGPFile_keeps_header_bytes "db.gpf" null_encoder
           (replicate (BufSize * 3) x07 ++ [x01; x02]) (replicate (BufSize * 3) x00)).
  - rewrite length_app, length_replicate. lia.
  - apply length_replicate.
Defined.

(** ** Writing, on any header *)

Lemma scan_loop_ScanFree_inv (f : GPFile) (ts : Z) (m i k : nat) (b : Z) :
  scan_loop f ts m i = ScanFree k b ->
  (i <= k < i + m)%nat
  /\ ts <> 0
  /\ timestamps f !! k = Some 0
  /\ (forall j t, (i <= j < k)%nat -> timestamps f !! j = Some t -> t <> 0 /\ t <> ts)
  /\ block_start f k = Some b.
Proof.
  revert i. induction m as [|m IH]; intros i H; cbn [scan_loop] in H; [discriminate H|].
  destruct (timestamps f !! i) as [cur|] eqn:Ecur; [|discriminate H].
  destruct (cur =? ts) eqn:Ets; [discriminate H|]. apply Z.eqb_neq in Ets.
  destruct (cur =? 0) eqn:E0.
  - apply Z.eqb_eq in E0. subst cur.
    assert (k = i /\ block_start f i = Some b) as [-> Hb].
    { unfold block_start. destruct (Nat.eqb i 0); cbn [negb] in H.
      - injection H as <- <-. auto.
      - destruct (blocks f !! (i - 1)%nat); [|discriminate H].
        injection H as <- <-. auto. }
    split; [lia|]. split; [congruence|]. split; [exact Ecur|].
    split; [intros j t Hj; exfalso; lia | exact Hb].
  - apply Z.eqb_neq in E0.
    destruct (IH (S i) H) as (Hk & Hts & Ek & Hbefore & Hb).
    split; [lia|]. split; [exact Hts|]. split; [exact Ek|].
    split; [|exact Hb].
    intros j t Hj Ej. destruct (decide (j = i)) as [-> | Hne].
    + assert (t = cur) as -> by congruence. auto.
    + apply (Hbefore j t); [lia | exact Ej].
Qed.

Lemma scan_loop_ScanExists_inv (f : GPFile) (ts cur : Z) (m i : nat) :
  scan_loop f ts m i = ScanExists cur -> cur = ts /\ ts ∈ timestamps f.
Proof.
  revert i. induction m as [|m IH]; intros i H; cbn [scan_loop] in H; [discriminate H|].
  destruct (timestamps f !! i) as [c|] eqn:Ec; [|discriminate H].
  destruct (c =? ts) eqn:Ets.
  - apply Z.eqb_eq in Ets. injection H as <-. split; [exact Ets|].
    subst c. exact (list_elem_of_lookup_2 _ _ _ Ec).
  - destruct (c =? 0).
    + destruct (negb (Nat.eqb i 0)); [destruct (blocks f !! (i - 1)%nat)|];
        discriminate H.
    + exact (IH (S i) H).
Qed.

Lemma scan_loop_finds (f : GPFile) (ts : Z) (k : nat) :
  timestamps f !! k = Some ts ->
  (forall j t, (j < k)%nat -> timestamps f !! j = Some t -> t <> 0 /\ t <> ts) ->
  forall m i, (i <= k < i + m)%nat -> scan_loop f ts m i = ScanExists ts.
Proof.
  intros Ek Hbefore. induction m as [|m IH]; intros i Hi; [lia|].
  cbn [scan_loop]. destruct (decide (i = k)) as [-> | Hne].
  - rewrite Ek, Z.eqb_refl. reflexivity.
  - destruct (lookup_lt_is_Some_2 (timestamps f) i) as [t Et].
    { apply lookup_lt_Some in Ek. lia. }
    rewrite Et. destruct (Hbefore i t ltac:(lia) Et) as [H0 Hts].
    apply Z.eqb_neq in H0, Hts. rewrite H0, Hts. apply IH. lia.
Qed.

(** X3. WriteTimedBlock with the timestamp 0 never writes: on every
    GPFile it returns an error (the timestamp exists, or the file is
    full) or panics on a header array that is too short, and leaves
    the GPFile and the file as they were. *)
Theorem WriteTimedBlock_zero_timestamp (f : GPFile) (file data : list byte) :
  WriteTimedBlock f file 0 data = (f, file, Err (ErrTimestampExists 0))
  \/ WriteTimedBlock f file 0 data = (f, file, Err ErrFileFull)
  \/ WriteTimedBlock f file 0 data = (f, file, Panic).
Proof.
  rewrite WriteTimedBlock_works; cbv zeta.
  destruct (scan_loop f 0 NumElements 0) as [cur | k b | |] eqn:Es; auto.
  - destruct (scan_loop_ScanExists_inv _ _ _ _ _ Es) as [-> _]. auto.
  - destruct (scan_loop_ScanFree_inv _ _ _ _ _ _ Es) as (_ & H & _).
    exfalso. apply H. reflexivity.
Qed.

(** What a successful write has done. *)
Lemma WriteTimedBlock_Ok_slot (f : GPFile) (file : list byte) (ts : Z)
    (data : list byte) (f' : GPFile) (file' : list byte) :
  WriteTimedBlock f file ts data = (f', file', Ok tt) ->
  ts <> 0
  /\ exists n,
       (n < NumElements)%nat
       /\ timestamps f !! n = Some 0
       /\ (forall j t, (j < n)%nat -> timestamps f !! j = Some t -> t <> 0 /\ t <> ts)
       /\ timestamps f' = <[n := ts]> (timestamps f)
       /\ lengths f' = <[n := Z.of_nat (length data)]> (lengths f)
       /\ (exists b, block_start f n = Some b
                     /\ blocks f'
                        = <[n := add b (comp_n (Compress (encoder f) data))]>
                            (blocks f)).
Proof.
  intros Hw.
  destruct (WriteTimedBlock_Ok _ _ _ _ _ _ Hw)
    as (n & b & Es & _ & _ & Eb & Et & El & _).
  destruct (scan_loop_ScanFree_inv _ _ _ _ _ _ Es) as (Hn & Hts & E0 & Hbefore & Hb).
  split; [exact Hts|]. exists n. split; [lia|]. split; [exact E0|].
  split; [intros j t Hj; apply Hbefore; lia|].
  split; [exact Et|]. split; [exact El|]. exists b. auto.
Qed.

(** X4. A successful write fills the first slot whose timestamp is
    zero, leaves the other slots alone and appends what Compress wrote
    to the data of the file: the bytes of earlier blocks stay where
    they were. *)
Theorem WriteTimedBlock_appends (f : GPFile) (file : list byte) (ts : Z)
    (data : list byte) (f' : GPFile) (file' : list byte) :
  arrays_ok f -> (BufSize * 3 <= length file)%nat ->
  WriteTimedBlock f file ts data = (f', file', Ok tt) ->
  exists n,
    (n < NumElements)%nat
    /\ timestamps f !! n = Some 0
    /\ (forall j t, (j < n)%nat -> timestamps f !! j = Some t -> t <> 0)
    /\ timestamps f' !! n = Some ts
    /\ lengths f' !! n = Some (Z.of_nat (length data))
    /\ (forall i, i <> n ->
          blocks f' !! i = blocks f !! i
          /\ timestamps f' !! i = timestamps f !! i
          /\ lengths f' !! i = lengths f !! i)
    /\ drop (BufSize * 3) file'
       = drop (BufSize * 3) file ++ comp_written (Compress (encoder f) data).
Proof.
  intros Harr Hlen Hw.
  destruct (WriteTimedBlock_Ok_slot _ _ _ _ _ _ Hw)
    as (_ & n & Hn & E0 & Hbefore & Et & El & b & _ & Eb).
  destruct (WriteTimedBlock_file _ _ _ _ _ _ Harr Hw) as [Efile Hwlen].
  exists n. split; [exact Hn|]. split; [exact E0|].
  split; [intros j t Hj Ej; exact (proj1 (Hbefore j t Hj Ej))|].
  rewrite Et, El, Eb.
  split; [apply list_lookup_insert_eq;
          rewrite (timestamps_length f Harr); exact Hn|].
  split; [apply list_lookup_insert_eq;
          rewrite (lengths_length f Harr); exact Hn|].
  split.
  - intros i Hi. rewrite !list_lookup_insert_ne by congruence. auto.
  - rewrite Efile, drop_app_length' by (symmetry; exact Hwlen).
    apply drop_app_le. exact Hlen.
Qed.

Lemma WriteTimedBlock_appends_witness :
  exists f' file' n,
    WriteTimedBlock (empty_GPFile "db.gpf" null_encoder) empty_file 1000 five_bytes
    = (f', file', Ok tt)
    /\ (n < NumElements)%nat
    /\ timestamps (empty_GPFile "db.gpf" null_encoder) !! n = Some 0
    /\ (forall j t, (j < n)%nat ->
          timestamps (empty_GPFile "db.gpf" null_encoder) !! j = Some t -> t <> 0)
    /\ timestamps f' !! n = Some 1000
    /\ lengths f' !! n = Some (Z.of_nat (length five_bytes))
    /\ (forall i, i <> n ->
          blocks f' !! i = blocks (empty_GPFile "db.gpf" null_encoder) !! i
          /\ timestamps f' !! i = timestamps (empty_GPFile "db.gpf" null_encoder) !! i
          /\ lengths f' !! i = lengths (empty_GPFile "db.gpf" null_encoder) !! i)
    /\ drop (BufSize * 3) file'
       = drop (BufSize * 3) empty_file
         ++ comp_written (Compress (encoder (empty_GPFile "db.gpf" null_encoder))
                            five_bytes).
Proof.
  destruct (WriteTimedBlock_cases (empty_GPFile "db.gpf" null_encoder) empty_file
              1000 five_bytes 0 (prefix_used_empty _ _)) as (_ & _ & H).
  destruct H as (f' & file' & Hw & _).
  - cbn [timestamps empty_GPFile]. intros Hin.
    apply elem_of_replicate in Hin. destruct Hin as [Hin _]. discriminate Hin.
  - rewrite NumElements_eq. lia.
  - reflexivity.
  - destruct (WriteTimedBlock_appends (empty_GPFile "db.gpf" null_encoder)
                empty_file 1000 five_bytes f' file') as (n & Hn).
    + apply arrays_ok_empty.
    + unfold empty_file. rewrite length_replicate. lia.
    + exact Hw.
    + exists f', file', n. split; [exact Hw | exact Hn].
Defined.

(** X5. After a successful write of a timestamp, a second write of
    the same timestamp is refused with the duplicate-timestamp error
    and changes neither the GPFile nor the file. *)
Theorem WriteTimedBlock_twice (f : GPFile) (file : list byte) (ts : Z)
    (data data2 : list byte) (f' : GPFile) (file' : list byte) :
  WriteTimedBlock f file ts data = (f', file', Ok tt) ->
  WriteTimedBlock f' file' ts data2 = (f', file', Err (ErrTimestampExists ts)).
Proof.
  intros Hw.
  destruct (WriteTimedBlock_Ok_slot _ _ _ _ _ _ Hw)
    as (_ & n & Hn & E0 & Hbefore & Et & _).
  rewrite WriteTimedBlock_works; cbv zeta.
  rewrite (scan_loop_finds f' ts n); [reflexivity | | | lia].
  - rewrite Et. apply list_lookup_insert_eq. exact (lookup_lt_Some _ _ _ E0).
  - intros j t Hj Ej. rewrite Et, list_lookup_insert_ne in Ej by lia.
    exact (Hbefore j t Hj Ej).
Qed.

Lemma WriteTimedBlock_twice_witness :
  exists f' file',
    WriteTimedBlock (empty_GPFile "db.gpf" null_encoder) empty_file 1000 five_bytes
    = (f', file', Ok tt)
    /\ WriteTimedBlock f' file' 1000 [x09]
       = (f', file', Err (ErrTimestampExists 1000)).
Proof.
  destruct (WriteTimedBlock_cases (empty_GPFile "db.gpf" null_encoder) empty_file
              1000 five_bytes 0 (prefix_used_empty _ _)) as (_ & _ & H).
  destruct H as (f' & file' & Hw & _).
  - cbn [timestamps empty_GPFile]. intros Hin.
    apply elem_of_replicate in Hin. destruct Hin as [Hin _]. discriminate Hin.
  - rewrite NumElements_eq. lia.
  - reflexivity.
  - exists f', file'. split; [exact Hw|].
    exact (WriteTimedBlock_twice _ _ _ _ [x09] _ _ Hw).
Defined.

(** ** Reading *)

(** The fields a read leaves alone. *)
Definition same_header (f f' : GPFile) : Prop :=
  blocks f' = blocks f /\ timestamps f' = timestamps f /\ lengths f' = lengths f
  /\ filename f' = filename f /\ wBuf f' = wBuf f /\ encoder f' = encoder f.

Lemma same_header_refl (f : GPFile) : same_header f f.
Proof. repeat split. Qed.

Lemma ReadBlock_same_header (f : GPFile) (file : list byte) (block : nat) :
  same_header f (fst (ReadBlock f file block)).
Proof.
  unfold ReadBlock. cbv zeta.
  repeat case_match; cbn [fst]; repeat split.
Qed.

Lemma ReadTimedBlock_loop_same_header (f : GPFile) (file : list byte) (ts : Z)
    (n i : nat) :
  same_header f (fst (ReadTimedBlock_loop f file ts n i)).
Proof.
  revert i. induction n as [|n IH]; intros i; cbn [ReadTimedBlock_loop].
  - apply same_header_refl.
  - destruct (timestamps f !! i) as [t|]; [|apply same_header_refl].
    destruct (t =? ts); [apply ReadBlock_same_header | apply IH].
Qed.

(** X8. ReadBlock and ReadTimedBlock never change the header arrays,
    the file name, the write buffer or the encoder of the GPFile:
    only the read handle and lastSeekPos. *)
Theorem reads_keep_header (f : GPFile) (file : list byte) :
  (forall block, same_header f (fst (ReadBlock f file block)))
  /\ (forall ts, same_header f (fst (ReadTimedBlock f file ts))).
Proof.
  split.
  - intros block. apply ReadBlock_same_header.
  - intros ts. apply ReadTimedBlock_loop_same_header.
Qed.

Lemma ReadBlock_not_NotFound (f : GPFile) (file : list byte) (block : nat) (ts : Z) :
  snd (ReadBlock f file block) <> Err (ErrTimestampNotFound ts).
Proof.
  unfold ReadBlock. cbv zeta.
  repeat case_match; cbn [snd]; discriminate.
Qed.

Lemma ReadTimedBlock_loop_absent (f : GPFile) (file : list byte) (ts : Z) :
  forall n i,
  (i + n <= length (timestamps f))%nat ->
  (forall j, (i <= j < i + n)%nat -> timestamps f !! j <> Some ts) ->
  ReadTimedBlock_loop f file ts n i = (f, Err (ErrTimestampNotFound ts)).
Proof.
  induction n as [|n IH]; intros i Hlen Habs; cbn [ReadTimedBlock_loop]; [reflexivity|].
  destruct (lookup_lt_is_Some_2 (timestamps f) i ltac:(lia)) as [t Et]. rewrite Et.
  destruct (t =? ts) eqn:E.
  - apply Z.eqb_eq in E. subst t. exfalso. exact (Habs i ltac:(lia) Et).
  - apply IH; [lia|]. intros j Hj. apply Habs. lia.
Qed.

Lemma ReadTimedBlock_loop_first (f : GPFile) (file : list byte) (ts : Z) :
  forall n i,
  (exists j, (i <= j < i + n)%nat /\ timestamps f !! j = Some ts) ->
  (i + n <= length (timestamps f))%nat ->
  exists k, (i <= k < i + n)%nat /\ timestamps f !! k = Some ts
            /\ ReadTimedBlock_loop f file ts n i = ReadBlock f file k.
Proof.
  induction n as [|n IH]; intros i (j & Hj & Ej) Hlen; [lia|].
  cbn [ReadTimedBlock_loop].
  destruct (lookup_lt_is_Some_2 (timestamps f) i ltac:(lia)) as [t Et]. rewrite Et.
  destruct (t =? ts) eqn:E.
  - apply Z.eqb_eq in E. subst t. exists i. split; [lia|]. auto.
  - apply Z.eqb_neq in E.
    destruct (IH (S i)) as (k & Hk & Ek & Hr).
    + exists j. split; [|exact Ej].
      destruct (decide (j = i)) as [-> | Hne]; [congruence | lia].
    + lia.
    + exists k. split; [lia|]. auto.
Qed.

(** X9. ReadTimedBlock reports "Timestamp ... not found" exactly when
    the timestamp is not among GetTimestamps(), and then leaves the
    GPFile as it was. *)
Theorem ReadTimedBlock_not_found_iff (f : GPFile) (file : list byte) (ts : Z) :
  length (GetTimestamps f) = NumElements ->
  (snd (ReadTimedBlock f file ts) = Err (ErrTimestampNotFound ts)
   <-> ts ∉ GetTimestamps f)
  /\ (ts ∉ GetTimestamps f -> fst (ReadTimedBlock f file ts) = f).
Proof.
  unfold GetTimestamps. intros Hlen.
  assert (ts ∉ timestamps f ->
          ReadTimedBlock f file ts = (f, Err (ErrTimestampNotFound ts))) as Habs.
  { intros Hnot. apply ReadTimedBlock_loop_absent; [lia|].
    intros j _ Ej. apply Hnot. exact (list_elem_of_lookup_2 _ _ _ Ej). }
  split; [split|].
  - intros Hr Hin. apply list_elem_of_lookup in Hin. destruct Hin as [j Ej].
    destruct (ReadTimedBlock_loop_first f file ts NumElements 0) as (k & _ & _ & Hk).
    + exists j. split; [|exact Ej]. apply lookup_lt_Some in Ej. lia.
    + lia.
    + unfold ReadTimedBlock in Hr. rewrite Hk in Hr.
      exact (ReadBlock_not_NotFound _ _ _ _ Hr).
  - intros Hnot. rewrite (Habs Hnot). reflexivity.
  - intros Hnot. rewrite (Habs Hnot). reflexivity.
Qed.

Lemma ReadTimedBlock_not_found_iff_witness :
  (snd (ReadTimedBlock (empty_GPFile "db.gpf" null_encoder) empty_file 1000)
   = Err (ErrTimestampNotFound 1000)
   <-> 1000 ∉ GetTimestamps (empty_GPFile "db.gpf" null_encoder))
  /\ (1000 ∉ GetTimestamps (empty_GPFile "db.gpf" null_encoder) ->
      fst (ReadTimedBlock (empty_GPFile "db.gpf" null_encoder) empty_file 1000)
      = empty_GPFile "db.gpf" null_encoder).
Proof.
  apply (ReadTimedBlock_not_found_iff (empty_GPFile "db.gpf" null_encoder)
           empty_file 1000).
  apply length_replicate.
Defined.

Lemma ReadBlock_free_slot (f : GPFile) (file : list byte) (i : nat) :
  timestamps f !! i = Some 0 -> blocks f !! i = Some 0 -> lengths f !! i = Some 0 ->
  ReadBlock f file i = (f, Err (ErrBlockEmpty i)).
Proof. intros Et Eb El. unfold ReadBlock. rewrite Et, Eb, El. reflexivity. Qed.

(** X10. On a header with n used slots, ReadBlock(i) for i below 512
    reports "Block i is empty" exactly when i is not below n, and then
    leaves the GPFile as it was; an index of 512 or more panics. *)
Theorem ReadBlock_empty_iff (f : GPFile) (file : list byte) (n i : nat) :
  prefix_used f n ->
  (i < NumElements)%nat ->
  (snd (ReadBlock f file i) = Err (ErrBlockEmpty i) <-> (n <= i)%nat)
  /\ ((n <= i)%nat -> fst (ReadBlock f file i) = f)
  /\ (forall k, ReadBlock f file (NumElements + k) = (f, Panic)).
Proof.
  intros Hpu Hi.
  assert ((n <= i)%nat -> ReadBlock f file i = (f, Err (ErrBlockEmpty i))) as Hfree.
  { intros Hni. destruct (pu_free f n Hpu i ltac:(lia)) as (Et & Eb & El).
    exact (ReadBlock_free_slot f file i Et Eb El). }
  split; [split|split].
  - intros Hr. destruct (decide (n <= i)%nat) as [Hni | Hni]; [exact Hni|].
    exfalso.
    destruct (lookup_lt_is_Some_2 (timestamps f) i) as [t Et].
    { rewrite (pu_timestamps f n Hpu). exact Hi. }
    pose proof (pu_used f n Hpu i t ltac:(lia) Et) as Ht.
    apply Z.eqb_neq in Ht.
    revert Hr. unfold ReadBlock. rewrite Et. cbv zeta.
    repeat case_match; cbn [snd]; try discriminate.
    all: rewrite Ht in *; discriminate.
  - intros Hni. rewrite (Hfree Hni). reflexivity.
  - intros Hni. rewrite (Hfree Hni). reflexivity.
  - intros k. unfold ReadBlock.
    rewrite (proj2 (lookup_ge_None (timestamps f) (NumElements + k)))
      by (rewrite (pu_timestamps f n Hpu); lia).
    reflexivity.
Qed.

Lemma ReadBlock_empty_iff_witness :
  (snd (ReadBlock (empty_GPFile "db.gpf" null_encoder) empty_file 3)
   = Err (ErrBlockEmpty 3) <-> (0 <= 3)%nat)
  /\ ((0 <= 3)%nat ->
      fst (ReadBlock (empty_GPFile "db.gpf" null_encoder) empty_file 3)
      = empty_GPFile "db.gpf" null_encoder)
  /\ (forall k, ReadBlock (empty_GPFile "db.gpf" null_encoder) empty_file
                  (NumElements + k)
                = (empty_GPFile "db.gpf" null_encoder, Panic)).
Proof.
  apply (ReadBlock_empty_iff (empty_GPFile "db.gpf" null_encoder) empty_file 0 3
           (prefix_used_empty "db.gpf" null_encoder)).
  rewrite NumElements_eq. lia.
Defined.

(** X11. The timestamp 0 is never found: ReadTimedBlock(0) stops at
    the first free slot and reports that block as empty; on a full
    file it reports the timestamp as not found. *)
Theorem ReadTimedBlock_zero (f : GPFile) (file : list byte) (n : nat) :
  prefix_used f n ->
  ReadTimedBlock f file 0
  = (f, if decide (n < NumElements)%nat then Err (ErrBlockEmpty n)
        else Err (ErrTimestampNotFound 0)).
Proof.
  intros Hpu. destruct (decide (n < NumElements)%nat) as [Hn | Hn].
  - destruct (pu_free f n Hpu n ltac:(lia)) as (Et & Eb & El).
    unfold ReadTimedBlock.
    rewrite (RoundTripSpec.ReadTimedBlock_loop_at f file 0 n Et); [| | lia | lia].
    + exact (ReadBlock_free_slot f file n Et Eb El).
    + intros j t Hj Ej. exact (pu_used f n Hpu j t Hj Ej).
  - apply ReadTimedBlock_loop_absent.
    + rewrite (pu_timestamps f n Hpu). lia.
    + intros j Hj Ej. pose proof (pu_n f n Hpu).
      exact (pu_used f n Hpu j 0 ltac:(lia) Ej eq_refl).
Qed.

Lemma ReadTimedBlock_zero_witness :
  ReadTimedBlock (empty_GPFile "db.gpf" null_encoder) empty_file 0
  = (empty_GPFile "db.gpf" null_encoder,
     if decide (0 < NumElements)%nat then Err (ErrBlockEmpty 0)
     else Err (ErrTimestampNotFound 0)).
Proof.
  exact (ReadTimedBlock_zero (empty_GPFile "db.gpf" null_encoder) empty_file 0
           (prefix_used_empty "db.gpf" null_encoder)).
Defined.

(** ** A failing encoder *)

(** An encoder that gives up on payloads of more than three bytes,
    after it has written the first three. *)
Definition short_Compress (data : list byte) : CompressResult :=
  if (3 <? length data)%nat then
    {| comp_written := take 3 data; comp_n := 3; comp_err := true |}
  else null_Compress data.

Definition short_encoder : Encoder :=
  {| Compress := short_Compress;
     Decompress := null_Decompress;
     Decompress_out_length := null_Decompress_out_length |}.

Lemma scan_free_prefix (f : GPFile) (ts : Z) (n : nat) :
  prefix_used f n -> ts ∉ timestamps f -> (n < NumElements)%nat ->
  scan_loop f ts NumElements 0 = ScanFree n (prev_offset f n)
  /\ prev_offset f n <> -1.
Proof.
  intros Hpu Hnot Hn.
  assert (ts <> 0) as Hts.
  { intros ->. apply Hnot.
    destruct (pu_free f n Hpu n ltac:(lia)) as (Et & _).
    exact (list_elem_of_lookup_2 _ _ _ Et). }
  split.
  - rewrite (scan_loop_free f ts n Hpu); [| | auto | lia | lia].
    + destruct (decide (n < NumElements)%nat); [reflexivity | lia].
    + intros k _ Ek. apply Hnot. exact (list_elem_of_lookup_2 _ _ _ Ek).
  - unfold prev_offset. pose proof BufSize_eq as HB.
    destruct (Nat.eqb n 0) eqn:E0; [rewrite HB; lia|].
    apply Nat.eqb_neq in E0.
    destruct (lookup_lt_is_Some_2 (blocks f) (n - 1)%nat) as [b Eb].
    { rewrite (pu_blocks f n Hpu). lia. }
    rewrite (list_lookup_total_correct _ _ _ Eb).
    pose proof (pu_offsets f n Hpu (n - 1)%nat b ltac:(lia) Eb). rewrite HB in *. lia.
Qed.

(** X6. When Compress fails, WriteTimedBlock returns its error and
    leaves the header as it was, but the bytes Compress has written
    stay in the file; the next block written starts, by the header, at
    those bytes. *)
Theorem WriteTimedBlock_encoder_error (f : GPFile) (file : list byte) (n : nat)
    (ts ts2 : Z) (bad data : list byte) :
  prefix_used f n -> arrays_ok f -> (n < NumElements)%nat ->
  Z.of_nat (length file) = prev_offset f n ->
  ts ∉ timestamps f -> ts2 ∉ timestamps f ->
  comp_err (Compress (encoder f) bad) = true ->
  comp_err (Compress (encoder f) data) = false ->
  let junk := comp_written (Compress (encoder f) bad) in
  WriteTimedBlock f file ts bad = (f, file ++ junk, Err ErrEncoder)
  /\ exists f2 file2,
       WriteTimedBlock f (file ++ junk) ts2 data = (f2, file2, Ok tt)
       /\ timestamps f2 !! n = Some ts2
       /\ block_start f2 n = Some (Z.of_nat (length file))
       /\ drop (length file) file2
          = junk ++ comp_written (Compress (encoder f) data).
Proof.
  intros Hpu Harr Hn Hsize Hts Hts2 Hbad Hgood junk.
  destruct (scan_free_prefix f ts n Hpu Hts Hn) as [Es Hne].
  split.
  - rewrite WriteTimedBlock_works; cbv zeta. rewrite Es.
    apply Z.eqb_neq in Hne. rewrite Hne, Hbad. reflexivity.
  - destruct (WriteTimedBlock_cases f (file ++ junk) ts2 data n Hpu)
      as (_ & _ & Hwrite).
    destruct (Hwrite Hts2 Hn Hgood) as (f2 & file2 & Hw & Eb & Et & _).
    exists f2, file2. split; [exact Hw|].
    split.
    { rewrite Et. apply list_lookup_insert_eq.
      rewrite (timestamps_length f Harr). exact Hn. }
    split.
    { unfold block_start. rewrite Hsize. unfold prev_offset.
      destruct (Nat.eqb n 0) eqn:E0; [reflexivity|].
      apply Nat.eqb_neq in E0.
      rewrite Eb, list_lookup_insert_ne by lia.
      apply list_lookup_lookup_total_lt. rewrite (blocks_length f Harr). lia. }
    destruct (WriteTimedBlock_file _ _ _ _ _ _ Harr Hw) as [Efile Hwlen].
    assert (BufSize * 3 <= length file)%nat as Hfile.
    { apply Nat2Z.inj_le. rewrite Hsize. unfold prev_offset.
      destruct (Nat.eqb n 0) eqn:E0; [lia|]. apply Nat.eqb_neq in E0.
      destruct (lookup_lt_is_Some_2 (blocks f) (n - 1)%nat) as [b Ebn].
      { rewrite (pu_blocks f n Hpu). lia. }
      rewrite (list_lookup_total_correct _ _ _ Ebn).
      pose proof (pu_offsets f n Hpu (n - 1)%nat b ltac:(lia) Ebn). lia. }
    rewrite Efile.
    replace (length file) with (length (wBuf f2) + (length file - BufSize * 3))%nat
      by lia.
    rewrite <- drop_drop, drop_app_length.
    rewrite drop_drop.
    replace (BufSize * 3 + (length file - BufSize * 3))%nat with (length file) by lia.
    rewrite <- !app_assoc, drop_app_length. reflexivity.
Qed.

Lemma WriteTimedBlock_encoder_error_witness :
  WriteTimedBlock (empty_GPFile "db.gpf" short_encoder) empty_file 1000 five_bytes
  = (empty_GPFile "db.gpf" short_encoder,
     empty_file ++ comp_written (Compress short_encoder five_bytes),
     Err ErrEncoder)
  /\ exists f2 file2,
       WriteTimedBlock (empty_GPFile "db.gpf" short_encoder)
         (empty_file ++ comp_written (Compress short_encoder five_bytes))
         2000 [x07; x08]
       = (f2, file2, Ok tt)
       /\ timestamps f2 !! 0%nat = Some 2000
       /\ block_start f2 0 = Some (Z.of_nat (length empty_file))
       /\ drop (length empty_file) file2
          = comp_written (Compress short_encoder five_bytes)
            ++ comp_written (Compress short_encoder [x07; x08]).
Proof.
  apply (WriteTimedBlock_encoder_error (empty_GPFile "db.gpf" short_encoder)
           empty_file 0 1000 2000 five_bytes [x07; x08]).
  - apply prefix_used_empty.
  - apply arrays_ok_empty.
  - rewrite NumElements_eq. lia.
  - unfold empty_file. rewrite length_replicate. unfold prev_offset. cbn [Nat.eqb]. lia.
  - cbn [timestamps empty_GPFile]. intros Hin.
    apply elem_of_replicate in Hin. destruct Hin as [Hin _]. discriminate Hin.
  - cbn [timestamps empty_GPFile]. intros Hin.
    apply elem_of_replicate in Hin. destruct Hin as [Hin _]. discriminate Hin.
  - reflexivity.
  - reflexivity.
Defined.

(** ** Failing file operations *)

(** How a call of [WriteTimedBlock] ends, whatever the operating system
    answers: it leaves the GPFile as it was and returns no success; or
    it has filled the slot as the call whose file operations succeed
    does, and either has rewritten the header in the file as well, or
    returns the error of [OpenFile] or [Write] from the rewriting. *)
Lemma WriteTimedBlock_os_cases (os : file_ops) (f : GPFile) (file : list byte)
    (ts : Z) (data : list byte) (f' : GPFile) (file' : list byte)
    (r : result unit) :
  WriteTimedBlock_os os f file ts data = (f', file', r) ->
  (r <> Ok tt /\ f' = f)
  \/ (exists file2,
        WriteTimedBlock f file ts data = (f', file2, Ok tt)
        /\ ((r = Ok tt /\ file' = file2)
            \/ (r = Err ErrIO
                /\ (open_header_err os = true \/ is_Some (header_written os))))).
Proof.
  rewrite WriteTimedBlock_works. unfold WriteTimedBlock_os. cbv zeta. intros H.
  assert (forall (x : GPFile) (y : list byte) (z : result unit),
            (x, y, z) = (f', file', r) -> x = f' /\ y = file' /\ z = r) as Hinv.
  { intros x y z E. split; [|split].
    - exact (f_equal (fun t => fst (fst t)) E).
    - exact (f_equal (fun t => snd (fst t)) E).
    - exact (f_equal snd E). }
  destruct (scan_loop f ts NumElements 0) as [cur | k b | |];
    try (left; destruct (Hinv _ _ _ H) as (<- & _ & <-);
         split; [discriminate | reflexivity]).
  destruct (b =? -1);
    [left; destruct (Hinv _ _ _ H) as (<- & _ & <-);
     split; [discriminate | reflexivity]|].
  destruct (open_append_err os);
    [left; destruct (Hinv _ _ _ H) as (<- & _ & <-);
     split; [discriminate | reflexivity]|].
  destruct (comp_err (Compress (encoder f) data));
    [left; destruct (Hinv _ _ _ H) as (<- & _ & <-);
     split; [discriminate | reflexivity]|].
  right. eexists.
  destruct (open_header_err os) eqn:Eopen.
  - destruct (Hinv _ _ _ H) as (<- & _ & <-).
    split; [reflexivity|]. right. auto.
  - destruct (header_written os) as [n|] eqn:Ewr.
    + destruct (Hinv _ _ _ H) as (<- & _ & <-).
      split; [reflexivity|]. right. split; [reflexivity|]. right. eauto.
    + destruct (Hinv _ _ _ H) as (<- & <- & <-).
      split; [reflexivity|]. left. auto.
Qed.

(** What a successful write leaves in memory, on a header with n used
    slots. *)
Lemma WriteTimedBlock_Ok_prefix (f : GPFile) (file : list byte) (ts : Z)
    (data : list byte) (n : nat) (f' : GPFile) (file' : list byte) :
  prefix_used f n ->
  0 <= comp_n (Compress (encoder f) data) ->
  prev_offset f n + comp_n (Compress (encoder f) data) < 2 ^ 63 ->
  WriteTimedBlock f file ts data = (f', file', Ok tt) ->
  (n < NumElements)%nat /\ prefix_used f' (S n)
  /\ timestamps f' !! n = Some ts
  /\ scan_loop f' ts NumElements 0 = ScanExists ts.
Proof.
  intros Hpu Hn0 Hnmax Hw.
  destruct (WriteTimedBlock_Ok_slot _ _ _ _ _ _ Hw)
    as (Hts & k & Hk & E0 & Hbefore & Et & El & b & Hb & Eb).
  assert (k = n) as ->.
  { destruct (decide (k < n)%nat) as [Hlt | Hge].
    - exfalso. exact (pu_used f n Hpu k 0 Hlt E0 eq_refl).
    - destruct (decide (n < k)%nat) as [Hlt | Hge']; [|lia].
      destruct (pu_free f n Hpu n ltac:(lia)) as (E0n & _).
      exfalso. exact (proj1 (Hbefore n 0 Hlt E0n) eq_refl). }
  split; [exact Hk|].
  assert (b = prev_offset f n) as ->.
  { unfold block_start in Hb. unfold prev_offset.
    destruct (Nat.eqb n 0); [congruence|].
    rewrite (list_lookup_total_correct _ _ _ Hb). reflexivity. }
  assert (Z.of_nat BufSize * 3 <= prev_offset f n) as Hprev.
  { unfold prev_offset. destruct (Nat.eqb n 0) eqn:En; [lia|].
    apply Nat.eqb_neq in En.
    destruct (lookup_lt_is_Some_2 (blocks f) (n - 1)%nat) as [x Ex].
    { rewrite (pu_blocks f n Hpu). lia. }
    rewrite (list_lookup_total_correct _ _ _ Ex).
    exact (pu_offsets f n Hpu (n - 1)%nat x ltac:(lia) Ex). }
  pose proof BufSize_eq as HB.
  assert (timestamps f' !! n = Some ts) as Etn.
  { rewrite Et. apply list_lookup_insert_eq.
    rewrite (pu_timestamps f n Hpu). exact Hk. }
  split; [|split; [exact Etn|]].
  - split.
    + rewrite Eb, length_insert. exact (pu_blocks f n Hpu).
    + rewrite Et, length_insert. exact (pu_timestamps f n Hpu).
    + rewrite El, length_insert. exact (pu_lengths f n Hpu).
    + lia.
    + intros i t Hi. rewrite Et. destruct (decide (i = n)) as [-> | Hne].
      * rewrite list_lookup_insert_eq by (rewrite (pu_timestamps f n Hpu); lia).
        congruence.
      * rewrite list_lookup_insert_ne by congruence.
        apply (pu_used f n Hpu). lia.
    + intros i Hi. rewrite Et, Eb, El, !list_lookup_insert_ne by lia.
      apply (pu_free f n Hpu). lia.
    + intros i x Hi. rewrite Eb. destruct (decide (i = n)) as [-> | Hne].
      * rewrite list_lookup_insert_eq by (rewrite (pu_blocks f n Hpu); lia).
        intros [= <-]. unfold add.
        rewrite wrap_small; [lia|]. unfold in_range. rewrite HB in Hprev. lia.
      * rewrite list_lookup_insert_ne by congruence.
        apply (pu_offsets f n Hpu). lia.
  - apply (scan_loop_finds f' ts n Etn); [|lia].
    intros j t Hj Ej. rewrite Et, list_lookup_insert_ne in Ej by lia.
    exact (Hbefore j t Hj Ej).
Qed.

(** X7. Every call of WriteTimedBlock, whatever the operating system
    answers to its file operations, keeps the header in memory in the
    shape the data model asks for. A successful write extends the used
    prefix by one slot. A write that fails in the slot search, in
    opening the file for appending or in Compress leaves the GPFile as
    it was. A write that fails in rewriting the header of the file
    (OpenFile or Write) returns that error with the slot already filled
    in memory: the used prefix is one slot longer, and a further write
    of the timestamp is refused as a duplicate. *)
Theorem WriteTimedBlock_keeps_invariant (os : file_ops) (f : GPFile)
    (file : list byte) (ts : Z) (data : list byte) (n : nat)
    (f' : GPFile) (file' : list byte) (r : result unit) :
  prefix_used f n ->
  0 <= comp_n (Compress (encoder f) data) ->
  prev_offset f n + comp_n (Compress (encoder f) data) < 2 ^ 63 ->
  WriteTimedBlock_os os f file ts data = (f', file', r) ->
  (r = Ok tt /\ (n < NumElements)%nat /\ prefix_used f' (S n))
  \/ (r <> Ok tt /\ f' = f /\ prefix_used f' n)
  \/ (r = Err ErrIO
      /\ (open_header_err os = true \/ is_Some (header_written os))
      /\ (n < NumElements)%nat /\ prefix_used f' (S n)
      /\ timestamps f' !! n = Some ts
      /\ forall os2 data2,
           WriteTimedBlock_os os2 f' file' ts data2
           = (f', file', Err (ErrTimestampExists ts))).
Proof.
  intros Hpu Hn0 Hnmax Hw.
  destruct (WriteTimedBlock_os_cases _ _ _ _ _ _ _ _ Hw)
    as [[Hr ->] | (file2 & Hok & Hcase)].
  { right. left. auto. }
  destruct (WriteTimedBlock_Ok_prefix _ _ _ _ _ _ _ Hpu Hn0 Hnmax Hok)
    as (Hn & Hpu' & Etn & Hscan).
  destruct Hcase as [[-> _] | [-> Hos]].
  - left. auto.
  - right. right. split; [reflexivity|].
    repeat (split; [assumption|]).
    intros os2 data2. unfold WriteTimedBlock_os. rewrite Hscan. reflexivity.
Qed.

(** The operating system refuses to open the file for rewriting the
    header. *)
Definition header_open_fails : file_ops :=
  {| open_append_err := false; open_header_err := true; header_written := None |}.

Lemma header_open_fails_write :
  exists f',
    WriteTimedBlock_os header_open_fails (empty_GPFile "db.gpf" null_encoder)
      empty_file 1000 five_bytes
    = (f', empty_file ++ five_bytes, Err ErrIO)
    /\ timestamps f' = <[0%nat := 1000]> (replicate NumElements 0).
Proof.
  destruct (scan_free_prefix (empty_GPFile "db.gpf" null_encoder) 1000 0
              (prefix_used_empty _ _)) as [Es Hne].
  - cbn [timestamps empty_GPFile]. intros Hin.
    apply elem_of_replicate in Hin. destruct Hin as [Hin _]. discriminate Hin.
  - rewrite NumElements_eq. lia.
  - unfold WriteTimedBlock_os. rewrite Es.
    apply Z.eqb_neq in Hne. rewrite Hne.
    cbn [open_append_err open_header_err header_open_fails].
    cbn [encoder empty_GPFile Compress null_encoder null_Compress comp_err
           comp_written].
    eexists. split; reflexivity.
Qed.

Lemma WriteTimedBlock_keeps_invariant_witness :
  exists f' file',
    WriteTimedBlock_os header_open_fails (empty_GPFile "db.gpf" null_encoder)
      empty_file 1000 five_bytes
    = (f', file', Err ErrIO)
    /\ prefix_used f' 1
    /\ timestamps f' !! 0%nat = Some 1000
    /\ WriteTimedBlock_os ops_work f' file' 1000 five_bytes
       = (f', file', Err (ErrTimestampExists 1000)).
Proof.
  destruct header_open_fails_write as (f' & Hw & Et).
  exists f', (empty_file ++ five_bytes). split; [exact Hw|].
  destruct (WriteTimedBlock_keeps_invariant header_open_fails
              (empty_GPFile "db.gpf" null_encoder) empty_file 1000 five_bytes 0
              f' (empty_file ++ five_bytes) (Err ErrIO) (prefix_used_empty _ _))
    as [(H & _) | [(_ & H & _) | (_ & _ & _ & Hpu & Etn & Hdup)]].
  - cbn. lia.
  - unfold prev_offset. cbn [Nat.eqb]. rewrite BufSize_eq.
    cbn [encoder empty_GPFile Compress null_encoder null_Compress comp_n
           length five_bytes]. lia.
  - exact Hw.
  - discriminate H.
  - exfalso. rewrite H in Et. cbn [timestamps empty_GPFile] in Et.
    apply (f_equal (fun l => l !! 0%nat)) in Et.
    rewrite list_lookup_insert_eq in Et by (rewrite length_replicate, NumElements_eq; lia).
    rewrite lookup_replicate_2 in Et by (rewrite NumElements_eq; lia).
    discriminate Et.
  - split; [exact Hpu|]. split; [exact Etn|]. apply Hdup.
Defined.

End GPFileEdges.

(* ===================================================================== *)
(** * The block file: reading through one file object                     *)
(* ===================================================================== *)

Module ReadSequence.
Import Int64 Int64Facts CodecFacts GPFile HeaderFacts GPFileSpec RoundTripSpec.
Import GPFileEdges.

(** Reading the blocks of the given timestamps one after the other
    through one file object. *)
Fixpoint read_all (f : GPFile) (file : list byte) (tss : list Z)
  : GPFile * list (result (list byte)) :=
  match tss with
  | [] => (f, [])
  | ts :: rest =>
      let '(f1, r) := ReadTimedBlock f file ts in
      let '(f2, rs) := read_all f1 file rest in
      (f2, r :: rs)
  end.

(** No timestamp is asked for twice in a row. *)
Definition no_repeat (tss : list Z) : Prop :=
  forall i ts, tss !! i = Some ts -> tss !! S i <> Some ts.

Lemma ReadBlock_seeks (f : GPFile) (file : list byte) (block : nat)
    (t b l seekPos : Z) :
  timestamps f !! block = Some t ->
  blocks f !! block = Some b ->
  lengths f !! block = Some l ->
  (t =? 0) && (b =? 0) && (l =? 0) = false ->
  block_start f block = Some seekPos ->
  seekPos <> lastSeekPos f -> 0 <= seekPos ->
  lastSeekPos (fst (ReadBlock f file block)) = seekPos.
Proof.
  intros Et Eb El Hused Hstart Hne Hpos.
  unfold ReadBlock. rewrite Et, Eb, El, Hused.
  unfold block_start in Hstart. rewrite Hstart. cbv zeta.
  apply Z.eqb_neq in Hne. rewrite Hne.
  assert ((seekPos <? 0) = false) as -> by (apply Z.ltb_ge; exact Hpos).
  cbn [negb andb].
  repeat case_match; reflexivity.
Qed.

Lemma start_of_mono (cs : list (list byte)) (j k : nat) :
  Forall (fun c => c <> []) cs -> (j < k <= length cs)%nat ->
  (start_of cs j < start_of cs k)%nat.
Proof.
  intros Hne Hjk. induction k as [|k IH]; [lia|].
  destruct (lookup_lt_is_Some_2 cs k ltac:(lia)) as [c Hc].
  rewrite (start_of_S cs k c Hc).
  assert (0 < length c)%nat as Hpos.
  { pose proof (proj1 (Forall_lookup _ _) Hne k c Hc) as H.
    destruct c; [congruence | cbn [length]; lia]. }
  destruct (decide (j = k)) as [-> | Hjk']; [lia|].
  pose proof (IH ltac:(lia)). lia.
Qed.

Section Sequence.
Context (enc : Encoder) `{!Lossless enc}.

Lemma Stored_same_header f f' file done :
  same_header f f' -> Stored enc f file done -> Stored enc f' file done.
Proof.
  intros (Eb & Et & El & _ & Ew & Ee) Hst.
  destruct (st_arrays _ _ _ _ Hst) as [H1 H2 H3 H4 H5 H6 H7].
  split.
  - split; rewrite ?Eb, ?Et, ?El, ?Ew; assumption.
  - rewrite Ee. exact (st_encoder _ _ _ _ Hst).
  - exact (st_count _ _ _ _ Hst).
  - rewrite Eb, Et, El. exact (st_used _ _ _ _ Hst).
  - rewrite Eb, Et, El. exact (st_free _ _ _ _ Hst).
  - rewrite Eb, Et, El. exact (st_file _ _ _ _ Hst).
Qed.


Lemma stored_block_start f file done k e :
  Stored enc f file done -> done !! k = Some e ->
  block_start f k = Some (Z.of_nat (start_of (map (compressed enc) done) k)).
Proof.
  intros Hst He. pose proof (lookup_lt_Some _ _ _ He) as Hk.
  unfold block_start. destruct (Nat.eqb k 0) eqn:Ek0.
  - apply Nat.eqb_eq in Ek0. subst k. unfold start_of.
    rewrite take_0. cbn [concat length]. f_equal; lia.
  - apply Nat.eqb_neq in Ek0.
    destruct (lookup_lt_is_Some_2 done (k - 1)%nat ltac:(lia)) as [[tp dp] Hp].
    destruct (st_used _ _ _ _ Hst _ tp dp Hp) as (_ & _ & Ebp).
    rewrite Ebp. replace (S (k - 1)) with k by lia. reflexivity.
Qed.

(** Reading a stored block through a file object whose last seek went
    elsewhere. *)
Lemma read_stored_seek f file done k ts data :
  Stored enc f file done ->
  Forall entry_ok done -> NoDup (map fst done) ->
  done !! k = Some (ts, data) ->
  lastSeekPos f <> Z.of_nat (start_of (map (compressed enc) done) k) ->
  exists f',
    ReadTimedBlock f file ts = (f', Ok data)
    /\ Stored enc f' file done
    /\ lastSeekPos f' = Z.of_nat (start_of (map (compressed enc) done) k).
Proof.
  intros Hst Hok Hnodup He Hlast.
  pose proof (st_arrays _ _ _ _ Hst) as Harr.
  destruct (st_used _ _ _ _ Hst k ts data He) as (Et & El & Eb).
  pose proof (lookup_lt_Some _ _ _ He) as Hk.
  pose proof (st_count _ _ _ _ Hst) as Hcount.
  destruct (proj1 (Forall_lookup _ _) Hok k _ He) as (Hts & _ & Hpay).
  cbn [fst snd] in Hts, Hpay.
  assert (ReadTimedBlock f file ts = ReadBlock f file k) as Hloop.
  { unfold ReadTimedBlock.
    apply (ReadTimedBlock_loop_at f file ts k Et); [| lia | lia].
    intros j t Hj Ej ->.
    destruct (lookup_lt_is_Some_2 done j ltac:(lia)) as [[tj dj] Hej].
    destruct (st_used _ _ _ _ Hst j tj dj Hej) as (Ej' & _).
    assert (tj = ts) as -> by congruence.
    assert (j = k); [|lia].
    apply (NoDup_lookup (map fst done) j k ts Hnodup).
    - rewrite list_lookup_fmap, Hej. reflexivity.
    - rewrite list_lookup_fmap, He. reflexivity. }
  set (cs := map (compressed enc) done) in *.
  set (c := comp_written (Compress enc data)).
  assert (cs !! k = Some c) as Hc.
  { unfold cs. rewrite list_lookup_fmap, He. reflexivity. }
  pose proof (compressed_bound enc done Hok) as Hcs. fold cs in Hcs.
  destruct (start_of_bound cs k Hcs) as [Hlo _].
  pose proof (compress_bound data Hpay) as Hcb. fold c in Hcb.
  pose proof BufSize_eq as HB.
  assert (sub (Z.of_nat (start_of cs (S k))) (Z.of_nat (start_of cs k))
          = Z.of_nat (length c)) as Hsub.
  { rewrite (start_of_S cs k c Hc). unfold sub.
    rewrite wrap_small; [lia | unfold in_range; lia]. }
  destruct (st_file _ _ _ _ Hst) as (w & Hw & Efile). fold cs in Efile.
  destruct (decompress_inverse data (concat (drop (S k) cs)) Hpay) as [Hn Hout].
  fold c in Hn, Hout.
  assert ((ts =? 0) && (Z.of_nat (start_of cs (S k)) =? 0)
          && (Z.of_nat (length data) =? 0) = false) as Hused.
  { apply Z.eqb_neq in Hts. rewrite Hts. reflexivity. }
  pose proof (stored_block_start f file done k _ Hst He) as Hstart. fold cs in Hstart.
  pose proof (ReadBlock_check f file k ts
                (Z.of_nat (start_of cs (S k))) (Z.of_nat (length data))
                (Z.of_nat (start_of cs k)) Et Eb El Hused Hstart
                (or_intror (Nat2Z.is_nonneg _))) as Hread.
  rewrite Hsub in Hread.
  specialize (Hread ltac:(unfold maxAlloc; lia)
                ltac:(unfold maxAlloc; unfold payload_ok in Hpay; lia)).
  cbv zeta in Hread.
  assert ((Z.of_nat (start_of cs k) =? lastSeekPos f) = false) as Hseek.
  { apply Z.eqb_neq. congruence. }
  rewrite Hseek, !Nat2Z.id in Hread.
  rewrite (st_encoder _ _ _ _ Hst) in Hread.
  assert (drop (start_of cs k) file = c ++ concat (drop (S k) cs)) as Hdrop.
  { rewrite Efile. apply drop_start_of; [|exact Hc].
    rewrite header_loop_length. exact Hw. }
  rewrite Hdrop in Hread.
  destruct Hread as [_ Hread].
  destruct (Hread Hn) as [Hres _]. rewrite Hout in Hres.
  exists (fst (ReadBlock f file k)). rewrite Hloop.
  split; [|split].
  - rewrite <- Hres. apply surjective_pairing.
  - exact (Stored_same_header f _ file done (ReadBlock_same_header f file k) Hst).
  - apply (ReadBlock_seeks f file k ts (Z.of_nat (start_of cs (S k)))
             (Z.of_nat (length data)) _ Et Eb El Hused Hstart);
      [congruence | lia].
Qed.

(** The blocks of a stored log, read in any order without asking for
    the block just read. *)
Lemma read_all_stored file done :
  Forall entry_ok done -> NoDup (map fst done) ->
  Forall (fun e => compressed enc e <> []) done ->
  forall reads f,
  Stored enc f file done ->
  Forall (fun e => e ∈ done) reads ->
  no_repeat (map fst reads) ->
  (forall e k, head reads = Some e -> done !! k = Some e ->
     lastSeekPos f <> Z.of_nat (start_of (map (compressed enc) done) k)) ->
  snd (read_all f file (map fst reads)) = map (fun e => Ok (snd e)) reads.
Proof.
  intros Hok Hnd Hne.
  induction reads as [|[ts data] reads IH]; intros f Hst Hin Hrep Hhead;
    [reflexivity|].
  cbn [map fst read_all].
  pose proof (Forall_inv Hin) as Hin1. cbn beta in Hin1.
  apply list_elem_of_lookup in Hin1. destruct Hin1 as [k Hk].
  destruct (read_stored_seek f file done k ts data Hst Hok Hnd Hk
              (Hhead _ k eq_refl Hk)) as (f1 & Hr & Hst1 & Hlast1).
  rewrite Hr.
  specialize (IH f1 Hst1 (Forall_inv_tail Hin)).
  destruct (read_all f1 file (map fst reads)) as [f2 rs] eqn:Hrest.
  cbn [snd] in *. f_equal. apply IH.
  - intros i t Hi. exact (Hrep (S i) t Hi).
  - intros [ts2 data2] k2 Hhd Hk2. rewrite Hlast1.
    assert (ts2 <> ts) as Hts.
    { destruct reads as [|e reads']; [discriminate Hhd|].
      cbn [head] in Hhd. injection Hhd as ->.
      intros ->. exact (Hrep 0%nat ts eq_refl eq_refl). }
    assert (k2 <> k) as Hkk by (intros ->; congruence).
    pose proof (lookup_lt_Some _ _ _ Hk) as Hlk.
    pose proof (lookup_lt_Some _ _ _ Hk2) as Hlk2.
    assert (Forall (fun c : list byte => c <> []) (map (compressed enc) done)) as Hcs.
    { apply Forall_fmap. exact Hne. }
    assert (length (map (compressed enc) done) = length done) as Hlen
      by apply length_map.
    destruct (decide (k < k2)%nat) as [Hlt | Hge].
    + pose proof (start_of_mono _ k k2 Hcs ltac:(lia)). lia.
    + pose proof (start_of_mono _ k2 k Hcs ltac:(lia)). lia.
Qed.

End Sequence.

(** X12. With a lossless encoder whose output is never empty, after
    the entries of a log have been written to a new file, any sequence
    of ReadTimedBlock calls through the one GPFile returns the payloads
    written, as long as no timestamp is asked for twice in a row. *)
Theorem read_sequence (enc : Encoder) (Henc : Lossless enc)
    (p : string) (log reads : list (Z * list byte)) :
  (length log <= NumElements)%nat ->
  Sorted Z.lt (map fst log) ->
  Forall entry_ok log ->
  Forall (fun e => comp_written (Compress enc (snd e)) <> []) log ->
  Forall (fun e => e ∈ log) reads ->
  no_repeat (map fst reads) ->
  exists f file,
    write_all (empty_GPFile p enc) empty_file log = (f, file, Ok tt)
    /\ snd (read_all f file (map fst reads)) = map (fun e => Ok (snd e)) reads.
Proof.
  intros Hlen Hsorted Hok Hne Hin Hrep.
  pose proof (increasing_NoDup _ Hsorted) as Hnd.
  destruct (write_all_stored enc log (empty_GPFile p enc) empty_file []
              (Stored_empty enc p) eq_refl Hok Hnd Hlen)
    as (f & file & Hw & Hst & Hlast).
  cbn [app] in Hst.
  exists f, file. split; [exact Hw|].
  apply (read_all_stored enc file log Hok Hnd Hne reads f Hst Hin Hrep).
  intros e k _ Hk. rewrite Hlast.
  pose proof BufSize_eq as HB. unfold start_of. rewrite HB. lia.
Qed.

Lemma read_sequence_witness :
  exists f file,
    write_all (empty_GPFile "db.gpf" null_encoder) empty_file two_blocks
    = (f, file, Ok tt)
    /\ snd (read_all f file
              (map fst [(2000, [x07; x08]); (1000, five_bytes); (2000, [x07; x08])]))
       = map (fun e => Ok (snd e))
           [(2000, [x07; x08]); (1000, five_bytes); (2000, [x07; x08])].
Proof.
  apply (read_sequence null_encoder null_encoder_Lossless "db.gpf" two_blocks).
  - rewrite NumElements_eq. cbn [length two_blocks]. lia.
  - cbn [map fst two_blocks]. repeat constructor.
  - unfold two_blocks, entry_ok, in_range, payload_ok.
    repeat constructor; cbn [fst snd length five_bytes]; lia.
  - unfold two_blocks. repeat constructor; discriminate.
  - unfold two_blocks. repeat constructor.
  - intros [|[|[|i]]] ts H1 H2; cbn in H1, H2; congruence.
Defined.

End ReadSequence.

(* ===================================================================== *)
(** * The block file: reading the same block twice                        *)
(* ===================================================================== *)

Module RepeatedRead.
Import Int64 Int64Facts CodecFacts GPFile HeaderFacts GPFileSpec RoundTripSpec.
Import GPFileEdges ReadSequence.

(** [Decompress] takes the compressed block from the reader: it reads
    [len(in)] bytes when the reader has them. *)
Definition reads_block (enc : Encoder) : Prop :=
  forall (n : nat) (out src : list byte),
    (n <= length src)%nat -> dec_consumed (Decompress enc n out src) = n.

(** What follows block [k] in the file. *)
Lemma drop_after_block (hdr : list byte) (cs : list (list byte)) (k : nat) :
  length hdr = (BufSize * 3)%nat -> (k < length cs)%nat ->
  drop (start_of cs (S k)) (hdr ++ concat cs) = concat (drop (S k) cs).
Proof.
  intros Hhdr Hk. unfold start_of. rewrite <- Hhdr.
  rewrite drop_app_add' by reflexivity.
  rewrite <- (take_drop (S k) cs) at 2. rewrite concat_app.
  apply drop_app_length.
Qed.

Section Repeated.
Context (enc : Encoder) `{!Lossless enc}.

(** [ReadTimedBlock] of a stored timestamp, with or without a seek:
    the call of [Decompress] it makes, and what it returns. *)
Lemma stored_read (f : GPFile) (file : list byte) (done : list (Z * list byte))
    (k : nat) (ts : Z) (data : list byte) :
  Stored enc f file done ->
  Forall entry_ok done -> NoDup (map fst done) ->
  done !! k = Some (ts, data) ->
  let c := comp_written (Compress enc data) in
  let start := start_of (map (compressed enc) done) k in
  let pos := if Z.of_nat start =? lastSeekPos f then default O (curFile f)
             else start in
  let r := Decompress enc (length c) (replicate (length data) x00)
             (drop pos file) in
  ReadTimedBlock f file ts
  = ({| blocks := blocks f; timestamps := timestamps f; lengths := lengths f;
        filename := filename f; curFile := Some (pos + dec_consumed r)%nat;
        wBuf := wBuf f; lastSeekPos := Z.of_nat start; encoder := encoder f |},
     if dec_n r =? Z.of_nat (length c) then Ok (dec_out r)
     else Err ErrIncorrectBytes).
Proof.
  intros Hst Hok Hnodup He c start pos r.
  pose proof (st_arrays _ _ _ _ Hst) as Harr.
  destruct (st_used _ _ _ _ Hst k ts data He) as (Et & El & Eb).
  pose proof (lookup_lt_Some _ _ _ He) as Hk.
  pose proof (st_count _ _ _ _ Hst) as Hcount.
  destruct (proj1 (Forall_lookup _ _) Hok k _ He) as (Hts & _ & Hpay).
  cbn [fst snd] in Hts, Hpay.
  assert (ReadTimedBlock f file ts = ReadBlock f file k) as ->.
  { unfold ReadTimedBlock.
    apply (ReadTimedBlock_loop_at f file ts k Et); [| lia | lia].
    intros j t Hj Ej ->.
    destruct (lookup_lt_is_Some_2 done j ltac:(lia)) as [[tj dj] Hej].
    destruct (st_used _ _ _ _ Hst j tj dj Hej) as (Ej' & _).
    assert (tj = ts) as -> by congruence.
    assert (j = k); [|lia].
    apply (NoDup_lookup (map fst done) j k ts Hnodup).
    - rewrite list_lookup_fmap, Hej. reflexivity.
    - rewrite list_lookup_fmap, He. reflexivity. }
  set (cs := map (compressed enc) done) in *.
  assert (cs !! k = Some c) as Hc.
  { unfold cs. rewrite list_lookup_fmap, He. reflexivity. }
  pose proof (compressed_bound enc done Hok) as Hcs. fold cs in Hcs.
  destruct (start_of_bound cs k Hcs) as [Hlo _].
  pose proof (compress_bound data Hpay) as Hcb. fold c in Hcb.
  pose proof BufSize_eq as HB.
  unfold payload_ok in Hpay.
  assert (sub (Z.of_nat (start_of cs (S k))) (Z.of_nat (start_of cs k))
          = Z.of_nat (length c)) as Hsub.
  { rewrite (start_of_S cs k c Hc). unfold sub.
    rewrite wrap_small; [lia | unfold in_range; lia]. }
  assert ((ts =? 0) && (Z.of_nat (start_of cs (S k)) =? 0)
          && (Z.of_nat (length data) =? 0) = false) as Hused.
  { apply Z.eqb_neq in Hts. rewrite Hts. reflexivity. }
  pose proof (stored_block_start enc f file done k _ Hst He) as Hstart.
  fold cs in Hstart.
  pose proof (ReadBlock_reaches f file k ts
                (Z.of_nat (start_of cs (S k))) (Z.of_nat (length data))
                (Z.of_nat (start_of cs k)) Et Eb El Hused Hstart
                (or_intror (Nat2Z.is_nonneg _))) as Hread.
  rewrite Hsub in Hread.
  specialize (Hread ltac:(unfold maxAlloc; lia) ltac:(unfold maxAlloc; lia)).
  cbv zeta in Hread. rewrite !Nat2Z.id in Hread.
  rewrite Hread, (st_encoder _ _ _ _ Hst). reflexivity.
Qed.

(** A stored block read twice in a row through one file object. *)
Lemma stored_read_twice (f : GPFile) (file : list byte)
    (done : list (Z * list byte)) (k : nat) (ts : Z) (data : list byte) :
  reads_block enc ->
  Stored enc f file done -> lastSeekPos f = 0 ->
  Forall entry_ok done -> NoDup (map fst done) ->
  done !! k = Some (ts, data) ->
  exists f1,
    ReadTimedBlock f file ts = (f1, Ok data)
    /\ snd (ReadTimedBlock f1 file ts)
       = (let c := comp_written (Compress enc data) in
          let r := Decompress enc (length c) (replicate (length data) x00)
                     (concat (map (compressed enc) (drop (S k) done))) in
          if dec_n r =? Z.of_nat (length c) then Ok (dec_out r)
          else Err ErrIncorrectBytes).
Proof.
  intros Hreads Hst Hlast Hok Hnd He.
  pose proof (lookup_lt_Some _ _ _ He) as Hk.
  pose proof BufSize_eq as HB.
  destruct (proj1 (Forall_lookup _ _) Hok k _ He) as (_ & _ & Hpay).
  cbn [snd] in Hpay.
  set (cs := map (compressed enc) done).
  set (c := comp_written (Compress enc data)).
  assert (cs !! k = Some c) as Hc
    by (unfold cs; rewrite list_lookup_fmap, He; reflexivity).
  destruct (st_file _ _ _ _ Hst) as (w & Hw0 & Efile). fold cs in Efile.
  assert (drop (start_of cs k) file = c ++ concat (drop (S k) cs)) as Hdrop1.
  { rewrite Efile. apply drop_start_of; [|exact Hc].
    rewrite header_loop_length. exact Hw0. }
  assert (drop (start_of cs k + length c) file = concat (drop (S k) cs)) as Hdrop2.
  { rewrite <- (start_of_S cs k c Hc), Efile.
    apply drop_after_block.
    - rewrite header_loop_length. exact Hw0.
    - unfold cs. rewrite length_map. exact Hk. }
  (* the first read seeks *)
  pose proof (stored_read f file done k ts data Hst Hok Hnd He) as H1.
  cbv zeta in H1. fold cs c in H1.
  assert ((Z.of_nat (start_of cs k) =? lastSeekPos f) = false) as Hseek.
  { rewrite Hlast. apply Z.eqb_neq. unfold start_of. rewrite HB. lia. }
  rewrite Hseek, Hdrop1 in H1.
  destruct (decompress_inverse data (concat (drop (S k) cs)) Hpay) as [Hn Hout].
  fold c in Hn, Hout.
  rewrite Hn, Hout, Z.eqb_refl in H1.
  rewrite (Hreads (length c)) in H1 by (rewrite length_app; lia).
  match type of H1 with _ = (?g, _) => set (f1 := g) in * end.
  exists f1. split; [exact H1|].
  (* the second does not *)
  assert (Stored enc f1 file done) as Hst1.
  { apply (Stored_same_header enc f f1 file done); [|exact Hst].
    repeat split. }
  pose proof (stored_read f1 file done k ts data Hst1 Hok Hnd He) as H2.
  cbv zeta in H2. fold cs c in H2.
  assert (lastSeekPos f1 = Z.of_nat (start_of cs k)) as Hlast1 by reflexivity.
  assert (curFile f1 = Some (start_of cs k + length c)%nat) as Hcur1
    by reflexivity.
  rewrite Hlast1, Hcur1, Z.eqb_refl in H2.
  cbn [default from_option id] in H2.
  rewrite Hdrop2 in H2. rewrite H2. cbn [snd]. cbv zeta.
  assert (map (compressed enc) (drop (S k) done) = drop (S k) cs) as ->
    by (apply fmap_drop).
  reflexivity.
Qed.

End Repeated.

(** C1, as the code behaves. With a lossless encoder whose Decompress
    takes the block from the reader, after the entries of a log have
    been written to a new file: the first ReadTimedBlock of a timestamp
    through the writing GPFile returns its payload; a second
    ReadTimedBlock of the same timestamp, right after it, does not read
    the block again. ReadBlock finds the offset of the block in
    lastSeekPos and does not seek, while the handle stands at the end
    of the block: Decompress is given the bytes that follow the block,
    and the call returns what Decompress makes of them. *)
Theorem second_read_returns_next_bytes (enc : Encoder) (Henc : Lossless enc)
    (p : string) (log : list (Z * list byte))
    (k : nat) (ts : Z) (data : list byte) :
  reads_block enc ->
  (length log <= NumElements)%nat ->
  Sorted Z.lt (map fst log) ->
  Forall entry_ok log ->
  log !! k = Some (ts, data) ->
  exists f0 file0 f file f1,
    NewGPFile p enc None = (Ok f0, Some file0)
    /\ write_all f0 file0 log = (f, file, Ok tt)
    /\ ReadTimedBlock f file ts = (f1, Ok data)
    /\ snd (ReadTimedBlock f1 file ts)
       = (let c := comp_written (Compress enc data) in
          let following :=
            concat (map (fun e => comp_written (Compress enc (snd e)))
                      (drop (S k) log)) in
          let r := Decompress enc (length c) (replicate (length data) x00)
                     following in
          if dec_n r =? Z.of_nat (length c) then Ok (dec_out r)
          else Err ErrIncorrectBytes).
Proof.
  intros Hreads Hlen Hsorted Hok He.
  pose proof (increasing_NoDup _ Hsorted) as Hnd.
  destruct (write_all_stored enc log (empty_GPFile p enc)
              empty_file [] (Stored_empty enc p) eq_refl Hok Hnd Hlen)
    as (f & file & Hw & Hst & Hlast).
  cbn [app] in Hst.
  destruct (stored_read_twice enc f file log k ts data Hreads Hst Hlast Hok Hnd He)
    as (f1 & H1 & H2).
  exists (empty_GPFile p enc), empty_file, f, file, f1.
  split; [apply NewGPFile_absent|]. split; [exact Hw|]. split; [exact H1|].
  exact H2.
Qed.

Lemma null_encoder_reads_block : reads_block null_encoder.
Proof.
  intros n out src Hn.
  cbn [Decompress null_encoder]. unfold null_Decompress.
  rewrite length_take.
  replace (Nat.min n (length src)) with n by lia.
  rewrite Nat.eqb_refl. reflexivity.
Qed.

Definition next_five : list byte := [x06; x07; x08; x09; x0a].

Definition two_fives : list (Z * list byte) :=
  [(1000, five_bytes); (2000, next_five)].

Lemma second_read_returns_next_bytes_witness :
  exists f0 file0 f file f1,
    NewGPFile "db.gpf" null_encoder None = (Ok f0, Some file0)
    /\ write_all f0 file0 two_fives = (f, file, Ok tt)
    /\ ReadTimedBlock f file 1000 = (f1, Ok five_bytes)
    /\ snd (ReadTimedBlock f1 file 1000) = Ok next_five.
Proof.
  destruct (second_read_returns_next_bytes null_encoder null_encoder_Lossless
              "db.gpf" two_fives 0 1000 five_bytes)
    as (f0 & file0 & f & file & f1 & Hnew & Hw & H1 & H2).
  - exact null_encoder_reads_block.
  - rewrite NumElements_eq. cbn [length two_fives]. lia.
  - cbn [map fst two_fives]. repeat constructor.
  - unfold two_fives, entry_ok, in_range, payload_ok.
    repeat constructor; cbn [fst snd length five_bytes next_five]; lia.
  - reflexivity.
  - exists f0, file0, f, file, f1.
    split; [exact Hnew|]. split; [exact Hw|]. split; [exact H1|].
    rewrite H2. reflexivity.
Defined.

End RepeatedRead.

(* ===================================================================== *)
(** * The capture: counting, leaving the error state, ending a run        *)
(* ===================================================================== *)

Module CaptureRuns.
Import Capture CaptureSpec.

Lemma wrap_add_l (a b : Z) : Int64.wrap (Int64.wrap a + b) = Int64.wrap (a + b).
Proof.
  destruct (Int64Facts.wrap_eq a) as [s Hs]. rewrite Hs.
  replace (a + s * 2 ^ 64 + b) with (a + b + s * 2 ^ 64) by lia.
  apply Int64Facts.wrap_shift.
Qed.

Section WithPackage.
Context {FlowLog GPPacket AggFlowMap : Type}.
Context `{!Package FlowLog GPPacket AggFlowMap}.
Implicit Types (c : Capture FlowLog) (st : @processing FlowLog).

(** ** What [process] has counted *)

(** The packets of [ps] that decode, in order. *)
Fixpoint decoded (ps : list (@packet GPPacket)) : list GPPacket :=
  match ps with
  | [] => []
  | Decoded pkt :: rest => pkt :: decoded rest
  | _ :: rest => decoded rest
  end.

(** How many packets of [ps] fail to decode with the message [msg]. *)
Fixpoint failures (msg : string) (ps : list (@packet GPPacket)) : Z :=
  match ps with
  | [] => 0
  | NotDecoded m :: rest =>
      (if bool_decide (m = msg) then 1 else 0) + failures msg rest
  | _ :: rest => failures msg rest
  end.

Lemma failures_nonneg msg ps : 0 <= failures msg ps.
Proof.
  induction ps as [|[| |m] ps IH]; cbn [failures]; try lia.
  destruct (bool_decide (m = msg)); lia.
Qed.

(** The fields of the capture that [process] does not write. *)
Definition untouched c c' : Prop :=
  iface c' = iface c /\ closed c' = closed c /\ state c' = state c
  /\ config c' = config c /\ cmdChan_closed c' = cmdChan_closed c
  /\ lastRotationStats c' = lastRotationStats c
  /\ captureHandle c' = captureHandle c.

Lemma process_loop_accounts ps : forall st st',
  Int64.in_range (packetsLogged (capture st)) ->
  process_loop st ps = (st', AwaitsPacket) ->
  packetsLogged (capture st')
  = Int64.wrap (packetsLogged (capture st) + Z.of_nat (length (decoded ps)))
  /\ flowLog (capture st') = foldl FlowLog_Add (flowLog (capture st)) (decoded ps)
  /\ (forall msg,
        errMap (capture st') !! msg
        = if decide (failures msg ps = 0) then errMap (capture st) !! msg
          else Some (Int64.wrap (default 0 (errMap (capture st) !! msg)
                                 + failures msg ps)))
  /\ untouched (capture st) (capture st').
Proof.
  induction ps as [|p ps IH]; intros st st' Hrange Hp; cbn [process_loop] in Hp.
  - injection Hp as <-. cbn [decoded length failures foldl].
    rewrite Z.add_0_r, (Int64Facts.wrap_small _ Hrange).
    repeat split.
  - destruct p as [stopped | pkt | m].
    + cbn [capturePacket] in Hp. destruct stopped; discriminate Hp.
    + cbn [capturePacket] in Hp.
      apply IH in Hp; [|cbn [capture packetsLogged]; apply Int64Facts.wrap_in_range].
      cbn [capture packetsLogged flowLog errMap] in Hp.
      destruct Hp as (Hlog & Hflow & Herr & Hun).
      cbn [decoded length failures foldl].
      split; [|split; [exact Hflow | split; [exact Herr | exact Hun]]].
      rewrite Hlog. unfold Int64.add. rewrite wrap_add_l. f_equal. lia.
    + cbn [capturePacket] in Hp. cbv zeta in Hp.
      destruct (ErrorThreshold <? Int64.add (errcount st) 1); [discriminate Hp|].
      apply IH in Hp; [|exact Hrange].
      cbn [capture packetsLogged flowLog errMap] in Hp.
      destruct Hp as (Hlog & Hflow & Herr & Hun).
      cbn [decoded failures].
      split; [exact Hlog|]. split; [exact Hflow|]. split; [|exact Hun].
      intros msg. rewrite Herr. pose proof (failures_nonneg msg ps) as Hnn.
      destruct (decide (m = msg)) as [-> | Hne].
      * rewrite bool_decide_eq_true_2 by reflexivity.
        rewrite lookup_insert_eq. cbn [default from_option id].
        destruct (decide (1 + failures msg ps = 0)) as [H0 | _]; [lia|].
        destruct (decide (failures msg ps = 0)) as [-> | _].
        -- reflexivity.
        -- unfold Int64.add. rewrite wrap_add_l. do 2 f_equal. lia.
      * rewrite bool_decide_eq_false_2 by exact Hne.
        rewrite lookup_insert_ne by exact Hne. rewrite Z.add_0_l. reflexivity.
Qed.

(** X13. While process keeps running on the packets it is given,
    packetsLogged has grown by the number of packets that decoded, the
    flow log has got these packets in order, every message of the
    error map counts the packets that failed with it, and no other
    field of the capture has changed. *)
Theorem process_accounts c (ps : list (@packet GPPacket)) st' :
  Int64.in_range (packetsLogged c) ->
  process c ps = (st', AwaitsPacket) ->
  packetsLogged (capture st')
  = Int64.wrap (packetsLogged c + Z.of_nat (length (decoded ps)))
  /\ flowLog (capture st') = foldl FlowLog_Add (flowLog c) (decoded ps)
  /\ (forall msg,
        errMap (capture st') !! msg
        = if decide (failures msg ps = 0) then errMap c !! msg
          else Some (Int64.wrap (default 0 (errMap c !! msg) + failures msg ps)))
  /\ untouched c (capture st').
Proof.
  intros Hrange Hp.
  exact (process_loop_accounts ps {| capture := c; errcount := 0; warned := [] |}
           st' Hrange Hp).
Qed.

(** ** The warnings of [process] *)

Lemma process_loop_warned ps : forall st (m0 : gmap string Z),
  NoDup (warned st) ->
  (forall msg, msg ∈ warned st <->
               m0 !! msg = None /\ is_Some (errMap (capture st) !! msg)) ->
  (forall msg, is_Some (m0 !! msg) -> is_Some (errMap (capture st) !! msg)) ->
  let st' := fst (process_loop st ps) in
  NoDup (warned st')
  /\ (forall msg, msg ∈ warned st' <->
                  m0 !! msg = None /\ is_Some (errMap (capture st') !! msg)).
Proof.
  induction ps as [|p ps IH]; intros st m0 Hnd Hw Hkeep; cbn [process_loop].
  - cbn [fst]. auto.
  - destruct p as [stopped | pkt | m].
    + cbn [capturePacket]. destruct stopped; cbn [fst]; auto.
    + cbn [capturePacket]. apply IH; cbn [capture warned errMap]; assumption.
    + assert (let st1 := fst (capturePacket st (NotDecoded m)) in
              NoDup (warned st1)
              /\ (forall msg, msg ∈ warned st1 <->
                    m0 !! msg = None /\ is_Some (errMap (capture st1) !! msg))
              /\ (forall msg, is_Some (m0 !! msg) ->
                    is_Some (errMap (capture st1) !! msg))) as Hstep.
      { cbn [capturePacket]. cbv zeta.
        assert (forall (b : bool) (x : @processing FlowLog) (e : captureError),
                  fst (if b then (x, Some e) else (x, None)) = x) as Hif
          by (intros [] ? ?; reflexivity).
        rewrite Hif. cbn [warned capture errMap].
        destruct (errMap (capture st) !! m) as [v|] eqn:Em.
        - split; [exact Hnd|]. split.
          + intros msg. rewrite Hw. destruct (decide (m = msg)) as [-> | Hne].
            * rewrite lookup_insert_eq, Em. split; intros [H1 _]; eauto.
            * rewrite lookup_insert_ne by exact Hne. reflexivity.
          + intros msg Hs. destruct (decide (m = msg)) as [-> | Hne].
            * rewrite lookup_insert_eq. eauto.
            * rewrite lookup_insert_ne by exact Hne. auto.
        - assert (m0 !! m = None) as Hm0.
          { destruct (m0 !! m) eqn:E0; [|reflexivity].
            destruct (Hkeep m ltac:(eauto)) as [x Hx]. congruence. }
          split; [|split].
          + apply NoDup_app. split; [exact Hnd|]. split; [|apply NoDup_singleton].
            intros x Hx Hx'. apply list_elem_of_singleton in Hx'. subst x.
            apply Hw in Hx. destruct Hx as [_ [y Hy]]. congruence.
          + intros msg. rewrite elem_of_app, list_elem_of_singleton, Hw.
            destruct (decide (m = msg)) as [-> | Hne].
            * rewrite lookup_insert_eq. split; [eauto | auto].
            * rewrite lookup_insert_ne by exact Hne.
              split; [intros [H1 | H1]; [exact H1 | congruence] | auto].
          + intros msg Hs. destruct (decide (m = msg)) as [-> | Hne].
            * rewrite lookup_insert_eq. eauto.
            * rewrite lookup_insert_ne by exact Hne. auto. }
      destruct (capturePacket st (NotDecoded m)) as [st1 [e|]] eqn:Ecp;
        cbn [fst] in Hstep; destruct Hstep as (H1 & H2 & H3).
      * destruct e as [[]|]; cbn [fst]; auto.
      * apply IH; assumption.
Qed.

(** X14. process logs the warning about a faulty packet once for
    every error message that is new to the error map, and for no
    other. *)
Theorem process_warns_once c (ps : list (@packet GPPacket)) :
  let st' := fst (process c ps) in
  NoDup (warned st')
  /\ (forall msg, msg ∈ warned st' <->
                  errMap c !! msg = None /\ is_Some (errMap (capture st') !! msg)).
Proof.
  unfold process. apply process_loop_warned; cbn [warned capture].
  - apply NoDup_nil_2.
  - intros msg. split.
    + intros Hin. apply elem_of_nil in Hin. destruct Hin.
    + intros [Hn [x Hx]]. congruence.
  - auto.
Qed.

(** ** What the commands leave alone *)

(** No command closes the capture or its channel, renames it, or
    changes the packet count. *)
Lemma execute_keeps (cmd : captureCommand) c :
  let c' := fst (fst (execute cmd c)) in
  iface c' = iface c /\ closed c' = closed c
  /\ cmdChan_closed c' = cmdChan_closed c
  /\ packetsLogged c' = packetsLogged c.
Proof.
  destruct cmd as [| | |cfg|]; cbn [execute fst]; try (repeat split; fail).
  - destruct (needReinitialization c cfg); cbn [fst]; repeat split.
  - destruct (FlowLog_Rotate (flowLog c)); cbn [fst]; repeat split.
Qed.

(** A command hands on to [initializing] or to nothing. *)
Lemma execute_next (cmd : captureCommand) c (s : stateFn) :
  snd (execute cmd c) = Some s ->
  s = fn_initializing
  /\ exists cfg, cmd = captureCommandUpdate cfg /\ cfg <> config c
                 /\ config (fst (fst (execute cmd c))) = cfg
                 /\ captureHandle (fst (fst (execute cmd c))) = None
                 /\ errMap (fst (fst (execute cmd c))) = ∅.
Proof.
  destruct cmd as [| | |cfg|]; cbn [execute snd]; try discriminate.
  - unfold needReinitialization.
    destruct (bool_decide (config c = cfg)) eqn:E; cbn [negb snd fst];
      [discriminate|].
    apply bool_decide_eq_false in E.
    intros [= <-]. split; [reflexivity|]. exists cfg.
    split; [reflexivity|]. split; [congruence|]. repeat split.
  - destruct (FlowLog_Rotate (flowLog c)); cbn [snd]. discriminate.
Qed.

Lemma execute_None_config (cmd : captureCommand) c :
  snd (execute cmd c) = None ->
  config (fst (fst (execute cmd c))) = config c
  /\ match cmd with
     | captureCommandUpdate cfg => cfg = config c
     | _ => True
     end.
Proof.
  destruct cmd as [| | |cfg|]; cbn [execute snd fst]; auto.
  - unfold needReinitialization.
    destruct (bool_decide (config c = cfg)) eqn:E; cbn [negb snd fst];
      [|discriminate].
    apply bool_decide_eq_true in E. auto.
  - destruct (FlowLog_Rotate (flowLog c)); cbn [snd fst]. auto.
Qed.

(** ** Leaving the error state *)

(** The events [inError] serves without leaving: commands other than
    an update to a configuration that differs from [cfg0]. *)
Definition served (cfg0 : CaptureConfig) (ev : selected) : Prop :=
  match ev with
  | Command (captureCommandUpdate cfg) => cfg = cfg0
  | Command _ => True
  | _ => False
  end.

Lemma inError_loop_leaves (evs : list selected) : forall c c' next rest,
  inError_loop c evs = inl (c', next, rest) ->
  state c' = state c /\ packetsLogged c' = packetsLogged c
  /\ closed c' = closed c /\ cmdChan_closed c' = cmdChan_closed c
  /\ iface c' = iface c
  /\ exists pre ev,
       evs = pre ++ ev :: rest
       /\ Forall (served (config c)) pre
       /\ ((ev = CtxDone /\ next = Some fn_closing /\ config c' = config c)
           \/ (exists cfg,
                 ev = Command (captureCommandUpdate cfg) /\ cfg <> config c
                 /\ next = Some fn_initializing /\ config c' = cfg
                 /\ captureHandle c' = None /\ errMap c' = ∅)).
Proof.
  induction evs as [|ev evs IH]; intros c c' next rest H; cbn [inError_loop] in H;
    [discriminate H|].
  destruct ev as [|cmd|e]; [| |discriminate H].
  - injection H as <- <- <-. repeat (split; [reflexivity|]).
    exists [], CtxDone. split; [reflexivity|]. split; [constructor|]. left. auto.
  - pose proof (execute_state cmd c) as Hs.
    pose proof (execute_keeps cmd c) as Hk.
    pose proof (execute_next cmd c) as Hn.
    pose proof (execute_None_config cmd c) as Hc.
    destruct (execute cmd c) as [[c1 r] nx]. cbn [fst snd] in Hs, Hk, Hn, Hc.
    destruct Hk as (Ki & Kc & Kch & Kp).
    destruct nx as [s|].
    + injection H as <- <- <-.
      destruct (Hn s eq_refl) as (-> & cfg & -> & Hne & Ecfg & Eh & Ee).
      repeat (split; [assumption|]).
      exists [], (Command (captureCommandUpdate cfg)).
      split; [reflexivity|]. split; [constructor|]. right. exists cfg.
      repeat split; assumption.
    + destruct (Hc eq_refl) as [Ecfg Hsame].
      destruct (IH c1 c' next rest H)
        as (Is & Ip & Ic & Ich & Ii & pre & ev & -> & Hpre & Hev).
      split; [congruence|]. split; [congruence|]. split; [congruence|].
      split; [congruence|]. split; [congruence|].
      exists (Command cmd :: pre), ev. split; [reflexivity|].
      rewrite Ecfg in Hpre, Hev. split; [|exact Hev].
      constructor; [|exact Hpre].
      destruct cmd; cbn [served]; auto.
Qed.

(** X15. A capture leaves the error state in two ways only: through
    the cancellation of its context, to closing, or through an update
    to a configuration that differs from its own, to initializing,
    with the handle and the error map reset. The commands served
    before that, an update to the configuration it has among them,
    leave it in StateError. *)
Theorem inError_leaves c (evs : list selected) c' next rest :
  inError c evs = inl (c', next, rest) ->
  state c' = StateError /\ packetsLogged c' = packetsLogged c
  /\ exists pre ev,
       evs = pre ++ ev :: rest
       /\ Forall (served (config c)) pre
       /\ ((ev = CtxDone /\ next = Some fn_closing /\ config c' = config c)
           \/ (exists cfg,
                 ev = Command (captureCommandUpdate cfg) /\ cfg <> config c
                 /\ next = Some fn_initializing /\ config c' = cfg
                 /\ captureHandle c' = None /\ errMap c' = ∅)).
Proof.
  unfold inError. intros H.
  destruct (inError_loop_leaves evs _ c' next rest H)
    as (Hs & Hp & _ & _ & _ & Hev).
  split; [exact Hs|]. split; [exact Hp|]. exact Hev.
Qed.

(** ** How a run ends *)

(** A run that has exited went through [closing], or returned from
    [capturing] after a command that names no next state. *)
Definition exited (c0 c' : Capture FlowLog) : Prop :=
  (closed c' = true /\ cmdChan_closed c' = true /\ state c' = StateClosing
   /\ captureHandle c' = None /\ errMap c' = ∅)
  \/ (closed c' = false /\ cmdChan_closed c' = cmdChan_closed c0
      /\ state c' = StateCapturing).

(** A run that is blocked waits in a state function for an input the
    environment does not hold. *)
Definition blocked (fn : stateFn) (c' : Capture FlowLog) (env' : Env) : Prop :=
  closed c' = false
  /\ match fn with
     | fn_initializing => sources env' = []
     | fn_capturing => events env' = [] /\ state c' = StateCapturing
     | fn_inError =>
         state c' = StateError
         /\ (events env' = []
             \/ exists err rest, events env' = CaptureError err :: rest)
     | fn_closing => False
     end.

Definition outcome (c0 : Capture FlowLog) (r : run) : Prop :=
  match r with
  | Exited c' env' =>
      exited c0 c' /\ iface c' = iface c0 /\ packetsLogged c' = packetsLogged c0
  | Blocked fn c' env' =>
      blocked fn c' env' /\ iface c' = iface c0
      /\ packetsLogged c' = packetsLogged c0
  | OutOfFuel => False
  end.

Lemma inError_loop_blocks (evs : list selected) : forall c c' rest,
  inError_loop c evs = inr (c', rest) ->
  state c' = state c /\ packetsLogged c' = packetsLogged c
  /\ closed c' = closed c /\ cmdChan_closed c' = cmdChan_closed c
  /\ iface c' = iface c
  /\ (rest = [] \/ exists err rest', rest = CaptureError err :: rest').
Proof.
  induction evs as [|ev evs IH]; intros c c' rest H; cbn [inError_loop] in H.
  - injection H as <- <-. repeat (split; [reflexivity|]). auto.
  - destruct ev as [|cmd|e]; [discriminate H| |].
    + pose proof (execute_state cmd c) as Hs.
      pose proof (execute_keeps cmd c) as Hk.
      destruct (execute cmd c) as [[c1 r] nx]. cbn [fst snd] in Hs, Hk.
      destruct Hk as (Ki & Kc & Kch & Kp).
      destruct nx as [s|]; [discriminate H|].
      destruct (IH c1 c' rest H) as (Is & Ip & Ic & Ich & Ii & Hrest).
      repeat (split; [congruence|]). exact Hrest.
    + injection H as <- <-. repeat (split; [reflexivity|]). eauto.
Qed.

Lemma inError_loop_shorter (evs : list selected) : forall c c' next rest,
  inError_loop c evs = inl (c', next, rest) -> (length rest < length evs)%nat.
Proof.
  induction evs as [|ev evs IH]; intros c c' next rest H; cbn [inError_loop] in H;
    [discriminate H|].
  destruct ev as [|cmd|e]; [| |discriminate H].
  - injection H as <- <- <-. cbn [length]. lia.
  - destruct (execute cmd c) as [[c1 r] nx]. destruct nx as [s|].
    + injection H as <- <- <-. cbn [length]. lia.
    + pose proof (IH c1 c' next rest H). cbn [length]. lia.
Qed.

Lemma Run_loop_None (fuel : nat) c (env : Env) :
  Run_loop fuel None c env = Exited c env.
Proof. destruct fuel; reflexivity. Qed.

Lemma Run_loop_outcome (c0 : Capture FlowLog) (fuel : nat) :
  forall fn c env,
  closed c = false -> cmdChan_closed c = cmdChan_closed c0 ->
  iface c = iface c0 -> packetsLogged c = packetsLogged c0 ->
  (length (sources env) + length (events env) < fuel)%nat ->
  outcome c0 (Run_loop fuel (Some fn) c env).
Proof.
  induction fuel as [|fuel IH]; intros fn c env Hc Hch Hi Hp Hfuel; [lia|].
  cbn [Run_loop]. destruct fn.
  - (* initializing *)
    destruct (sources env) as [|src rest] eqn:Esrc.
    + cbn [outcome]. unfold blocked. auto.
    + unfold initializing. cbv zeta. cbn [length] in Hfuel.
      destruct src as [h|]; apply IH; cbn [closed cmdChan_closed iface packetsLogged
                                            setState sources events length];
        auto; lia.
  - (* capturing *)
    destruct (events env) as [|ev rest] eqn:Eev.
    + cbn [outcome]. unfold blocked.
      cbn [setState closed state iface packetsLogged]. auto.
    + cbn [length] in Hfuel. destruct ev as [|cmd|err]; cbn [capturing].
      * apply IH; cbn [closed cmdChan_closed iface packetsLogged setState
                        sources events]; auto; lia.
      * pose proof (execute_state cmd (setState c StateCapturing)) as Hs.
        pose proof (execute_keeps cmd (setState c StateCapturing)) as Hk.
        pose proof (execute_next cmd (setState c StateCapturing)) as Hn.
        destruct (execute cmd (setState c StateCapturing)) as [[c2 r] nx].
        cbn [fst snd setState state closed cmdChan_closed iface packetsLogged]
          in Hs, Hk, Hn.
        destruct Hk as (Ki & Kc & Kch & Kp).
        destruct nx as [s|].
        -- apply IH; cbn [sources events]; try congruence. lia.
        -- rewrite Run_loop_None. cbn [outcome]. split; [|split; congruence].
           unfold exited. right. split; [congruence|].
           split; [congruence | exact Hs].
      * apply IH; cbn [closed cmdChan_closed iface packetsLogged setState
                        sources events]; auto; lia.
  - (* inError *)
    unfold inError.
    destruct (inError_loop (setState c StateError) (events env))
      as [[[c' next] rest]|[c' rest]] eqn:El.
    + pose proof (inError_loop_shorter _ _ _ _ _ El) as Hlen.
      destruct (inError_loop_leaves _ _ _ _ _ El)
        as (Ls & Lp & Lc & Lch & Li & pre & ev & _ & _ & Hev).
      cbn [setState state closed cmdChan_closed iface packetsLogged] in *.
      assert (exists s, next = Some s) as [s ->].
      { destruct Hev as [(_ & -> & _) | (cfg & _ & _ & -> & _)]; eauto. }
      apply IH; cbn [sources events]; try congruence. lia.
    + destruct (inError_loop_blocks _ _ _ _ El) as (Bs & Bp & Bc & Bch & Bi & Hrest).
      cbn [setState state closed cmdChan_closed iface packetsLogged] in *.
      cbn [outcome]. unfold blocked. cbn [events]. split; [|split; congruence].
      split; [congruence|]. split; [exact Bs | exact Hrest].
  - (* closing *)
    cbn [closing]. cbv zeta. rewrite Run_loop_None. cbn [outcome]. split; [|split].
    + unfold exited. left. repeat split.
    + exact Hi.
    + exact Hp.
Qed.

(** X16. A run of the state machine on a capture that is not closed
    stops in one of these ways: it has gone through closing (closed,
    channel closed, StateClosing, no handle); it has returned from
    capturing after a command that names no next state
    (StateCapturing, not closed); or it waits in one of the state
    functions for an input. The state machine itself changes neither
    the interface name nor the packet count. *)
Theorem Run_outcomes c (env : Env) :
  closed c = false -> outcome c (Run c env).
Proof.
  intros Hc. unfold Run. rewrite Hc.
  apply Run_loop_outcome; auto. lia.
Qed.

(** ** Rotation and the packet count *)

(** X17. A rotation reports the packets logged since the rotation
    before and hands out the flow map the flow log rotates out; a
    status command served next reports no logged packet. Neither
    names a next state. *)
Theorem Rotate_then_Status c :
  let '(c1, r, next) := execute captureCommandRotate c in
  let '(c2, s, next') := execute captureCommandStatus c1 in
  next = None /\ next' = None
  /\ c2 = c1
  /\ PacketsLogged (stats r)
     = Int64.sub (packetsLogged c) (PacketsLogged (lastRotationStats c))
  /\ PacketsLogged (status_Stats s) = 0
  /\ status_State s = state c
  /\ packetsLogged c1 = packetsLogged c
  /\ agg r = Some (fst (FlowLog_Rotate (flowLog c)))
  /\ flowLog c1 = snd (FlowLog_Rotate (flowLog c)).
Proof.
  cbn [execute]. destruct (FlowLog_Rotate (flowLog c)) as [a fl].
  cbn [fst snd stats PacketsLogged status_Stats status_State state packetsLogged
         lastRotationStats agg flowLog default].
  repeat split.
  unfold Int64.sub. rewrite Z.sub_diag. reflexivity.
Qed.

End WithPackage.

(** ** Concrete runs *)

(** Two packets that decode, with two undecodable ones between and
    after them. *)
Definition mixed_packets : list (@packet nat) :=
  [Decoded 7%nat; NotDecoded "short"; Decoded 8%nat; NotDecoded "short"].

Lemma process_accounts_witness :
  exists st',
    process eth0 mixed_packets = (st', AwaitsPacket)
    /\ packetsLogged (capture st') = 2
    /\ flowLog (capture st') = [7%nat; 8%nat]
    /\ errMap (capture st') !! "short" = Some 2.
Proof.
  assert (process eth0 mixed_packets
          = (fst (process eth0 mixed_packets), AwaitsPacket)) as Hp
    by (vm_compute; reflexivity).
  assert (Int64.in_range (packetsLogged eth0)) as Hrange.
  { unfold Int64.in_range. change (packetsLogged eth0) with 0. lia. }
  exists (fst (process eth0 mixed_packets)). split; [exact Hp|].
  destruct (process_accounts eth0 mixed_packets _ Hrange Hp)
    as (Hlog & Hflow & Herr & _).
  split; [rewrite Hlog; vm_compute; reflexivity|].
  split; [rewrite Hflow; reflexivity|].
  rewrite (Herr "short"). vm_compute. reflexivity.
Defined.

Definition wide_config : CaptureConfig := {| BufferSize := 4096; Promisc := true |}.

Lemma inError_leaves_witness :
  exists c',
    inError eth0 [Command captureCommandStatus;
                  Command (captureCommandUpdate eth0_config);
                  Command (captureCommandUpdate wide_config);
                  Command captureCommandStatus]
    = inl (c', Some fn_initializing, [Command captureCommandStatus])
    /\ state c' = StateError /\ packetsLogged c' = packetsLogged eth0.
Proof.
  eexists. split; [vm_compute; reflexivity|].
  match goal with
  | |- state ?c = _ /\ _ =>
      destruct (inError_leaves eth0
                  [Command captureCommandStatus;
                   Command (captureCommandUpdate eth0_config);
                   Command (captureCommandUpdate wide_config);
                   Command captureCommandStatus]
                  c (Some fn_initializing) [Command captureCommandStatus])
        as (Hs & Hp & _)
  end.
  - vm_compute. reflexivity.
  - split; [exact Hs | exact Hp].
Defined.

Lemma Run_outcomes_witness :
  outcome eth0
    (Run eth0 {| sources := [None; Some eth0_source];
                 events := [Command (captureCommandUpdate wide_config); CtxDone] |}).
Proof. apply Run_outcomes. reflexivity. Defined.

End CaptureRuns.

(* ===================================================================== *)
(** * Sorted strings                                                      *)
(* ===================================================================== *)

Module GoSlicesFacts.
Import GoSlices.

Lemma ascii_compare_lt_trans (a b c : Ascii.ascii) :
  Ascii.compare a b = Lt -> Ascii.compare b c = Lt -> Ascii.compare a c = Lt.
Proof.
  unfold Ascii.compare. rewrite !N.compare_lt_iff. lia.
Qed.

Lemma ascii_compare_refl (a : Ascii.ascii) : Ascii.compare a a = Eq.
Proof. unfold Ascii.compare. apply N.compare_refl. Qed.

Lemma ascii_compare_eq (a b : Ascii.ascii) : Ascii.compare a b = Eq -> a = b.
Proof. apply Ascii.compare_eq_iff. Qed.

Lemma string_compare_refl (s : string) : String.compare s s = Eq.
Proof.
  induction s as [|a s IH]; cbn [String.compare]; [reflexivity|].
  rewrite ascii_compare_refl. exact IH.
Qed.

Lemma string_compare_lt_trans (s1 : string) : forall s2 s3,
  String.compare s1 s2 = Lt -> String.compare s2 s3 = Lt ->
  String.compare s1 s3 = Lt.
Proof.
  induction s1 as [|a s1 IH]; intros [|b s2] [|c s3]; cbn [String.compare];
    try congruence.
  destruct (Ascii.compare a b) eqn:Eab; try discriminate;
    destruct (Ascii.compare b c) eqn:Ebc; try discriminate; intros H1 H2.
  - apply ascii_compare_eq in Eab, Ebc. subst. rewrite ascii_compare_refl.
    exact (IH _ _ H1 H2).
  - apply ascii_compare_eq in Eab. subst. rewrite Ebc. reflexivity.
  - apply ascii_compare_eq in Ebc. subst. rewrite Eab. reflexivity.
  - rewrite (ascii_compare_lt_trans _ _ _ Eab Ebc). reflexivity.
Qed.

Lemma string_ltb_irrefl (s : string) : String.ltb s s = false.
Proof. unfold String.ltb. rewrite string_compare_refl. reflexivity. Qed.

Lemma string_ltb_trans (a b c : string) :
  String.ltb a b = true -> String.ltb b c = true -> String.ltb a c = true.
Proof.
  unfold String.ltb. intros H1 H2.
  destruct (String.compare a b) eqn:E1; try discriminate.
  destruct (String.compare b c) eqn:E2; try discriminate.
  rewrite (string_compare_lt_trans _ _ _ E1 E2). reflexivity.
Qed.

Lemma string_ltb_total (a b : string) :
  a <> b -> String.ltb a b = true \/ String.ltb b a = true.
Proof.
  unfold String.ltb. intros Hne. rewrite (String.compare_antisym b a).
  destruct (String.compare a b) eqn:E; cbn [CompOpp]; auto.
  apply String.compare_eq_iff in E. contradiction.
Qed.

Lemma string_leb_ltb (a b : string) :
  String.leb a b = true <-> (a = b \/ String.ltb a b = true).
Proof.
  unfold String.leb, String.ltb. destruct (String.compare a b) eqn:E.
  - apply String.compare_eq_iff in E. tauto.
  - tauto.
  - split; [discriminate|]. intros [-> | H]; [|discriminate].
    rewrite string_compare_refl in E. discriminate.
Qed.

#[global] Instance string_le_trans : Transitive string_le.
Proof.
  intros a b c. unfold string_le. rewrite !string_leb_ltb.
  intros [-> | H1] [-> | H2]; auto.
  right. exact (string_ltb_trans _ _ _ H1 H2).
Qed.

#[global] Instance string_le_antisym : AntiSymm (=) string_le.
Proof. intros a b. unfold string_le. apply String.leb_antisym. Qed.

#[global] Instance string_le_total : Total string_le.
Proof. intros a b. unfold string_le. apply String.leb_total. Qed.

(** The sorted list depends on the elements only. *)
Lemma sort_strings_Permutation (x y : list string) :
  x ≡ₚ y -> sort_strings x = sort_strings y.
Proof.
  intros Hxy. unfold sort_strings.
  apply (Sorted_unique string_le).
  - apply Sorted_merge_sort. apply _.
  - apply Sorted_merge_sort. apply _.
  - rewrite !merge_sort_Permutation. exact Hxy.
Qed.

Lemma sort_strings_Sorted (x : list string) : Sorted string_le (sort_strings x).
Proof. apply Sorted_merge_sort. apply _. Qed.

Lemma sort_strings_perm (x : list string) : sort_strings x ≡ₚ x.
Proof. apply merge_sort_Permutation. Qed.

Lemma fill_app {A : Type} (xs : list A) : forall (pre post : list A),
  length post = length xs -> fill (pre ++ post) (length pre) xs = pre ++ xs.
Proof.
  induction xs as [|x xs IH]; intros pre post Hlen; cbn [fill].
  - destruct post; [reflexivity | discriminate Hlen].
  - destruct post as [|p post]; [discriminate Hlen|].
    rewrite insert_app_r_alt, Nat.sub_diag by lia. cbn [insert list_insert].
    replace (pre ++ x :: post) with ((pre ++ [x]) ++ post)
      by (rewrite <- app_assoc; reflexivity).
    replace (S (length pre)) with (length (pre ++ [x]))
      by (rewrite length_app; cbn [length]; lia).
    rewrite IH by (cbn [length] in Hlen; lia).
    rewrite <- app_assoc. reflexivity.
Qed.

(** Filling a slice made for them with the elements of [xs] gives [xs]. *)
Lemma fill_replicate {A : Type} (z : A) (xs : list A) :
  fill (replicate (length xs) z) 0 xs = xs.
Proof.
  exact (fill_app xs [] (replicate (length xs) z) (length_replicate _ _)).
Qed.

End GoSlicesFacts.

(* ===================================================================== *)
(** * The text of an error map                                            *)
(* ===================================================================== *)

Module ErrorMapSpec.
Import GoSlices GoSlicesFacts ErrorMap.

Lemma String_sorted (e : gmap string Z) (order : list (string * Z)) :
  order ≡ₚ map_to_list e ->
  ErrorMap.String e order
  = String.concat "; "
      (sort_strings (map (fun '(err, count) => entry_string err count)
                       (map_to_list e))).
Proof.
  intros Hperm. unfold ErrorMap.String. cbv zeta.
  assert (size e = length (map (fun '(err, count) => entry_string err count) order))
    as ->.
  { rewrite length_map, Hperm, length_map_to_list. reflexivity. }
  rewrite fill_replicate. f_equal.
  apply sort_strings_Permutation. rewrite Hperm. reflexivity.
Qed.

(** X18. The text of an error map does not depend on the order in
    which Go ranges over the map: its parts, one for each entry, stand
    in increasing order; the empty map prints as the empty string. *)
Theorem String_deterministic (e : gmap string Z) (order1 order2 : list (string * Z)) :
  order1 ≡ₚ map_to_list e -> order2 ≡ₚ map_to_list e ->
  ErrorMap.String e order1 = ErrorMap.String e order2
  /\ (exists parts,
        ErrorMap.String e order1 = String.concat "; " parts
        /\ Sorted string_le parts
        /\ parts ≡ₚ map (fun '(err, count) => entry_string err count) order1)
  /\ (e = ∅ -> ErrorMap.String e order1 = "").
Proof.
  intros H1 H2. split; [|split].
  - rewrite (String_sorted e order1 H1), (String_sorted e order2 H2). reflexivity.
  - eexists. split; [exact (String_sorted e order1 H1)|].
    split; [apply sort_strings_Sorted|].
    rewrite sort_strings_perm, H1. reflexivity.
  - intros ->. rewrite (String_sorted ∅ order1 H1), map_to_list_empty. reflexivity.
Qed.

Definition two_errors : gmap string Z := <["short packet" := 2]> {["bad header" := 1]}.

Lemma two_errors_range :
  [("short packet", 2); ("bad header", 1)] ≡ₚ map_to_list two_errors.
Proof.
  unfold two_errors. rewrite map_to_list_insert by reflexivity.
  rewrite map_to_list_singleton. reflexivity.
Qed.

Lemma String_deterministic_witness :
  ErrorMap.String two_errors [("short packet", 2); ("bad header", 1)]
  = ErrorMap.String two_errors [("bad header", 1); ("short packet", 2)].
Proof.
  apply (String_deterministic two_errors).
  - exact two_errors_range.
  - rewrite <- two_errors_range. apply perm_swap.
Defined.

End ErrorMapSpec.

(* ===================================================================== *)
(** * Query results: the orders and the merging                           *)
(* ===================================================================== *)

Module ResultsSpec.
Import GoSlices GoSlicesFacts Results.

(** What the orders ask of the library: [Before] is a strict order on
    times, [Less] a strict total order on addresses. *)
Class OrderLaws {Time Addr Counters StatusCode : Type}
    (L : Library Time Addr Counters StatusCode) : Prop := {
  Before_irrefl : forall t : Time, Time_Before t t = false;
  Before_trans : forall a b c : Time,
    Time_Before a b = true -> Time_Before b c = true -> Time_Before a c = true;
  Less_irrefl : forall a : Addr, Addr_Less a a = false;
  Less_trans : forall a b c : Addr,
    Addr_Less a b = true -> Addr_Less b c = true -> Addr_Less a c = true;
  Less_total : forall a b : Addr,
    a <> b -> Addr_Less a b = true \/ Addr_Less b a = true
}.

Section Orders.
Context {Time Addr Counters StatusCode : Type}.
Context `{L : !Library Time Addr Counters StatusCode} `{!OrderLaws L}.

Lemma Labels_Less_irrefl (l : Labels Time) : Labels_Less l l = false.
Proof.
  unfold Labels_Less. rewrite !bool_decide_eq_true_2 by reflexivity.
  cbn [negb]. apply string_ltb_irrefl.
Qed.

Lemma Labels_Less_trans (a b c : Labels Time) :
  Labels_Less a b = true -> Labels_Less b c = true -> Labels_Less a c = true.
Proof.
  unfold Labels_Less.
  destruct (decide (Timestamp a = Timestamp b)) as [Eab | Nab];
    [rewrite (bool_decide_eq_true_2 _ Eab) | rewrite (bool_decide_eq_false_2 _ Nab)];
  (destruct (decide (Timestamp b = Timestamp c)) as [Ebc | Nbc];
    [rewrite (bool_decide_eq_true_2 _ Ebc) | rewrite (bool_decide_eq_false_2 _ Nbc)]);
  cbn [negb].
  - rewrite (bool_decide_eq_true_2 (Timestamp a = Timestamp c)) by congruence.
    cbn [negb].
    destruct (decide (Hostname a = Hostname b)) as [Hab | Hab];
      [rewrite (bool_decide_eq_true_2 _ Hab) | rewrite (bool_decide_eq_false_2 _ Hab)];
    (destruct (decide (Hostname b = Hostname c)) as [Hbc | Hbc];
      [rewrite (bool_decide_eq_true_2 _ Hbc) | rewrite (bool_decide_eq_false_2 _ Hbc)]);
    cbn [negb]; intros H1 H2.
    + rewrite (bool_decide_eq_true_2 (Hostname a = Hostname c)) by congruence.
      cbn [negb]. exact (string_ltb_trans _ _ _ H1 H2).
    + rewrite (bool_decide_eq_false_2 (Hostname a = Hostname c)) by congruence.
      cbn [negb]. rewrite Hab. exact H2.
    + rewrite (bool_decide_eq_false_2 (Hostname a = Hostname c)) by congruence.
      cbn [negb]. rewrite <- Hbc. exact H1.
    + pose proof (string_ltb_trans _ _ _ H1 H2) as H13.
      rewrite (bool_decide_eq_false_2 (Hostname a = Hostname c)).
      * exact H13.
      * intros E. rewrite E, string_ltb_irrefl in H13. discriminate.
  - intros _ H2. rewrite (bool_decide_eq_false_2 (Timestamp a = Timestamp c))
      by congruence.
    cbn [negb]. rewrite Eab. exact H2.
  - intros H1 _. rewrite (bool_decide_eq_false_2 (Timestamp a = Timestamp c))
      by congruence.
    cbn [negb]. rewrite <- Ebc. exact H1.
  - intros H1 H2. pose proof (Before_trans _ _ _ H1 H2) as H13.
    rewrite (bool_decide_eq_false_2 (Timestamp a = Timestamp c)).
    + exact H13.
    + intros E. rewrite E, Before_irrefl in H13. discriminate.
Qed.

Lemma Attributes_Less_irrefl (a : Attributes Addr) : Attributes_Less a a = false.
Proof.
  unfold Attributes_Less. rewrite !bool_decide_eq_true_2 by reflexivity.
  rewrite Z.eqb_refl. cbn [negb]. apply Z.ltb_irrefl.
Qed.

(** The fields of two attribute sets, compared in the order of
    [Attributes.Less]. *)
Lemma Attributes_Less_cases (a b : Attributes Addr) :
  Attributes_Less a b = true <->
  (SrcIP a <> SrcIP b /\ Addr_Less (SrcIP a) (SrcIP b) = true)
  \/ (SrcIP a = SrcIP b /\ DstIP a <> DstIP b
      /\ Addr_Less (DstIP a) (DstIP b) = true)
  \/ (SrcIP a = SrcIP b /\ DstIP a = DstIP b /\ IPProto a < IPProto b)
  \/ (SrcIP a = SrcIP b /\ DstIP a = DstIP b /\ IPProto a = IPProto b
      /\ DstPort a < DstPort b).
Proof.
  unfold Attributes_Less.
  destruct (decide (SrcIP a = SrcIP b)) as [Es | Ns];
    [rewrite (bool_decide_eq_true_2 _ Es) | rewrite (bool_decide_eq_false_2 _ Ns)];
    cbn [negb]; [|tauto].
  destruct (decide (DstIP a = DstIP b)) as [Ed | Nd];
    [rewrite (bool_decide_eq_true_2 _ Ed) | rewrite (bool_decide_eq_false_2 _ Nd)];
    cbn [negb]; [|tauto].
  destruct (IPProto a =? IPProto b) eqn:Ep; cbn [negb];
    [apply Z.eqb_eq in Ep | apply Z.eqb_neq in Ep]; rewrite Z.ltb_lt.
  - split; [tauto|]. intros [[H _] | [(_ & H & _) | [(_ & _ & H) | H]]];
      [contradiction | contradiction | lia | tauto].
  - split; [tauto|]. intros [[H _] | [(_ & H & _) | [(_ & _ & H) | H]]];
      [contradiction | contradiction | lia | ]. destruct H as (_ & _ & H & _). lia.
Qed.

Lemma Attributes_Less_trans (a b c : Attributes Addr) :
  Attributes_Less a b = true -> Attributes_Less b c = true ->
  Attributes_Less a c = true.
Proof.
  rewrite !Attributes_Less_cases.
  assert (forall x y z : Addr, Addr_Less x y = true -> Addr_Less y z = true ->
            x <> z) as Hne.
  { intros x y z H1 H2 ->. pose proof (Less_trans _ _ _ H1 H2) as H.
    rewrite Less_irrefl in H. discriminate. }
  assert (forall x y : Addr, Addr_Less x y = true -> x <> y) as Hne2.
  { intros x y H ->. rewrite Less_irrefl in H. discriminate. }
  intros [(N1 & H1) | [(E1 & N1 & H1) | [(E1 & D1 & H1) | (E1 & D1 & P1 & H1)]]]
         [(N2 & H2) | [(E2 & N2 & H2) | [(E2 & D2 & H2) | (E2 & D2 & P2 & H2)]]].
  all: try (left; split;
            [first [ exact (Hne _ _ _ H1 H2) | congruence ]
            | first [ exact (Less_trans _ _ _ H1 H2)
                    | rewrite <- ?E2; rewrite ?E1; assumption
                    | rewrite ?E1; assumption
                    | rewrite <- ?E2; assumption ]]; fail).
  all: try (right; left; split; [congruence|]; split;
            [first [ exact (Hne _ _ _ H1 H2) | congruence ]
            | first [ exact (Less_trans _ _ _ H1 H2)
                    | rewrite <- ?D2; rewrite ?D1; assumption
                    | rewrite ?D1; assumption
                    | rewrite <- ?D2; assumption ]]; fail).
  all: try (right; right; left; split; [congruence|]; split; [congruence|]; lia).
  all: try (right; right; right; split; [congruence|]; split; [congruence|];
            split; lia).
Qed.

Lemma Attributes_Less_total (a b : Attributes Addr) :
  a <> b -> Attributes_Less a b = true \/ Attributes_Less b a = true.
Proof.
  intros Hne. rewrite !Attributes_Less_cases.
  destruct (decide (SrcIP a = SrcIP b)) as [Es | Ns].
  - destruct (decide (DstIP a = DstIP b)) as [Ed | Nd].
    + destruct (Z.lt_trichotomy (IPProto a) (IPProto b)) as [Hp | [Hp | Hp]].
      * left. tauto.
      * destruct (Z.lt_trichotomy (DstPort a) (DstPort b)) as [Hq | [Hq | Hq]].
        -- left. tauto.
        -- exfalso. apply Hne. destruct a, b. cbn in *. congruence.
        -- right. right. right. right. repeat split; auto; lia.
      * right. right. right. left. auto.
    + destruct (Less_total _ _ Nd) as [H | H].
      * left. right. left. auto.
      * right. right. left. auto.
  - destruct (Less_total _ _ Ns) as [H | H].
    + left. left. auto.
    + right. left. auto.
Qed.

Lemma Row_Less_irrefl (r : Row Time Addr Counters) : Row_Less r r = false.
Proof.
  unfold Row_Less. rewrite bool_decide_eq_true_2 by reflexivity.
  apply Labels_Less_irrefl.
Qed.

Lemma Row_Less_trans (a b c : Row Time Addr Counters) :
  Row_Less a b = true -> Row_Less b c = true -> Row_Less a c = true.
Proof.
  unfold Row_Less.
  destruct (decide (Row_Attributes a = Row_Attributes b)) as [Eab | Nab];
    [rewrite (bool_decide_eq_true_2 _ Eab) | rewrite (bool_decide_eq_false_2 _ Nab)];
  (destruct (decide (Row_Attributes b = Row_Attributes c)) as [Ebc | Nbc];
    [rewrite (bool_decide_eq_true_2 _ Ebc) | rewrite (bool_decide_eq_false_2 _ Nbc)]);
  intros H1 H2.
  - rewrite (bool_decide_eq_true_2 (Row_Attributes a = Row_Attributes c))
      by congruence.
    exact (Labels_Less_trans _ _ _ H1 H2).
  - rewrite (bool_decide_eq_false_2 (Row_Attributes a = Row_Attributes c))
      by congruence.
    rewrite Eab. exact H2.
  - rewrite (bool_decide_eq_false_2 (Row_Attributes a = Row_Attributes c))
      by congruence.
    rewrite <- Ebc. exact H1.
  - pose proof (Attributes_Less_trans _ _ _ H1 H2) as H13.
    rewrite (bool_decide_eq_false_2 (Row_Attributes a = Row_Attributes c)).
    + exact H13.
    + intros E. rewrite E, Attributes_Less_irrefl in H13. discriminate.
Qed.

End Orders.

(** X19. Labels.Less is a strict order (irreflexive, transitive,
    asymmetric) that does not look at the host ID: labels that differ
    in the host ID only are not ordered. *)
Theorem Labels_Less_strict_order {Time Addr Counters StatusCode : Type}
    (L : Library Time Addr Counters StatusCode) (HL : OrderLaws L) :
  (forall l : Labels Time, Labels_Less l l = false)
  /\ (forall a b c : Labels Time,
        Labels_Less a b = true -> Labels_Less b c = true -> Labels_Less a c = true)
  /\ (forall a b : Labels Time, Labels_Less a b = true -> Labels_Less b a = false)
  /\ (forall (l : Labels Time) (id1 id2 : string),
        Labels_Less
          {| Timestamp := Timestamp l; Iface := Iface l; Hostname := Hostname l;
             HostID := id1 |}
          {| Timestamp := Timestamp l; Iface := Iface l; Hostname := Hostname l;
             HostID := id2 |} = false).
Proof.
  split; [exact Labels_Less_irrefl|]. split; [exact Labels_Less_trans|].
  split.
  - intros a b Hab. destruct (Labels_Less b a) eqn:Hba; [|reflexivity].
    pose proof (Labels_Less_trans _ _ _ Hab Hba) as H.
    rewrite Labels_Less_irrefl in H. discriminate.
  - intros l id1 id2. unfold Labels_Less. cbn [Timestamp Hostname Iface].
    rewrite !bool_decide_eq_true_2 by reflexivity. cbn [negb].
    apply string_ltb_irrefl.
Qed.

(** X20. Attributes.Less is a strict total order: irreflexive,
    transitive, and one of two different attribute sets is less than
    the other. *)
Theorem Attributes_Less_strict_total {Time Addr Counters StatusCode : Type}
    (L : Library Time Addr Counters StatusCode) (HL : OrderLaws L) :
  (forall a : Attributes Addr, Attributes_Less a a = false)
  /\ (forall a b c : Attributes Addr,
        Attributes_Less a b = true -> Attributes_Less b c = true ->
        Attributes_Less a c = true)
  /\ (forall a b : Attributes Addr,
        a <> b -> Attributes_Less a b = true \/ Attributes_Less b a = true).
Proof.
  split; [exact Attributes_Less_irrefl|].
  split; [exact Attributes_Less_trans | exact Attributes_Less_total].
Qed.

(** X21. Row.Less is a strict order, total on rows with different
    attributes: rows are ordered by attributes first and by labels
    among rows with the same attributes. *)
Theorem Row_Less_strict_order {Time Addr Counters StatusCode : Type}
    (L : Library Time Addr Counters StatusCode) (HL : OrderLaws L) :
  (forall r : Row Time Addr Counters, Row_Less r r = false)
  /\ (forall a b c : Row Time Addr Counters,
        Row_Less a b = true -> Row_Less b c = true -> Row_Less a c = true)
  /\ (forall a b : Row Time Addr Counters,
        Row_Less a b = true -> Row_Less b a = false)
  /\ (forall a b : Row Time Addr Counters,
        Row_Attributes a <> Row_Attributes b ->
        Row_Less a b = true \/ Row_Less b a = true).
Proof.
  split; [exact Row_Less_irrefl|]. split; [exact Row_Less_trans|].
  split.
  - intros a b Hab. destruct (Row_Less b a) eqn:Hba; [|reflexivity].
    pose proof (Row_Less_trans _ _ _ Hab Hba) as H.
    rewrite Row_Less_irrefl in H. discriminate.
  - intros a b Hne. unfold Row_Less.
    rewrite !bool_decide_eq_false_2 by congruence.
    exact (Attributes_Less_total _ _ Hne).
Qed.

(** ** A library to run the definitions on

    Times as nanoseconds, addresses as numbers, a counter for
    [types.Counters], the status codes as their texts. *)
#[global] Instance number_library : Library Z Z Z string :=
  {| Time_zero := 0; Time_Before := Z.ltb; Time_Sub := Z.sub;
     Addr_zero := 0; Addr_Less := Z.ltb;
     Counters_zero := 0; Counters_Add := Z.add;
     StatusCode_zero := ""; StatusOK := "ok"; StatusEmpty := "empty" |}.

Lemma number_library_laws : OrderLaws number_library.
Proof.
  split; cbn [Time_Before Addr_Less number_library].
  - intros t. apply Z.ltb_irrefl.
  - intros a b c. rewrite !Z.ltb_lt. lia.
  - intros a. apply Z.ltb_irrefl.
  - intros a b c. rewrite !Z.ltb_lt. lia.
  - intros a b. rewrite !Z.ltb_lt. lia.
Qed.

Lemma Labels_Less_strict_order_witness :
  Labels_Less (Time := Z)
    {| Timestamp := 5; Iface := "eth0"; Hostname := "a"; HostID := "1" |}
    {| Timestamp := 5; Iface := "eth0"; Hostname := "a"; HostID := "1" |} = false.
Proof.
  exact (proj1 (Labels_Less_strict_order number_library number_library_laws) _).
Defined.

Lemma Attributes_Less_strict_total_witness :
  Attributes_Less (Addr := Z)
    {| SrcIP := 1; DstIP := 2; IPProto := 6; DstPort := 443 |}
    {| SrcIP := 1; DstIP := 2; IPProto := 6; DstPort := 443 |} = false.
Proof.
  exact (proj1 (Attributes_Less_strict_total number_library number_library_laws) _).
Defined.

Lemma Row_Less_strict_order_witness :
  Row_Less (Time := Z) (Addr := Z) (Counters := Z)
    {| Row_Labels := {| Timestamp := 5; Iface := "eth0"; Hostname := "a";
                        HostID := "1" |};
       Row_Attributes := {| SrcIP := 1; DstIP := 2; IPProto := 6; DstPort := 443 |};
       Row_Counters := 10 |}
    {| Row_Labels := {| Timestamp := 5; Iface := "eth0"; Hostname := "a";
                        HostID := "1" |};
       Row_Attributes := {| SrcIP := 1; DstIP := 2; IPProto := 6; DstPort := 443 |};
       Row_Counters := 10 |} = false.
Proof.
  exact (proj1 (Row_Less_strict_order number_library number_library_laws) _).
Defined.

(** ** Merging rows *)

Lemma filter_ext_elem {A : Type} (P Q : A -> Prop)
    `{!forall x, Decision (P x)} `{!forall x, Decision (Q x)} (l : list A) :
  (forall x, x ∈ l -> (P x <-> Q x)) -> filter P l = filter Q l.
Proof.
  induction l as [|x l IH]; intros Hl; [reflexivity|].
  rewrite !filter_cons.
  rewrite IH by (intros y Hy; apply Hl; apply list_elem_of_further; exact Hy).
  pose proof (Hl x (list_elem_of_here _ _)) as Hx.
  destruct (decide (P x)), (decide (Q x)); tauto.
Qed.

Section Merge.
Context {Time Addr Counters StatusCode : Type}.
Context `{L : !Library Time Addr Counters StatusCode}.


(** The counters of a key after the rows with the counters [cs] have
    been merged into the entry [init]. *)
Definition merged_value (init : option Counters) (cs : list Counters)
  : option Counters :=
  foldl (fun acc c => Some (match acc with
                            | Some a => Counters_Add a c
                            | None => c
                            end)) init cs.

(** The counters of the rows of [r] that have the key [k], in order. *)
Definition counters_of (k : MergeableAttributes Time Addr)
    (r : list (Row Time Addr Counters))
  : list Counters :=
  map Row_Counters (filter (fun res => key_of res = k) r).

Lemma MergeRows_fold (r : list (Row Time Addr Counters)) :
  forall (rm : gmap (MergeableAttributes Time Addr) Counters) (m0 : Z),
  0 <= m0 -> m0 + Z.of_nat (length r) < 2 ^ 63 ->
  let '(rm', m') := foldl MergeRows_step (rm, m0) r in
  (forall k, rm' !! k = merged_value (rm !! k) (counters_of k r))
  /\ Z.of_nat (size rm') + m' = Z.of_nat (size rm) + m0 + Z.of_nat (length r)
  /\ m0 <= m' <= m0 + Z.of_nat (length r).
Proof.
  induction r as [|res r IH]; intros rm m0 Hm0 Hlen; cbn [foldl].
  - cbn [length]. split; [reflexivity|]. lia.
  - cbn [length] in Hlen. unfold MergeRows_step at 2.
    destruct (rm !! key_of res) as [c|] eqn:Ek.
    + assert (Int64.add m0 1 = m0 + 1) as ->.
      { apply Int64Facts.wrap_small. unfold Int64.in_range. lia. }
      specialize (IH (<[key_of res := Counters_Add c (Row_Counters res)]> rm)
                    (m0 + 1) ltac:(lia) ltac:(lia)).
      destruct (foldl MergeRows_step _ r) as [rm' m'].
      destruct IH as (Hval & Hsize & Hle).
      split; [|split; [|cbn [length]; lia]].
      * intros k. rewrite Hval. unfold counters_of. rewrite filter_cons.
        destruct (decide (key_of res = k)) as [<- | Hne].
        -- rewrite lookup_insert_eq, Ek. reflexivity.
        -- rewrite lookup_insert_ne by exact Hne. reflexivity.
      * rewrite map_size_insert, Ek in Hsize. cbv beta iota in Hsize.
        unfold id in Hsize. cbn [length]. lia.
    + specialize (IH (<[key_of res := Row_Counters res]> rm) m0 Hm0 ltac:(lia)).
      destruct (foldl MergeRows_step _ r) as [rm' m'].
      destruct IH as (Hval & Hsize & Hle).
      split; [|split; [|cbn [length]; lia]].
      * intros k. rewrite Hval. unfold counters_of. rewrite filter_cons.
        destruct (decide (key_of res = k)) as [<- | Hne].
        -- rewrite lookup_insert_eq, Ek. reflexivity.
        -- rewrite lookup_insert_ne by exact Hne. reflexivity.
      * rewrite map_size_insert, Ek in Hsize. cbv beta iota in Hsize.
        unfold id in Hsize. cbn [length]. lia.
Qed.

Lemma MergeRowsMap_fold (o : list (MergeableAttributes Time Addr * Counters)) :
  forall (rm : gmap (MergeableAttributes Time Addr) Counters) (m0 : Z),
  NoDup o.*1 ->
  0 <= m0 -> m0 + Z.of_nat (length o) < 2 ^ 63 ->
  foldl MergeRowsMap_step (rm, m0) o
  = (union_with (fun c oc => Some (Counters_Add c oc)) rm (list_to_map o),
     m0 + Z.of_nat (length (filter (fun kv => is_Some (rm !! kv.1)) o))).
Proof.
  induction o as [|[k oc] o IH]; intros rm m0 Hnd Hm0 Hlen; cbn [foldl].
  - cbn [list_to_map foldr filter list_filter length].
    rewrite (right_id ∅ _). f_equal. lia.
  - cbn [fmap list_fmap fst] in Hnd. apply NoDup_cons in Hnd.
    destruct Hnd as [Hk Hnd]. cbn [length] in Hlen.
    assert (forall (rm1 : gmap (MergeableAttributes Time Addr) Counters),
              (forall j, j <> k -> rm1 !! j = rm !! j) ->
              filter (fun kv : MergeableAttributes Time Addr * Counters =>
                        is_Some (rm1 !! kv.1)) o
              = filter (fun kv => is_Some (rm !! kv.1)) o) as Hfilter.
    { intros rm1 Hsame. apply filter_ext_elem. intros [j c] Hin. cbn [fst].
      rewrite Hsame; [reflexivity|].
      intros ->. apply Hk. apply list_elem_of_fmap. exists (k, c). auto. }
    assert (list_to_map (M := gmap (MergeableAttributes Time Addr) Counters) o
              !! k = None) as Hnone.
    { apply not_elem_of_list_to_map_1. exact Hk. }
    unfold MergeRowsMap_step at 2. rewrite filter_cons. cbn [fst].
    destruct (rm !! k) as [c|] eqn:Ek.
    + assert (Int64.add m0 1 = m0 + 1) as ->.
      { apply Int64Facts.wrap_small. unfold Int64.in_range. lia. }
      rewrite IH by (try exact Hnd; lia).
      rewrite Hfilter by (intros j Hj; apply lookup_insert_ne; congruence).
      destruct (decide (is_Some (Some c))) as [_ | Hn]; [|exfalso; eauto].
      cbn [length]. f_equal; [|lia].
      apply map_eq. intros j. rewrite !lookup_union_with. cbn [list_to_map foldr fst snd].
      destruct (decide (j = k)) as [-> | Hne].
      * rewrite !lookup_insert_eq, Hnone, Ek. reflexivity.
      * rewrite !lookup_insert_ne by congruence. reflexivity.
    + rewrite IH by (try exact Hnd; lia).
      rewrite Hfilter by (intros j Hj; apply lookup_insert_ne; congruence).
      destruct (decide (is_Some (@None Counters))) as [[x Hx] | _];
        [discriminate Hx|].
      f_equal.
      apply map_eq. intros j. rewrite !lookup_union_with. cbn [list_to_map foldr fst snd].
      destruct (decide (j = k)) as [-> | Hne].
      * rewrite !lookup_insert_eq, Hnone, Ek. reflexivity.
      * rewrite !lookup_insert_ne by congruence. reflexivity.
Qed.

(** [ToRows] lists the entries in the order of the range. *)
Lemma ToRows_map (rm : gmap (MergeableAttributes Time Addr) Counters)
    (o : list (MergeableAttributes Time Addr * Counters)) :
  o ≡ₚ map_to_list rm -> ToRows rm o = map row_of o.
Proof.
  intros Hperm. unfold ToRows. cbv zeta.
  assert (size rm = length (map row_of o)) as Hsize.
  { rewrite length_map, Hperm, length_map_to_list. reflexivity. }
  destruct (Nat.eqb (size rm) 0) eqn:E0.
  - apply Nat.eqb_eq in E0. rewrite E0 in *.
    destruct o; [reflexivity | discriminate Hsize].
  - rewrite Hsize. apply fill_replicate.
Qed.

Lemma key_of_row_of (entry : MergeableAttributes Time Addr * Counters) :
  key_of (row_of entry) = entry.1.
Proof. destruct entry as [[l a] c]. reflexivity. Qed.

(** Merging the rows of a map is merging the map. *)
Lemma MergeRows_row_of (o : list (MergeableAttributes Time Addr * Counters)) :
  forall (acc : gmap (MergeableAttributes Time Addr) Counters * Z),
  foldl MergeRows_step acc (map row_of o) = foldl MergeRowsMap_step acc o.
Proof.
  induction o as [|e o IH]; intros acc; cbn [map foldl]; [reflexivity|].
  rewrite IH. f_equal. destruct acc as [rm m]. destruct e as [k c].
  unfold MergeRows_step, MergeRowsMap_step.
  rewrite key_of_row_of. reflexivity.
Qed.

Lemma range_NoDup (m : gmap (MergeableAttributes Time Addr) Counters)
    (o : list (MergeableAttributes Time Addr * Counters)) :
  o ≡ₚ map_to_list m -> NoDup o.*1 /\ list_to_map o = m /\ length o = size m.
Proof.
  intros Hperm. split; [|split].
  - rewrite Hperm. apply NoDup_fst_map_to_list.
  - rewrite <- (list_to_map_to_list m). apply list_to_map_proper; [|exact Hperm].
    rewrite Hperm. apply NoDup_fst_map_to_list.
  - rewrite Hperm. apply length_map_to_list.
Qed.

End Merge.

(** X22. MergeRows: every key holds afterwards what it held before
    with the counters of its rows added in order, and the count
    returned is the number of rows that did not bring a new key. *)
Theorem MergeRows_spec {Time Addr Counters StatusCode : Type}
    `{L : !Library Time Addr Counters StatusCode}
    (rm : gmap (MergeableAttributes Time Addr) Counters)
    (r : list (Row Time Addr Counters)) :
  Z.of_nat (length r) < 2 ^ 63 ->
  let '(rm', merged) := MergeRows rm r in
  (forall k, rm' !! k = merged_value (rm !! k) (counters_of k r))
  /\ Z.of_nat (size rm') + merged = Z.of_nat (size rm) + Z.of_nat (length r)
  /\ 0 <= merged <= Z.of_nat (length r).
Proof.
  intros Hlen. unfold MergeRows.
  pose proof (MergeRows_fold r rm 0 ltac:(lia) ltac:(lia)) as H.
  destruct (foldl MergeRows_step (rm, 0) r) as [rm' merged].
  destruct H as (Hval & Hsize & Hle).
  split; [exact Hval|]. split; lia.
Qed.

Definition a_row : Row Z Z Z :=
  {| Row_Labels := {| Timestamp := 5; Iface := "eth0"; Hostname := "a";
                      HostID := "1" |};
     Row_Attributes := {| SrcIP := 1; DstIP := 2; IPProto := 6; DstPort := 443 |};
     Row_Counters := 10 |}.

Lemma MergeRows_spec_witness :
  let '(rm', merged) := MergeRows (∅ : gmap (MergeableAttributes Z Z) Z)
                          [a_row; a_row] in
  (forall k, rm' !! k
             = merged_value ((∅ : gmap (MergeableAttributes Z Z) Z) !! k)
                 (counters_of k [a_row; a_row]))
  /\ Z.of_nat (size rm') + merged
     = Z.of_nat (size (∅ : gmap (MergeableAttributes Z Z) Z))
       + Z.of_nat (length [a_row; a_row])
  /\ 0 <= merged <= Z.of_nat (length [a_row; a_row]).
Proof.
  apply (MergeRows_spec (∅ : gmap (MergeableAttributes Z Z) Z) [a_row; a_row]).
  cbn [length]. lia.
Defined.

(** X23. MergeRowsMap does not depend on the order of the range over
    om: the result is the union of the two maps, with Add on the keys
    they share, and the count is the number of keys they share. *)
Theorem MergeRowsMap_spec {Time Addr Counters StatusCode : Type}
    `{L : !Library Time Addr Counters StatusCode}
    (rm om : gmap (MergeableAttributes Time Addr) Counters)
    (om_range : list (MergeableAttributes Time Addr * Counters)) :
  om_range ≡ₚ map_to_list om ->
  Z.of_nat (size om) < 2 ^ 63 ->
  MergeRowsMap rm om_range
  = (union_with (fun c oc => Some (Counters_Add c oc)) rm om,
     Z.of_nat (length (filter (fun kv => is_Some (rm !! kv.1))
                         (map_to_list om)))).
Proof.
  intros Hperm Hsize.
  destruct (range_NoDup om om_range Hperm) as (Hnd & Hmap & Hlen).
  unfold MergeRowsMap.
  rewrite MergeRowsMap_fold by (try exact Hnd; rewrite ?Hlen; lia).
  rewrite Hmap, Z.add_0_l. do 2 f_equal.
  apply Permutation_length. rewrite Hperm. reflexivity.
Qed.

Definition two_keys : gmap (MergeableAttributes Z Z) Z :=
  <[key_of a_row := 10]>
    {[ {| MA_Labels := Row_Labels a_row;
          MA_Attributes := {| SrcIP := 1; DstIP := 2; IPProto := 17;
                              DstPort := 53 |} |} := 4 ]}.

Lemma two_keys_range :
  [(key_of a_row, 10);
   ({| MA_Labels := Row_Labels a_row;
       MA_Attributes := {| SrcIP := 1; DstIP := 2; IPProto := 17;
                           DstPort := 53 |} |}, 4)]
  ≡ₚ map_to_list two_keys.
Proof.
  unfold two_keys. rewrite map_to_list_insert.
  - rewrite map_to_list_singleton. reflexivity.
  - apply lookup_singleton_ne. discriminate.
Qed.

Lemma two_keys_size : Z.of_nat (size two_keys) < 2 ^ 63.
Proof.
  rewrite <- length_map_to_list, <- two_keys_range. cbn [length]. lia.
Qed.

Lemma MergeRowsMap_spec_witness :
  MergeRowsMap {[ key_of a_row := 1 ]}
    [(key_of a_row, 10);
     ({| MA_Labels := Row_Labels a_row;
         MA_Attributes := {| SrcIP := 1; DstIP := 2; IPProto := 17;
                             DstPort := 53 |} |}, 4)]
  = (union_with (fun c oc => Some (Counters_Add c oc))
       {[ key_of a_row := 1 ]} two_keys,
     Z.of_nat (length (filter (fun kv => is_Some
                                  ((({[ key_of a_row := 1 ]}
                                     : gmap (MergeableAttributes Z Z) Z)) !! kv.1))
                         (map_to_list two_keys)))).
Proof.
  apply (MergeRowsMap_spec {[ key_of a_row := 1 ]} two_keys).
  - exact two_keys_range.
  - exact two_keys_size.
Defined.

(** X24. ToRows returns one row for every entry of the map, and these
    rows merged into an empty map give the map back, none of them
    counting as merged. *)
Theorem ToRows_MergeRows {Time Addr Counters StatusCode : Type}
    `{L : !Library Time Addr Counters StatusCode}
    (rm : gmap (MergeableAttributes Time Addr) Counters)
    (rm_range : list (MergeableAttributes Time Addr * Counters)) :
  rm_range ≡ₚ map_to_list rm ->
  Z.of_nat (size rm) < 2 ^ 63 ->
  length (ToRows rm rm_range) = size rm
  /\ (forall row, row ∈ ToRows rm rm_range
                  <-> rm !! key_of row = Some (Row_Counters row))
  /\ MergeRows ∅ (ToRows rm rm_range) = (rm, 0).
Proof.
  intros Hperm Hsize.
  destruct (range_NoDup rm rm_range Hperm) as (Hnd & Hmap & Hlen).
  rewrite (ToRows_map rm rm_range Hperm).
  split; [rewrite length_map; exact Hlen|]. split.
  - intros row. rewrite list_elem_of_fmap. split.
    + intros ([k c] & -> & Hin). rewrite key_of_row_of. cbn [fst row_of Row_Counters snd].
      apply elem_of_map_to_list. rewrite <- Hperm. exact Hin.
    + intros Hrow. exists (key_of row, Row_Counters row). split.
      * destruct row as [l a c]. reflexivity.
      * rewrite Hperm. apply elem_of_map_to_list. exact Hrow.
  - unfold MergeRows. rewrite MergeRows_row_of.
    rewrite MergeRowsMap_fold by (try exact Hnd; rewrite ?Hlen; lia).
    rewrite Hmap. f_equal.
    + apply map_eq. intros k. rewrite lookup_union_with, lookup_empty.
      destruct (rm !! k); reflexivity.
    + rewrite (filter_ext_elem _ (fun _ => False)).
      * clear. induction rm_range as [|x l IH]; [reflexivity|].
        rewrite filter_cons. destruct (decide False); [contradiction | exact IH].
      * intros [k c] _. cbn [fst]. rewrite lookup_empty. split; [|contradiction].
        intros [x Hx]. discriminate Hx.
Qed.

Lemma ToRows_MergeRows_witness :
  length (ToRows two_keys
            [(key_of a_row, 10);
             ({| MA_Labels := Row_Labels a_row;
                 MA_Attributes := {| SrcIP := 1; DstIP := 2; IPProto := 17;
                                     DstPort := 53 |} |}, 4)])
  = size two_keys.
Proof.
  exact (proj1 (ToRows_MergeRows two_keys _ two_keys_range two_keys_size)).
Defined.

(** X25. End sorts the interfaces, leaves the rows as they are and
    sets the query duration; a result without rows gets the status
    "empty" with the message of ErrorNoResults, whatever its status
    was, a result with rows keeps its status; ending twice is ending
    once. A new result that is started and ended is empty. *)
Theorem End_spec {Time Addr Counters StatusCode : Type}
    `{L : !Library Time Addr Counters StatusCode}
    (r : Result Time Addr Counters StatusCode) (t0 now : Time) :
  let r' := End r now in
  Sorted string_le (Interfaces (Result_Summary r'))
  /\ Interfaces (Result_Summary r') ≡ₚ Interfaces (Result_Summary r)
  /\ (Rows r = [] ->
      Result_Status r' = {| Code := StatusEmpty; Message := ErrorNoResults |})
  /\ (Rows r <> [] -> Result_Status r' = Result_Status r)
  /\ Rows r' = Rows r
  /\ QueryDuration (Summary_Timings (Result_Summary r'))
     = Time_Sub now (QueryStart (Summary_Timings (Result_Summary r)))
  /\ End r' now = r'
  /\ Result_Status (End (Start New t0) now)
     = {| Code := StatusEmpty; Message := ErrorNoResults |}
  /\ QueryDuration (Summary_Timings (Result_Summary (End (Start New t0) now)))
     = Time_Sub now t0.
Proof.
  cbv zeta. unfold End. cbn [Result_Summary Interfaces Result_Status Rows
                              Summary_Timings QueryDuration QueryStart].
  split; [apply sort_strings_Sorted|]. split; [apply sort_strings_perm|].
  split; [intros ->; reflexivity|].
  split; [intros Hne; destruct (Rows r); [contradiction | reflexivity]|].
  split; [reflexivity|]. split; [reflexivity|].
  split; [|split; reflexivity].
  f_equal.
  - destruct (Nat.eqb (length (Rows r)) 0); reflexivity.
  - f_equal. unfold sort_strings.
    apply (Sorted_unique string_le).
    + apply Sorted_merge_sort. apply _.
    + apply Sorted_merge_sort. apply _.
    + apply merge_sort_Permutation.
Qed.

End ResultsSpec.
